(** * PublicServerScanner workers: a shallow embedding

    The scan workers of the repository ([workers/scan_worker.py], the polling
    worker, and [workers/tasks.py] with [workers/database.py], the Celery
    task) and the check adapters under [workers/checks/], embedded as Rocq
    functions, with the properties of the job-claiming and check-execution
    engine stated and proved over them.

    Conventions of the embedding:
    - Python strings are [string]; UUIDs are strings; SQL [NULL] and Python
      [None] are [None : option _].
    - A Python dict returned by an adapter is a record of optional fields
      (a missing key is [None]), read through [dict.get(key, default)].
    - The PostgreSQL database is a record of tables (lists of rows, in
      insertion order), the set of row locks held by open transactions and a
      logical clock read by [NOW()].
    - [conn.commit()] makes the writes of the transaction durable; a
      connection records the snapshot of the database after each of its
      commits, so that the sequence of persisted states of a run can be
      stated.
    - Python exceptions are values of [exn]; code that can raise lives in
      the monad [res]. *)

From Stdlib Require Import ZArith List String Ascii Bool Lia.
From Stdlib Require Import QArith Qround Qpower Lqa SpecFloat Sorted.
Import ListNotations.

Local Set Warnings "-register-all".
Local Open Scope string_scope.
Local Open Scope Z_scope.

(** ** Python floats

    [int(((i + 1) / total_checks) * 100)] is computed in IEEE 754 binary64:
    [/] on two ints is the correctly rounded quotient, [* 100] is a
    correctly rounded product, and [int] truncates toward zero.  Doubles
    are modelled by the rationals they denote; rounding is to nearest with
    ties to even at 53 significant bits.  Overflow and subnormals are not
    modelled (the values that occur lie between 2^-1022 and 2^1024). *)

Module Float64.

Local Open Scope Q_scope.

Definition prec : Z := 53.

(** Round a rational to the nearest integer, ties to the even one. *)
Definition rne (x : Q) : Z :=
  let f := Qfloor x in
  match Qcompare (x - inject_Z f) (1 # 2) with
  | Lt => f
  | Gt => (f + 1)%Z
  | Eq => if Z.even f then f else (f + 1)%Z
  end.

(** [floor (log2 x)] for [x > 0]. *)
Definition ilog2 (x : Q) : Z :=
  let s := (Z.log2 (Qnum x) - Z.log2 (Zpos (Qden x)))%Z in
  if Qle_bool (2 ^ s) x then s else (s - 1)%Z.

(** The double nearest to a positive rational: the significand is scaled
    into [2^52, 2^53), rounded to an integer, and scaled back. *)
Definition round_pos (x : Q) : Q :=
  let e := (ilog2 x - (prec - 1))%Z in
  inject_Z (rne (x / 2 ^ e)) * 2 ^ e.

Definition round64 (x : Q) : Q :=
  match Qcompare x 0 with
  | Eq => 0
  | Gt => round_pos x
  | Lt => - round_pos (- x)
  end.

(** [float(z)]. *)
Definition of_int (z : Z) : Q := round64 (inject_Z z).

(** [a / b] on Python ints ([b] nonzero). *)
Definition truediv (a b : Z) : Q := round64 (inject_Z a / inject_Z b).

(** [x * y] on floats. *)
Definition mul (x y : Q) : Q := round64 (x * y).

(** [int(x)]: truncation toward zero. *)
Definition to_int (x : Q) : Z :=
  if Qle_bool 0 x then Qfloor x else Qceiling x.

End Float64.

(** [int((completed / total) * 100)], the progress both executors persist. *)
Definition progress_percent (completed total : Z) : Z :=
  Float64.to_int (Float64.mul (Float64.truediv completed total) (Float64.of_int 100)).

(** The same computation with the Standard Library's specification of
    binary64 operations ([SpecFloat], the reference semantics of Rocq's
    primitive floats), kept to cross-check [Float64]. *)

Definition sf_of_int (z : Z) : spec_float := binary_normalize 53 1024 z 0 false.

Definition sf_to_int (f : spec_float) : Z :=
  match f with
  | S754_finite s m e =>
      let v := Z.shiftl (Zpos m) e in if s then - v else v
  | _ => 0
  end.

Definition sf_progress_percent (completed total : Z) : Z :=
  sf_to_int (SFmul 53 1024
               (SFdiv 53 1024 (sf_of_int completed) (sf_of_int total))
               (sf_of_int 100)).

(** Do the two computations agree for every job of up to [n] checks? *)
Definition agree_upto (n : nat) : bool :=
  forallb
    (fun t =>
       forallb
         (fun k =>
            progress_percent (Z.of_nat k) (Z.of_nat t)
            =? sf_progress_percent (Z.of_nat k) (Z.of_nat t))
         (seq 1 t))
    (seq 1 n).

(** ** JSON-like payloads (the [data] column, [json.dumps]) *)

Inductive json : Type :=
| JNull
| JBool (b : bool)
| JInt (z : Z)
| JFloat (repr : string)   (* a float, by its decimal text *)
| JStr (s : string)
| JList (l : list json)
| JDict (kv : list (string * json)).

(** ** Check results: the dict every adapter returns *)

Record check_result : Type := mkResult {
  res_status : option string;
  res_data : option json;
  res_findings : option Z;
  res_severity : option string
}.

(** [d.get(key, default)] on an optional field. *)
Definition dict_get {A : Type} (field : option A) (default : A) : A :=
  match field with
  | Some v => v
  | None => default
  end.

(** ** Tables *)

(** A row of [scan_jobs]. *)
Record scan_job : Type := mkJob {
  job_id : string;
  job_target_id : option string;
  job_url : option string;
  job_checks : list string;
  job_organization_id : option string;
  job_status : string;
  job_progress : Z;
  job_created_at : Z;
  job_started_at : option Z;
  job_completed_at : option Z;
  job_updated_at : option Z
}.

(** A row of [scan_results]. *)
Record scan_result : Type := mkScanResult {
  sr_scan_id : string;
  sr_check_type : string;
  sr_status : string;
  sr_data : json;
  sr_findings : Z;
  sr_severity : string
}.

(** A row of [targets]. *)
Record target_row : Type := mkTarget {
  tgt_id : string;
  tgt_hostname : option string
}.

(** A database session (one [psycopg2] connection, one worker). *)
Definition session := nat.

Record database : Type := mkDb {
  scan_jobs : list scan_job;
  scan_results : list scan_result;
  targets : list target_row;
  (** row locks on [scan_jobs] taken by [FOR UPDATE]: (job id, holder) *)
  row_locks : list (string * session);
  (** the value [NOW()] returns *)
  clock : Z
}.

(** A connection: the session id, the database it talks to, and the
    snapshots left by its commits (oldest first). *)
Record connection : Type := mkConn {
  conn_session : session;
  conn_db : database;
  conn_commits : list database
}.

(** ** SQL helpers *)

(** [UPDATE scan_jobs SET ... WHERE id = scan_id]. *)
Definition update_where_id (scan_id : string) (set : scan_job -> scan_job)
    (rows : list scan_job) : list scan_job :=
  map (fun r => if String.eqb (job_id r) scan_id then set r else r) rows.

(** The locks that remain once the transaction of session [s] ends. *)
Definition release_locks (s : session) (locks : list (string * session))
    : list (string * session) :=
  filter (fun l => negb (Nat.eqb (snd l) s)) locks.

(** [conn.commit()]: the transaction ends, its row locks are released, time
    passes, and the committed state is recorded. *)
Definition commit (c : connection) : connection :=
  let db := conn_db c in
  let db' := mkDb (scan_jobs db) (scan_results db) (targets db)
                  (release_locks (conn_session c) (row_locks db))
                  (clock db + 1) in
  mkConn (conn_session c) db' (conn_commits c ++ [db']).

Definition with_jobs (c : connection) (rows : list scan_job) : connection :=
  let db := conn_db c in
  mkConn (conn_session c)
         (mkDb rows (scan_results db) (targets db) (row_locks db) (clock db))
         (conn_commits c).

Definition with_results (c : connection) (rows : list scan_result) : connection :=
  let db := conn_db c in
  mkConn (conn_session c)
         (mkDb (scan_jobs db) rows (targets db) (row_locks db) (clock db))
         (conn_commits c).

(** ** Exceptions

    The subclasses of Python's [Exception] that the workers can meet.
    [KeyboardInterrupt] and [SystemExit] are not subclasses of [Exception]
    and are outside the model. *)

Inductive exn : Type :=
| TimeoutExpired (msg : string)      (* subprocess.TimeoutExpired *)
| FileNotFoundError (msg : string)   (* executable or file absent *)
| ParseError (msg : string)          (* xml.etree.ElementTree.ParseError *)
| ValueError (msg : string)
| TypeError (msg : string)
| OSError (msg : string)
| OtherException (msg : string).

(** [str(e)]. *)
Definition exn_str (e : exn) : string :=
  match e with
  | TimeoutExpired m | FileNotFoundError m | ParseError m | ValueError m
  | TypeError m | OSError m | OtherException m => m
  end.

(** The result of running Python code: a value, or a raised exception. *)
Inductive res (A : Type) : Type :=
| Ok (a : A)
| Raise (e : exn).

Arguments Ok {A} a.
Arguments Raise {A} e.

Definition bind {A B : Type} (m : res A) (k : A -> res B) : res B :=
  match m with
  | Ok a => k a
  | Raise e => Raise e
  end.

(** [try: body  except ...: handler]: the handler sees every exception of
    the body; a handler that does not match re-raises it. *)
Definition try_except {A : Type} (body : res A) (handler : exn -> res A) : res A :=
  match body with
  | Ok a => Ok a
  | Raise e => handler e
  end.

Notation "x <- m ;; k" := (bind m (fun x => k))
  (at level 61, m at next level, right associativity).

(** The [config] dict handed to an adapter. *)
Definition config := list (string * json).

(** A check adapter as the executors see it: a callable of a target and a
    config that returns a dict or raises. *)
Definition adapter_fn := string -> config -> res check_result.

(** The six keys of [check_map] / [check_functions]. *)
Inductive check_id : Type :=
| ping | portscan | headers | ssl | dns | bruteforce.

(** The name lookup both dicts perform. *)
Definition lookup_check (check_name : string) : option check_id :=
  if String.eqb check_name "ping" then Some ping
  else if String.eqb check_name "portscan" then Some portscan
  else if String.eqb check_name "headers" then Some headers
  else if String.eqb check_name "ssl" then Some ssl
  else if String.eqb check_name "dns" then Some dns
  else if String.eqb check_name "bruteforce" then Some bruteforce
  else None.

(** What the six adapter functions do when called; it depends on the state
    of the network and of the installed tools at the time of the call. *)
Definition adapters := check_id -> adapter_fn.

(** ** scan_worker.py *)

Module ScanWorker.

(** [progress or 0]. *)
Definition or_0 (progress : option Z) : Z :=
  match progress with
  | Some p => p
  | None => 0
  end.

Definition set_running (p : Z) (now : Z) (r : scan_job) : scan_job :=
  mkJob (job_id r) (job_target_id r) (job_url r) (job_checks r)
        (job_organization_id r) "running" p (job_created_at r)
        (Some now) (job_completed_at r) (job_updated_at r).

Definition set_completed (now : Z) (r : scan_job) : scan_job :=
  mkJob (job_id r) (job_target_id r) (job_url r) (job_checks r)
        (job_organization_id r) "completed" 100 (job_created_at r)
        (job_started_at r) (Some now) (job_updated_at r).

Definition set_failed (now : Z) (r : scan_job) : scan_job :=
  mkJob (job_id r) (job_target_id r) (job_url r) (job_checks r)
        (job_organization_id r) "failed" (job_progress r) (job_created_at r)
        (job_started_at r) (Some now) (job_updated_at r).

Definition set_other (status : string) (p : Z) (r : scan_job) : scan_job :=
  mkJob (job_id r) (job_target_id r) (job_url r) (job_checks r)
        (job_organization_id r) status p (job_created_at r)
        (job_started_at r) (job_completed_at r) (job_updated_at r).

(** [update_scan_status(conn, scan_id, status, progress=None)]. *)
Definition update_scan_status (conn : connection) (scan_id : string)
    (status : string) (progress : option Z) : connection :=
  let now := clock (conn_db conn) in
  let rows := scan_jobs (conn_db conn) in
  let rows' :=
    if String.eqb status "running" then
      update_where_id scan_id (set_running (or_0 progress) now) rows
    else if String.eqb status "completed" then
      update_where_id scan_id (set_completed now) rows
    else if String.eqb status "failed" then
      update_where_id scan_id (set_failed now) rows
    else
      update_where_id scan_id (set_other status (or_0 progress)) rows in
  commit (with_jobs conn rows').

(** [save_scan_result(conn, scan_id, check_type, status, data, findings,
    severity)]: one [INSERT] and a commit. *)
Definition save_scan_result (conn : connection) (scan_id check_type status : string)
    (data : json) (findings : Z) (severity : string) : connection :=
  let row := mkScanResult scan_id check_type status data findings severity in
  commit (with_results conn (scan_results (conn_db conn) ++ [row])).

(** [get_queued_scans]'s row: (id, target_id, url, checks, organization_id). *)
Definition scan_data : Type :=
  (string * option string * option string * list string * option string)%type.

Definition select_columns (r : scan_job) : scan_data :=
  (job_id r, job_target_id r, job_url r, job_checks r, job_organization_id r).

Definition data_id (d : scan_data) : string :=
  let '(scan_id, _, _, _, _) := d in scan_id.

(** A row is locked against session [s] when another session holds its
    lock. *)
Definition locked_by_other (db : database) (s : session) (id : string) : bool :=
  existsb (fun l => String.eqb (fst l) id && negb (Nat.eqb (snd l) s))
          (row_locks db).

(** [WHERE status = 'queued' ... FOR UPDATE SKIP LOCKED]: the rows the
    query of session [s] can return. *)
Definition claimable (db : database) (s : session) (r : scan_job) : bool :=
  String.eqb (job_status r) "queued" && negb (locked_by_other db s (job_id r)).

(** [ORDER BY created_at ASC LIMIT 1]: a row of least [created_at] (the
    first one in table order among equals). *)
Fixpoint oldest (rows : list scan_job) : option scan_job :=
  match rows with
  | [] => None
  | r :: rest =>
      match oldest rest with
      | None => Some r
      | Some r' =>
          if job_created_at r <=? job_created_at r' then Some r else Some r'
      end
  end.

(** [get_queued_scans(conn)]: the row [fetchone()] returns, if any; the
    transaction stays open and holds the lock of that row. *)
Definition get_queued_scans (conn : connection) : option scan_data * connection :=
  let db := conn_db conn in
  let s := conn_session conn in
  match oldest (filter (claimable db s) (scan_jobs db)) with
  | None => (None, conn)
  | Some r =>
      (Some (select_columns r),
       mkConn s
              (mkDb (scan_jobs db) (scan_results db) (targets db)
                    ((job_id r, s) :: row_locks db) (clock db))
              (conn_commits conn))
  end.

(** [execute_check(check_name, target)], with the adapter functions that
    [check_map] holds at the time of the call. *)
Definition execute_check (fns : adapters) (check_name target : string) : check_result :=
  match option_map fns (lookup_check check_name) with
  | None =>
      mkResult (Some "error")
               (Some (JDict [("error", JStr ("Unknown check: " ++ check_name))]))
               (Some 0) (Some "info")
  | Some check_func =>
      match check_func target [] with
      | Ok result => result
      | Raise e =>
          mkResult (Some "error")
                   (Some (JDict [("error", JStr (exn_str e))]))
                   (Some 0) (Some "info")
      end
  end.

(** Python truthiness of [url]. *)
Definition truthy (url : option string) : bool :=
  match url with
  | Some s => negb (String.eqb s "")
  | None => false
  end.

(** [SELECT hostname FROM targets WHERE id = %s] and [fetchone()]. *)
Definition fetch_hostname (db : database) (target_id : option string) : option target_row :=
  match target_id with
  | None => None
  | Some t => find (fun r => String.eqb (tgt_id r) t) (targets db)
  end.

(** The body of the [for i, check_name in enumerate(checks)] loop, from index
    [i] on.  [world i] is what the adapters do at iteration [i]. *)
Fixpoint run_checks (world : nat -> adapters) (conn : connection)
    (scan_id target : string) (total_checks : Z) (i : nat)
    (checks : list string) : connection :=
  match checks with
  | [] => conn
  | check_name :: rest =>
      let result := execute_check (world i) check_name target in
      let conn := save_scan_result conn scan_id check_name
                    (dict_get (res_status result) "success")
                    (dict_get (res_data result) (JDict []))
                    (dict_get (res_findings result) 0)
                    (dict_get (res_severity result) "info") in
      let progress := progress_percent (Z.of_nat i + 1) total_checks in
      let conn := update_scan_status conn scan_id "running" (Some progress) in
      run_checks world conn scan_id target total_checks (S i) rest
  end.

(** The target of a scan: the url of the job, else the hostname of its target
    row ([NULL] rendered as the empty target); [None] when there is neither. *)
Definition resolve_target (db : database) (target_id url : option string)
    : option string :=
  if truthy url then Some (dict_get url "")
  else match fetch_hostname db target_id with
       | None => None
       | Some result => Some (dict_get (tgt_hostname result) "")
       end.

(** [process_scan(conn, scan_data)]. *)
Definition process_scan (world : nat -> adapters) (conn : connection)
    (data : scan_data) : connection :=
  let '(scan_id, target_id, url, checks, org_id) := data in
  match resolve_target (conn_db conn) target_id url with
  | None => update_scan_status conn scan_id "failed" None
  | Some target =>
      let conn := update_scan_status conn scan_id "running" (Some 0) in
      let total_checks := Z.of_nat (List.length checks) in
      let conn := run_checks world conn scan_id target total_checks 0 checks in
      update_scan_status conn scan_id "completed" None
  end.

End ScanWorker.


(** ** database.py and tasks.py

    Every function of [database.py] opens a connection of its own and
    commits; the store is assumed reachable, so that none of them raises.
    The outer [except] of [execute_scan] and [ScanTask.on_failure] (status
    [failed], re-raise) need a store operation to raise and are not
    reached. *)

Module CeleryTask.

Definition set_status_completed_at (status : string) (completed_at now : Z)
    (r : scan_job) : scan_job :=
  mkJob (job_id r) (job_target_id r) (job_url r) (job_checks r)
        (job_organization_id r) status (job_progress r) (job_created_at r)
        (job_started_at r) (Some completed_at) (Some now).

Definition set_status_started (status : string) (now : Z) (r : scan_job) : scan_job :=
  mkJob (job_id r) (job_target_id r) (job_url r) (job_checks r)
        (job_organization_id r) status (job_progress r) (job_created_at r)
        (Some now) (job_completed_at r) (Some now).

Definition set_status (status : string) (now : Z) (r : scan_job) : scan_job :=
  mkJob (job_id r) (job_target_id r) (job_url r) (job_checks r)
        (job_organization_id r) status (job_progress r) (job_created_at r)
        (job_started_at r) (job_completed_at r) (Some now).

Definition set_progress (progress : Z) (now : Z) (r : scan_job) : scan_job :=
  mkJob (job_id r) (job_target_id r) (job_url r) (job_checks r)
        (job_organization_id r) (job_status r) progress (job_created_at r)
        (job_started_at r) (job_completed_at r) (Some now).

(** [update_scan_status(scan_id, status, completed_at=None)]. *)
Definition update_scan_status (conn : connection) (scan_id status : string)
    (completed_at : option Z) : connection :=
  let now := clock (conn_db conn) in
  let rows := scan_jobs (conn_db conn) in
  let rows' :=
    match completed_at with
    | Some t => update_where_id scan_id (set_status_completed_at status t now) rows
    | None =>
        if String.eqb status "running" then
          update_where_id scan_id (set_status_started status now) rows
        else
          update_where_id scan_id (set_status status now) rows
    end in
  commit (with_jobs conn rows').

(** [update_scan_progress(scan_id, progress)]. *)
Definition update_scan_progress (conn : connection) (scan_id : string)
    (progress : Z) : connection :=
  let now := clock (conn_db conn) in
  commit (with_jobs conn
            (update_where_id scan_id (set_progress progress now)
                             (scan_jobs (conn_db conn)))).

(** [store_scan_result(scan_id, check_type, status, data, findings, severity)]. *)
Definition store_scan_result (conn : connection) (scan_id check_type status : string)
    (data : json) (findings : Z) (severity : string) : connection :=
  let row := mkScanResult scan_id check_type status data findings severity in
  commit (with_results conn (scan_results (conn_db conn) ++ [row])).

(** The [for check_name in checks] loop of [execute_scan]; the state is the
    connection and [completed_checks].  [world k] is what the adapters do
    at the iteration that visits the [k]-th element of the list. *)
Fixpoint run_checks (world : nat -> adapters) (conn : connection)
    (scan_id target : string) (cfg : config) (total_checks : Z)
    (k : nat) (completed_checks : Z) (checks : list string)
    : connection * Z :=
  match checks with
  | [] => (conn, completed_checks)
  | check_name :: rest =>
      match lookup_check check_name with
      | None =>
          (* logger.warning("Unknown check"); continue *)
          run_checks world conn scan_id target cfg total_checks (S k)
                     completed_checks rest
      | Some c =>
          let conn :=
            match world k c target cfg with
            | Ok result =>
                store_scan_result conn scan_id check_name "success"
                  (dict_get (res_data result) (JDict []))
                  (dict_get (res_findings result) 0)
                  (dict_get (res_severity result) "info")
            | Raise e =>
                store_scan_result conn scan_id check_name "failed"
                  (JDict [("error", JStr (exn_str e))]) 0 "info"
            end in
          let completed_checks := completed_checks + 1 in
          let progress := progress_percent completed_checks total_checks in
          let conn := update_scan_progress conn scan_id progress in
          run_checks world conn scan_id target cfg total_checks (S k)
                     completed_checks rest
      end
  end.

(** The dict [execute_scan] returns. *)
Record scan_summary : Type := mkSummary {
  sum_scan_id : string;
  sum_status : string;
  sum_checks_completed : Z;
  sum_checks_total : Z
}.

(** [execute_scan(self, scan_id, target, checks, config)]. *)
Definition execute_scan (world : nat -> adapters) (conn : connection)
    (scan_id target : string) (checks : list string) (cfg : config)
    : connection * scan_summary :=
  let conn := update_scan_status conn scan_id "running" None in
  let conn := update_scan_progress conn scan_id 0 in
  let total_checks := Z.of_nat (List.length checks) in
  let '(conn, completed_checks) :=
    run_checks world conn scan_id target cfg total_checks 0 0 checks in
  let conn := update_scan_status conn scan_id "completed" (Some (clock (conn_db conn))) in
  let conn := update_scan_progress conn scan_id 100 in
  (conn, mkSummary scan_id "completed" completed_checks total_checks).

End CeleryTask.

(** ** Python string methods (on ASCII text) *)

Module PyStr.

Local Open Scope nat_scope.

Definition is_space (c : ascii) : bool :=
  let n := nat_of_ascii c in
  ((9 <=? n) && (n <=? 13)) || ((28 <=? n) && (n <=? 32)).

Definition is_digit (c : ascii) : bool :=
  let n := nat_of_ascii c in (48 <=? n) && (n <=? 57).

Definition is_empty (s : string) : bool :=
  match s with
  | EmptyString => true
  | String _ _ => false
  end.

Definition rev_string (s : string) : string :=
  string_of_list_ascii (rev (list_ascii_of_string s)).

Fixpoint lstrip (s : string) : string :=
  match s with
  | EmptyString => EmptyString
  | String c r => if is_space c then lstrip r else s
  end.

(** [s.strip()]. *)
Definition strip (s : string) : string :=
  rev_string (lstrip (rev_string (lstrip s))).

(** [s.startswith(p)]. *)
Definition startswith (s p : string) : bool := String.prefix p s.

(** [needle in hay]. *)
Definition contains (needle hay : string) : bool :=
  match String.index 0 needle hay with
  | Some _ => true
  | None => false
  end.

Definition lower_char (c : ascii) : ascii :=
  let n := nat_of_ascii c in
  if (65 <=? n) && (n <=? 90) then ascii_of_nat (n + 32) else c.

(** [s.lower()]. *)
Fixpoint lower (s : string) : string :=
  match s with
  | EmptyString => EmptyString
  | String c r => String (lower_char c) (lower r)
  end.

(** [s.split(sep)] for a one-character separator. *)
Fixpoint split (sep : ascii) (s : string) : list string :=
  match s with
  | EmptyString => [EmptyString]
  | String c r =>
      if Ascii.eqb c sep then EmptyString :: split sep r
      else match split sep r with
           | [] => [String c EmptyString]
           | h :: t => String c h :: t
           end
  end.

(** [s.split(sep, 1)] when [sep in s]: the text before and after the first
    separator; [None] when the separator does not occur. *)
Fixpoint split_once (sep : ascii) (s : string) : option (string * string) :=
  match s with
  | EmptyString => None
  | String c r =>
      if Ascii.eqb c sep then Some (EmptyString, r)
      else match split_once sep r with
           | Some (a, b) => Some (String c a, b)
           | None => None
           end
  end.

Fixpoint words_from (cur : string) (s : string) : list string :=
  match s with
  | EmptyString => if is_empty cur then [] else [cur]
  | String c r =>
      if is_space c then
        (if is_empty cur then words_from EmptyString r
         else cur :: words_from EmptyString r)
      else words_from (cur ++ String c EmptyString) r
  end.

(** [s.split()]: the maximal runs of non-blank characters. *)
Definition words (s : string) : list string := words_from EmptyString s.

Fixpoint replace_from (old new : string) (skip : nat) (s : string) : string :=
  match s with
  | EmptyString => EmptyString
  | String c r =>
      match skip with
      | S k => replace_from old new k r
      | O =>
          if String.prefix old s
          then new ++ replace_from old new (String.length old - 1) r
          else String c (replace_from old new 0 r)
      end
  end.

(** [s.replace(old, new)] for a non-empty [old]. *)
Definition replace (old new s : string) : string := replace_from old new 0 s.

(** [os.path.basename(p)]. *)
Definition basename (p : string) : string :=
  last (split "/" p) EmptyString.

Local Open Scope Z_scope.

Definition digit_value (c : ascii) : Z := Z.of_nat (nat_of_ascii c) - 48.

(** Decimal digits, single underscores allowed between digits. *)
Fixpoint digits_from (prev_digit : bool) (acc : Z) (s : string) : option Z :=
  match s with
  | EmptyString => if prev_digit then Some acc else None
  | String c r =>
      if is_digit c then digits_from true (10 * acc + digit_value c) r
      else if Ascii.eqb c "_" then
        (if prev_digit then digits_from false acc r else None)
      else None
  end.

(** [int(s)] on a string. *)
Definition py_int (s : string) : res Z :=
  let t := strip s in
  let '(neg, body) :=
    match t with
    | String "-" r => (true, r)
    | String "+" r => (false, r)
    | _ => (false, t)
    end in
  match digits_from false 0 body with
  | Some v => Ok (if neg then - v else v)
  | None => Raise (ValueError ("invalid literal for int() with base 10: " ++ s))
  end.

Fixpoint count_char (c : ascii) (s : string) : nat :=
  match s with
  | EmptyString => O
  | String d r => if Ascii.eqb c d then S (count_char c r) else count_char c r
  end.

Fixpoint has_digit (s : string) : bool :=
  match s with
  | EmptyString => false
  | String c r => is_digit c || has_digit r
  end.

(** [float(s)] on a string of digits and dots (what [[\d.]+] matches): it
    parses when there is a digit and at most one dot. *)
Definition py_float (s : string) : res json :=
  if has_digit s && (count_char "." s <=? 1)%nat then Ok (JFloat s)
  else Raise (ValueError ("could not convert string to float: " ++ s)).

End PyStr.

(** ** The check adapters (workers/checks/) *)

Module Checks.

Import PyStr.

(** What [subprocess.run(..., capture_output=True, text=True)] returns. *)
Record completed_process : Type := mkProc {
  returncode : Z;
  stdout : string;
  stderr : string
}.

(** An XML element of [xml.etree.ElementTree]. *)
Inductive element : Type :=
| Element (tag : string) (attrib : list (string * string)) (children : list element).

(** The libraries and the outside world an adapter calls into. *)
Record env : Type := mkEnv {
  (** [platform.system()] *)
  platform_system : string;
  (** [subprocess.run(command, timeout=t)]: returns or raises *)
  subprocess_run : list string -> Z -> res completed_process;
  (** [subprocess.Popen(command, stdout=PIPE)] *)
  subprocess_popen : list string -> res unit;
  (** [re.search(pattern, text)]: group 1 of the leftmost match *)
  re_search : string -> string -> option string;
  (** [ET.fromstring(text)] *)
  et_fromstring : string -> res element;
  (** [os.path.exists(path)] *)
  path_exists : string -> bool;
  (** [open(path, 'w')] and [f.write(text)] *)
  write_file : string -> string -> res unit
}.

Definition result (status : string) (data : list (string * json))
    (findings : Z) (severity : string) : check_result :=
  mkResult (Some status) (Some (JDict data)) (Some findings) (Some severity).

Definition opt_json {A : Type} (f : A -> json) (o : option A) : json :=
  match o with
  | Some a => f a
  | None => JNull
  end.

(** *** ping.py *)

Definition ping_check (w : env) (target : string) (cfg : config) : res check_result :=
  try_except
    (let windows := String.eqb (lower (platform_system w)) "windows" in
     let param := if windows then "-n" else "-c" in
     let command := ["ping"; param; "4"; target] in
     proc <- subprocess_run w command 10 ;;
     let output := stdout proc in
     if returncode proc =? 0 then
       let time_match :=
         if windows then re_search w "Average = (\d+)ms" output
         else match re_search w "avg = ([\d.]+)" output with
              | Some m => Some m
              | None => re_search w "avg/([\d.]+)" output
              end in
       let loss_match :=
         if windows then re_search w "\((\d+)% loss\)" output
         else re_search w "(\d+)% packet loss" output in
       response_time <-
         match time_match with
         | Some g => py_float g
         | None => Ok JNull
         end ;;
       packet_loss <-
         match loss_match with
         | Some g => py_int g
         | None => Ok 0
         end ;;
       Ok (result "success"
             [("reachable", JBool true);
              ("response_time_ms", response_time);
              ("packet_loss_percent", JInt packet_loss);
              ("raw_output", JStr output)]
             0 "info")
     else
       Ok (result "success"
             [("reachable", JBool false);
              ("error", JStr "Target is not reachable");
              ("raw_output", JStr output)]
             1 "high"))
    (fun e =>
       match e with
       | TimeoutExpired _ =>
           Ok (result "failed" [("error", JStr "Ping check timed out")] 1 "medium")
       | _ =>
           Ok (result "failed" [("error", JStr (exn_str e))] 0 "info")
       end).

(** *** portscan.py *)

Definition tag_of (e : element) : string :=
  match e with Element t _ _ => t end.

Definition children_of (e : element) : list element :=
  match e with Element _ _ cs => cs end.

(** [e.get(key)]. *)
Definition attr (e : element) (key : string) : option string :=
  match e with
  | Element _ a _ =>
      option_map snd (find (fun kv => String.eqb (fst kv) key) a)
  end.

(** [e.find(tag)]: the first child with that tag. *)
Definition find_child (e : element) (t : string) : option element :=
  find (fun c => String.eqb (tag_of c) t) (children_of e).

(** The elements below [e], in document order. *)
Fixpoint descendants (e : element) : list element :=
  match e with
  | Element _ _ cs =>
      (fix go (l : list element) : list element :=
         match l with
         | [] => []
         | c :: r => c :: descendants c ++ go r
         end) cs
  end.

(** [root.findall('.//port')]. *)
Definition findall_port (root : element) : list element :=
  filter (fun e => String.eqb (tag_of e) "port") (descendants root).

Definition is_open (port : element) : bool :=
  match find_child port "state" with
  | Some state =>
      match attr state "state" with
      | Some v => String.eqb v "open"
      | None => false
      end
  | None => false
  end.

(** The dict appended for one open port; [int(port_id)] may raise. *)
Definition port_entry (port : element) : res json :=
  let port_id := attr port "portid" in
  let protocol := attr port "protocol" in
  let service_name :=
    match find_child port "service" with
    | Some service => dict_get (attr service "name") "unknown"
    | None => "unknown"
    end in
  n <- match port_id with
       | Some p => py_int p
       | None => Raise (TypeError "int() argument must be a string, a bytes-like object or a real number, not 'NoneType'")
       end ;;
  Ok (JDict [("port", JInt n);
             ("protocol", opt_json JStr protocol);
             ("service", JStr service_name);
             ("state", JStr "open")]).

(** The [for port in root.findall('.//port')] loop. *)
Fixpoint collect_ports (l : list element) (ports : list json) : res (list json) :=
  match l with
  | [] => Ok ports
  | port :: rest =>
      if is_open port then
        entry <- port_entry port ;;
        collect_ports rest (ports ++ [entry])
      else collect_ports rest ports
  end.

Definition portscan_severity (findings_count : Z) : string :=
  if 20 <? findings_count then "high"
  else if 10 <? findings_count then "medium"
  else "low".

Definition port_scan_check (w : env) (target : string) (cfg : config)
    : res check_result :=
  try_except
    (let command := ["nmap"; "-p-"; "--open"; "-T4"; "-oX"; "-"; target] in
     proc <- subprocess_run w command 900 ;;
     if negb (returncode proc =? 0) then
       Ok (result "failed"
             [("error", JStr "nmap scan failed"); ("stderr", JStr (stderr proc))]
             0 "info")
     else
       try_except
         (root <- et_fromstring w (stdout proc) ;;
          ports <- collect_ports (findall_port root) [] ;;
          let findings_count := Z.of_nat (List.length ports) in
          let severity := portscan_severity findings_count in
          Ok (result "success"
                [("open_ports", JList ports);
                 ("total_open", JInt findings_count);
                 ("scan_completed", JBool true)]
                findings_count severity))
         (fun e =>
            match e with
            | ParseError _ =>
                Ok (result "failed"
                      [("error", JStr "Failed to parse nmap output")] 0 "info")
            | _ => Raise e
            end))
    (fun e =>
       match e with
       | TimeoutExpired _ =>
           Ok (result "failed" [("error", JStr "Port scan timed out")] 0 "info")
       | FileNotFoundError _ =>
           Ok (result "failed" [("error", JStr "nmap not installed")] 0 "info")
       | _ =>
           Ok (result "failed" [("error", JStr (exn_str e))] 0 "info")
       end).

(** *** headers.py *)

Definition SECURITY_HEADERS : list string :=
  ["Strict-Transport-Security";
   "Content-Security-Policy";
   "X-Frame-Options";
   "X-Content-Type-Options";
   "X-XSS-Protection";
   "Referrer-Policy";
   "Permissions-Policy"].

(** [d[k] = v] on a dict kept in insertion order. *)
Fixpoint dict_set (k v : string) (d : list (string * string)) : list (string * string) :=
  match d with
  | [] => [(k, v)]
  | (k', v') :: r =>
      if String.eqb k' k then (k, v) :: r else (k', v') :: dict_set k v r
  end.

(** [k in d]. *)
Definition dict_mem (k : string) (d : list (string * string)) : bool :=
  existsb (fun kv => String.eqb (fst kv) k) d.

Definition dict_lookup (k : string) (d : list (string * string)) : option string :=
  option_map snd (find (fun kv => String.eqb (fst kv) k) d).

(** The [for line in result.stdout.split('\n')] loop. *)
Definition parse_headers (out : string) : list (string * string) :=
  fold_left
    (fun hdrs line =>
       match split_once ":" line with
       | Some (key, value) => dict_set (strip key) (strip value) hdrs
       | None => hdrs
       end)
    (split "010" out) [].

Definition missing_security_headers (hdrs : list (string * string)) : list string :=
  filter (fun header => negb (dict_mem header hdrs)) SECURITY_HEADERS.

Definition headers_severity (findings_count : Z) : string :=
  if 5 <=? findings_count then "high"
  else if 3 <=? findings_count then "medium"
  else if 0 <? findings_count then "low"
  else "info".

Definition with_scheme (target : string) : string :=
  if negb (startswith target "http://" || startswith target "https://")
  then "https://" ++ target
  else target.

Definition headers_check (w : env) (target : string) (cfg : config)
    : res check_result :=
  try_except
    (let target := with_scheme target in
     let command := ["curl"; "-I"; "-s"; "-L"; "--max-time"; "10"; target] in
     proc <- subprocess_run w command 15 ;;
     if negb (returncode proc =? 0) then
       Ok (result "failed" [("error", JStr "Failed to fetch headers")] 0 "info")
     else
       let hdrs := parse_headers (stdout proc) in
       let missing_headers := missing_security_headers hdrs in
       let findings_count := Z.of_nat (List.length missing_headers) in
       let severity := headers_severity findings_count in
       Ok (result "success"
             [("headers_present", JDict (map (fun kv => (fst kv, JStr (snd kv))) hdrs));
              ("missing_headers", JList (map JStr missing_headers));
              ("server", JStr (dict_get (dict_lookup "Server" hdrs) "unknown"))]
             findings_count severity))
    (fun e =>
       match e with
       | TimeoutExpired _ =>
           Ok (result "failed" [("error", JStr "Request timed out")] 0 "info")
       | _ =>
           Ok (result "failed" [("error", JStr (exn_str e))] 0 "info")
       end).

(** *** ssl.py *)

(** [target.replace('https://', '').replace('http://', '').split('/')[0]]. *)
Definition bare_host (target : string) : string :=
  hd EmptyString (split "/" (replace "http://" "" (replace "https://" "" target))).

Definition ssl_check (w : env) (target : string) (cfg : config) : res check_result :=
  try_except
    (let target := bare_host target in
     let command := ["openssl"; "s_client"; "-connect"; target ++ ":443";
                     "-servername"; target; "-showcerts"] in
     _ <- subprocess_popen w ["echo"; "Q"] ;;
     proc <- subprocess_run w command 10 ;;
     if negb (returncode proc =? 0) && is_empty (stdout proc) then
       Ok (result "failed"
             [("error", JStr "Failed to connect to SSL/TLS server")] 1 "high")
     else
       let output := stdout proc in
       let cert_data :=
         (match re_search w "issuer=(.+)" output with
          | Some g => [("issuer", JStr (strip g))]
          | None => []
          end ++
          match re_search w "subject=(.+)" output with
          | Some g => [("subject", JStr (strip g))]
          | None => []
          end ++
          match re_search w "notAfter=(.+)" output with
          | Some g => [("expires", JStr (strip g))]
          | None => []
          end)%list in
       let verify_error := contains "verify error" (lower output) in
       let self_signed := contains "self signed" (lower output) in
       let findings :=
         ((if verify_error then ["Certificate verification error"] else []) ++
          (if self_signed then ["Self-signed certificate"] else []))%list in
       let severity :=
         if self_signed then "medium"
         else if verify_error then "high"
         else "info" in
       Ok (result "success"
             [("certificate", JDict cert_data);
              ("issues", JList (map JStr findings));
              ("has_ssl", JBool true)]
             (Z.of_nat (List.length findings)) severity))
    (fun e =>
       match e with
       | TimeoutExpired _ =>
           Ok (result "failed" [("error", JStr "SSL check timed out")] 0 "info")
       | _ =>
           Ok (result "failed" [("error", JStr (exn_str e))] 0 "info")
       end).

(** *** dns.py *)

Definition DNS_RECORD_TYPES : list string :=
  ["A"; "AAAA"; "MX"; "NS"; "TXT"; "SOA"; "CNAME"].

(** [[line.strip() for line in out.strip().split('\n') if line.strip()]]. *)
Definition record_lines (out : string) : list string :=
  map strip (filter (fun line => negb (is_empty (strip line)))
                    (split "010" (strip out))).

(** One iteration of the [for record_type in DNS_RECORD_TYPES] loop, with
    its own [try]; the state is ([records], [findings_count]). *)
Definition dns_query (w : env) (target : string)
    (st : list (string * json) * Z) (record_type : string)
    : res (list (string * json) * Z) :=
  try_except
    (let command := ["dig"; "+short"; target; record_type] in
     proc <- subprocess_run w command 5 ;;
     if (returncode proc =? 0) && negb (is_empty (strip (stdout proc))) then
       let record_values := record_lines (stdout proc) in
       match record_values with
       | [] => Ok st
       | _ :: _ =>
           Ok ((fst st ++ [(record_type, JList (map JStr record_values))])%list,
               snd st + Z.of_nat (List.length record_values))
       end
     else Ok st)
    (fun e => Ok st).

Fixpoint dns_queries (w : env) (target : string)
    (st : list (string * json) * Z) (types : list string)
    : res (list (string * json) * Z) :=
  match types with
  | [] => Ok st
  | record_type :: rest =>
      st' <- dns_query w target st record_type ;;
      dns_queries w target st' rest
  end.

(** The zone-transfer test, with its own [try]: the flag and the number of
    findings it adds. *)
Definition zone_transfer (w : env) (target : string) : res (bool * Z) :=
  try_except
    (let command := ["dig"; "axfr"; "@" ++ target; target] in
     proc <- subprocess_run w command 10 ;;
     if (returncode proc =? 0) && negb (contains "Transfer failed" (stdout proc))
     then Ok (true, 1)
     else Ok (false, 0))
    (fun e => Ok (false, 0)).

Definition dns_check (w : env) (target : string) (cfg : config) : res check_result :=
  try_except
    (let target := bare_host target in
     st <- dns_queries w target ([], 0) DNS_RECORD_TYPES ;;
     zt <- zone_transfer w target ;;
     let records := fst st in
     let zone_transfer_vulnerable := fst zt in
     let findings_count := snd st + snd zt in
     let severity := if zone_transfer_vulnerable then "high" else "info" in
     Ok (result "success"
           [("records", JDict records);
            ("zone_transfer_vulnerable", JBool zone_transfer_vulnerable);
            ("total_records", JInt findings_count)]
           findings_count severity))
    (fun e =>
       Ok (result "failed" [("error", JStr (exn_str e))] 0 "info")).

(** *** bruteforce.py *)

(** [config.get('custom_wordlist', default)]; a value that is not a string
    makes [os.path.exists] raise. *)
Definition config_wordlist (cfg : config) : res string :=
  match find (fun kv => String.eqb (fst kv) "custom_wordlist") cfg with
  | None => Ok "/usr/share/wordlists/dirb/common.txt"
  | Some (_, JStr p) => Ok p
  | Some _ => Raise (TypeError "stat: path should be string, bytes, os.PathLike or integer")
  end.

Definition minimal_wordlist : list string :=
  ["admin"; "api"; "backup"; "config"; "dashboard";
   "login"; "test"; "upload"; ".git"; ".env"].

(** The [for line in result.stdout.split('\n')] loop of the gobuster parse. *)
Definition parse_gobuster (out : string) : list json :=
  flat_map
    (fun line =>
       if negb (is_empty (strip line)) && negb (startswith line "=") then
         match words line with
         | path :: code :: _ => [JDict [("path", JStr path); ("status", JStr code)]]
         | _ => []
         end
       else [])
    (split "010" out).

Definition bruteforce_severity (findings_count : Z) : string :=
  if 20 <? findings_count then "medium"
  else if 10 <? findings_count then "low"
  else "info".

Definition bruteforce_check (w : env) (target : string) (cfg : config)
    : res check_result :=
  try_except
    (let target := with_scheme target in
     wordlist <- config_wordlist cfg ;;
     wordlist <-
       (if negb (path_exists w wordlist) then
          let wordlist := "/tmp/minimal_wordlist.txt" in
          _ <- write_file w wordlist (String.concat (String "010" "") minimal_wordlist) ;;
          Ok wordlist
        else Ok wordlist) ;;
     let command := ["gobuster"; "dir"; "-u"; target; "-w"; wordlist;
                     "-t"; "10"; "-q"; "--no-error"; "--timeout"; "30s"] in
     proc <- subprocess_run w command 300 ;;
     let found_dirs := parse_gobuster (stdout proc) in
     let findings_count := Z.of_nat (List.length found_dirs) in
     let severity := bruteforce_severity findings_count in
     Ok (result "success"
           [("directories_found", JList found_dirs);
            ("total_found", JInt findings_count);
            ("wordlist_used", JStr (basename wordlist))]
           findings_count severity))
    (fun e =>
       match e with
       | TimeoutExpired _ =>
           Ok (result "failed" [("error", JStr "Brute-force scan timed out")] 0 "info")
       | FileNotFoundError _ =>
           Ok (result "failed" [("error", JStr "gobuster not installed")] 0 "info")
       | _ =>
           Ok (result "failed" [("error", JStr (exn_str e))] 0 "info")
       end).

(** The fields of a result the executors persist besides the payload. *)
Definition summary (r : check_result) : option string * option Z * option string :=
  (res_status r, res_findings r, res_severity r).

(** The adapter functions as the executors import them, in a given state of
    the outside world. *)
Definition run (w : env) : adapters :=
  fun c =>
    match c with
    | ping => ping_check w
    | portscan => port_scan_check w
    | headers => headers_check w
    | ssl => ssl_check w
    | dns => dns_check w
    | bruteforce => bruteforce_check w
    end.

End Checks.

(** ** A pool of polling workers on one database

    Each worker runs [main]'s loop of [scan_worker.py] on a connection of its
    own: [get_queued_scans], then [process_scan].  The workers interleave
    at the granularity of SQL statements; a step below is what one worker
    does between two of its commits.  Workers do not crash and the store
    does not fail.  [sys_handed] is a ghost log of the rows
    [get_queued_scans] has returned, oldest first. *)

Module Pool.

Import ScanWorker.

(** Where a worker stands in [main] and [process_scan]. *)
Inductive worker_state : Type :=
| Idle
    (* in [main], no transaction open *)
| Claimed (data : scan_data)
    (* [get_queued_scans] returned [data]; [process_scan] has not committed yet *)
| Checking (scan_id target : string) (total_checks : Z) (i : nat) (rest : list string)
    (* at the head of the [for] loop, [rest] still to run *)
| Saved (scan_id target : string) (total_checks : Z) (i : nat) (rest : list string).
    (* after [save_scan_result] of iteration [i], before its progress update *)

Record system : Type := mkSys {
  sys_db : database;
  sys_workers : session -> worker_state;
  sys_handed : list (session * string)
}.

(** The connection of worker [s] on the shared database. *)
Definition as_conn (s : session) (db : database) : connection := mkConn s db [].

Definition set_worker (ws : session -> worker_state) (s : session)
    (st : worker_state) : session -> worker_state :=
  fun s' => if Nat.eqb s' s then st else ws s'.

(** [INSERT INTO scan_jobs] by the producer of jobs. *)
Definition enqueue (db : database) (r : scan_job) : database :=
  mkDb (scan_jobs db ++ [r]) (scan_results db) (targets db) (row_locks db) (clock db).

Inductive step : system -> system -> Prop :=
| step_claim : forall s db ws h data c',
    ws s = Idle ->
    get_queued_scans (as_conn s db) = (Some data, c') ->
    step (mkSys db ws h)
         (mkSys (conn_db c') (set_worker ws s (Claimed data))
                (h ++ [(s, data_id data)]))
| step_no_work : forall s db ws h c',
    ws s = Idle ->
    get_queued_scans (as_conn s db) = (None, c') ->
    step (mkSys db ws h) (mkSys (conn_db c') ws h)
| step_start : forall s db ws h scan_id target_id url checks org_id target,
    ws s = Claimed (scan_id, target_id, url, checks, org_id) ->
    resolve_target db target_id url = Some target ->
    step (mkSys db ws h)
         (mkSys (conn_db (update_scan_status (as_conn s db) scan_id "running" (Some 0)))
                (set_worker ws s
                   (Checking scan_id target (Z.of_nat (List.length checks)) 0 checks))
                h)
| step_unresolved : forall s db ws h scan_id target_id url checks org_id,
    ws s = Claimed (scan_id, target_id, url, checks, org_id) ->
    resolve_target db target_id url = None ->
    step (mkSys db ws h)
         (mkSys (conn_db (update_scan_status (as_conn s db) scan_id "failed" None))
                (set_worker ws s Idle) h)
| step_check : forall s db ws h scan_id target total i check_name rest (fns : adapters),
    ws s = Checking scan_id target total i (check_name :: rest) ->
    step (mkSys db ws h)
         (mkSys (conn_db
                   (let result := execute_check fns check_name target in
                    save_scan_result (as_conn s db) scan_id check_name
                      (dict_get (res_status result) "success")
                      (dict_get (res_data result) (JDict []))
                      (dict_get (res_findings result) 0)
                      (dict_get (res_severity result) "info")))
                (set_worker ws s (Saved scan_id target total i rest)) h)
| step_progress : forall s db ws h scan_id target total i rest,
    ws s = Saved scan_id target total i rest ->
    step (mkSys db ws h)
         (mkSys (conn_db (update_scan_status (as_conn s db) scan_id "running"
                            (Some (progress_percent (Z.of_nat i + 1) total))))
                (set_worker ws s (Checking scan_id target total (S i) rest)) h)
| step_complete : forall s db ws h scan_id target total i,
    ws s = Checking scan_id target total i [] ->
    step (mkSys db ws h)
         (mkSys (conn_db (update_scan_status (as_conn s db) scan_id "completed" None))
                (set_worker ws s Idle) h)
| step_enqueue : forall db ws h r,
    job_status r = "queued" ->
    ~ In (job_id r) (map job_id (scan_jobs db)) ->
    step (mkSys db ws h) (mkSys (enqueue db r) ws h).

(** Runs of the pool. *)
Inductive steps : system -> system -> Prop :=
| steps_refl : forall sys, steps sys sys
| steps_snoc : forall sys sys' sys'', steps sys sys' -> step sys' sys'' -> steps sys sys''.

(** The pool before any worker has claimed anything: no transaction is
    open. *)
Definition initial (sys : system) : Prop :=
  (forall s, sys_workers sys s = Idle) /\
  row_locks (sys_db sys) = [] /\
  sys_handed sys = [].

(** What holds of every state the pool can reach. *)
Record consistent (sys : system) : Prop := mkConsistent {
  handed_settled : forall s j, In (s, j) (sys_handed sys) ->
    (forall r, In r (scan_jobs (sys_db sys)) -> job_id r = j ->
       job_status r <> "queued")
    \/ (exists d, sys_workers sys s = Claimed d /\ data_id d = j
                  /\ In (j, s) (row_locks (sys_db sys)));
  locks_claimed : forall j s, In (j, s) (row_locks (sys_db sys)) ->
    exists d, sys_workers sys s = Claimed d /\ data_id d = j;
  handed_once : NoDup (map snd (sys_handed sys));
  claimed_locked : forall s d, sys_workers sys s = Claimed d ->
    In (data_id d, s) (row_locks (sys_db sys));
  handed_known : forall s j, In (s, j) (sys_handed sys) ->
    In j (map job_id (scan_jobs (sys_db sys)))
}.

End Pool.

(** ** Observing a run

    What a client of the store sees of one job: its row, and the status and
    progress persisted by each commit of a run. *)

Definition find_job (db : database) (scan_id : string) : option scan_job :=
  find (fun r => String.eqb (job_id r) scan_id) (scan_jobs db).

Definition job_view (scan_id : string) (db : database) : option (string * Z) :=
  option_map (fun r => (job_status r, job_progress r)) (find_job db scan_id).

(** The snapshots a run added to a connection. *)
Definition new_commits (before after : connection) : list database :=
  skipn (List.length (conn_commits before)) (conn_commits after).

(** The persisted (status, progress) states of a job over a run. *)
Definition run_views (scan_id : string) (before after : connection)
    : list (option (string * Z)) :=
  map (job_view scan_id) (new_commits before after).

(** The row [process_scan] saves for a check result. *)
Definition result_row (scan_id check_name : string) (r : check_result) : scan_result :=
  mkScanResult scan_id check_name
               (dict_get (res_status r) "success")
               (dict_get (res_data r) (JDict []))
               (dict_get (res_findings r) 0)
               (dict_get (res_severity r) "info").

(** The rows a run of [process_scan]'s loop is expected to append: one per
    element of the check list, in order. *)
Fixpoint result_rows (world : nat -> adapters) (scan_id target : string)
    (i : nat) (checks : list string) : list scan_result :=
  match checks with
  | [] => []
  | check_name :: rest =>
      result_row scan_id check_name
                 (ScanWorker.execute_check (world i) check_name target)
      :: result_rows world scan_id target (S i) rest
  end.

(** The spec's progress formula, [round(100 * completed / total)], on exact
    rationals (ties to even, as Python's [round]). *)
Definition round_percent (completed total : Z) : Z :=
  Float64.rne (Qmult (inject_Z 100) (Qdiv (inject_Z completed) (inject_Z total))).

(** The states [process_scan]'s loop is expected to persist from iteration
    [i] on, when the job stands at [v]: after each check, the state as it
    was (the result row is saved) and then the new progress. *)
Fixpoint loop_views (v : string * Z) (total_checks : Z) (i : nat)
    (checks : list string) : list (option (string * Z)) :=
  match checks with
  | [] => []
  | _ :: rest =>
      let v' := ("running", progress_percent (Z.of_nat i + 1) total_checks) in
      Some v :: Some v' :: loop_views v' total_checks (S i) rest
  end.

(** The state the job stands at after that loop. *)
Definition loop_final (v : string * Z) (total_checks : Z) (i : nat)
    (checks : list string) : string * Z :=
  match checks with
  | [] => v
  | _ :: _ =>
      ("running",
       progress_percent (Z.of_nat (i + List.length checks)) total_checks)
  end.

(** The states [execute_scan]'s loop is expected to persist when the job
    stands at [v] with [completed_checks] checks done: an unknown name
    persists nothing. *)
Fixpoint task_loop_views (v : string * Z) (total_checks completed_checks : Z)
    (checks : list string) : list (option (string * Z)) :=
  match checks with
  | [] => []
  | check_name :: rest =>
      match lookup_check check_name with
      | None => task_loop_views v total_checks completed_checks rest
      | Some _ =>
          let v' := (fst v, progress_percent (completed_checks + 1) total_checks) in
          Some v :: Some v'
          :: task_loop_views v' total_checks (completed_checks + 1) rest
      end
  end.

Fixpoint task_loop_final (v : string * Z) (total_checks completed_checks : Z)
    (checks : list string) : (string * Z) * Z :=
  match checks with
  | [] => (v, completed_checks)
  | check_name :: rest =>
      match lookup_check check_name with
      | None => task_loop_final v total_checks completed_checks rest
      | Some _ =>
          task_loop_final
            (fst v, progress_percent (completed_checks + 1) total_checks)
            total_checks (completed_checks + 1) rest
      end
  end.

(** The progress values among persisted states. *)
Definition progress_values (views : list (option (string * Z))) : list Z :=
  flat_map (fun o => match o with Some v => [snd v] | None => [] end) views.

(** The progress persisted by the update that follows the [k]-th check
    ([k] from 1) of a run of [process_scan]: its commits are the start,
    then a result row and a progress update per check. *)
Definition polled_progress_after (scan_id : string) (before after : connection)
    (k : nat) : option Z :=
  option_map snd (nth (2 * k) (run_views scan_id before after) None).

(** The same for [execute_scan], whose run starts with two commits. *)
Definition task_progress_after (scan_id : string) (before after : connection)
    (k : nat) : option Z :=
  option_map snd (nth (2 * k + 1) (run_views scan_id before after) None).

(** Two connections of one session on one state of the database; they may
    differ in the snapshots they have recorded. *)
Definition same_store (c1 c2 : connection) : Prop :=
  conn_session c1 = conn_session c2 /\ conn_db c1 = conn_db c2.

(** ** Example data *)

Module Examples.

(** A queued job on a url, and one whose target row is missing. *)
Definition job_url_only : scan_job :=
  mkJob "job-1" None (Some "example.com") ["ping"; "headers"] None
        "queued" 0 10 None None None.

Definition job_no_target : scan_job :=
  mkJob "job-2" (Some "target-404") None ["ping"] None
        "queued" 0 20 None None None.

Definition job_three : scan_job :=
  mkJob "job-3" None (Some "example.com") ["ping"; "headers"; "ssl"] None
        "queued" 0 30 None None None.

Definition db0 : database :=
  mkDb [job_url_only; job_no_target; job_three] [] [] [] 1000.

Definition conn0 : connection := mkConn 1%nat db0 [].

(** Every adapter answers with a clean result. *)
Definition calm : nat -> adapters :=
  fun _ _ _ _ => Ok (mkResult (Some "success") (Some (JDict [])) (Some 0) (Some "info")).

(** A machine on which every subprocess times out. *)
Definition env_timeout : Checks.env :=
  Checks.mkEnv "Linux"
    (fun _ _ => Raise (TimeoutExpired "timed out"))
    (fun _ => Ok tt)
    (fun _ _ => None)
    (fun _ => Raise (ParseError "no element found"))
    (fun _ => true)
    (fun _ _ => Ok tt).

(** A machine on which every subprocess exits with the given code and
    output. *)
Definition env_exit (code : Z) (out : string) : Checks.env :=
  Checks.mkEnv "Linux"
    (fun _ _ => Ok (Checks.mkProc code out ""))
    (fun _ => Ok tt)
    (fun _ _ => None)
    (fun _ => Raise (ParseError "no element found"))
    (fun _ => true)
    (fun _ _ => Ok tt).

(** A pool of idle workers on [db0]. *)
Definition pool0 : Pool.system := Pool.mkSys db0 (fun _ => Pool.Idle) [].

End Examples.

(** * Further observations

    Definitions used by the further properties at the end of the file: what
    the executors leave alone, the rows they add, the workers of a pool and
    their jobs, the main loop of the polling worker, the payloads of two
    adapters and the timestamps of a job. *)

Local Open Scope list_scope.

(** ** What a run leaves alone *)

(** What a run on job [scan_id] may do to a row of [scan_jobs]: the
    identifying and descriptive columns stay, and a row of another job is
    not touched at all. *)
Definition job_frame (scan_id : string) (r r' : scan_job) : Prop :=
  job_id r' = job_id r
  /\ job_target_id r' = job_target_id r
  /\ job_url r' = job_url r
  /\ job_checks r' = job_checks r
  /\ job_organization_id r' = job_organization_id r
  /\ job_created_at r' = job_created_at r
  /\ (job_id r <> scan_id -> r' = r).

(** The result rows a run added. *)
Definition new_results (before after : connection) : list scan_result :=
  skipn (List.length (scan_results (conn_db before))) (scan_results (conn_db after)).

(** A run on job [scan_id] that keeps to its own job: other jobs and the
    targets are untouched, and the result table only grows, by rows of that
    job. *)
Definition run_frame (scan_id : string) (before after : connection) : Prop :=
  Forall2 (job_frame scan_id) (scan_jobs (conn_db before)) (scan_jobs (conn_db after))
  /\ targets (conn_db after) = targets (conn_db before)
  /\ scan_results (conn_db after)
     = scan_results (conn_db before) ++ new_results before after
  /\ Forall (fun row => sr_scan_id row = scan_id) (new_results before after).

(** The shape [run_frame] takes in proofs: the added rows are named. *)
Definition frame_by (scan_id : string) (before after : connection)
    (rows : list scan_result) : Prop :=
  Forall2 (job_frame scan_id) (scan_jobs (conn_db before)) (scan_jobs (conn_db after))
  /\ targets (conn_db after) = targets (conn_db before)
  /\ scan_results (conn_db after) = scan_results (conn_db before) ++ rows
  /\ Forall (fun row => sr_scan_id row = scan_id) rows.

(** ** The rows a run adds *)

(** Is the name a key of [check_functions]? *)
Definition registered (check_name : string) : bool :=
  match lookup_check check_name with
  | Some _ => true
  | None => false
  end.

(** The row [execute_scan] stores for a registered check. *)
Definition task_row (scan_id check_name : string) (outcome : res check_result)
    : scan_result :=
  match outcome with
  | Ok result =>
      mkScanResult scan_id check_name "success"
                   (dict_get (res_data result) (JDict []))
                   (dict_get (res_findings result) 0)
                   (dict_get (res_severity result) "info")
  | Raise e =>
      mkScanResult scan_id check_name "failed"
                   (JDict [("error", JStr (exn_str e))]) 0 "info"
  end.

(** The rows a run of [execute_scan]'s loop is expected to append. *)
Fixpoint task_result_rows (world : nat -> adapters) (scan_id target : string)
    (cfg : config) (k : nat) (checks : list string) : list scan_result :=
  match checks with
  | [] => []
  | check_name :: rest =>
      match lookup_check check_name with
      | None => task_result_rows world scan_id target cfg (S k) rest
      | Some c =>
          task_row scan_id check_name (world k c target cfg)
          :: task_result_rows world scan_id target cfg (S k) rest
      end
  end.

(** The contents of [scan_results] after each commit of [process_scan]'s
    loop: each row is committed, and is there at the progress update. *)
Fixpoint results_trace (base rows : list scan_result) : list (list scan_result) :=
  match rows with
  | [] => []
  | r :: rest => (base ++ [r]) :: (base ++ [r]) :: results_trace (base ++ [r]) rest
  end.

(** ** Severity levels *)

(** The ordered set of severity levels. *)
Definition SEVERITIES : list string := ["info"; "low"; "medium"; "high"].

(** The position of a severity in that order (4 for any other string). *)
Definition severity_rank (severity : string) : nat :=
  if String.eqb severity "info" then 0
  else if String.eqb severity "low" then 1
  else if String.eqb severity "medium" then 2
  else if String.eqb severity "high" then 3
  else 4.

(** ** Rounding *)

(** The unit roundoff of binary64, 2^-53. *)
Definition u64 : Q := (1 # 2 ^ 53)%Q.

(** ** Workers and their jobs *)

(** The job a worker is on, between its claim and its last commit. *)
Definition active_on (w : Pool.worker_state) : option string :=
  match w with
  | Pool.Idle => None
  | Pool.Claimed d => Some (ScanWorker.data_id d)
  | Pool.Checking scan_id _ _ _ _ => Some scan_id
  | Pool.Saved scan_id _ _ _ _ => Some scan_id
  end.

(** The status a worker expects of its job: still [queued] before its first
    commit, [running] after. *)
Definition expected_status (w : Pool.worker_state) : string :=
  match w with
  | Pool.Claimed _ => "queued"
  | _ => "running"
  end.

(** One step of the life of a job row: it stays as it is, or goes from
    [queued] to [running] or [failed], or from [running] to [running]
    (progress) or [completed]. *)
Definition job_step (r r' : scan_job) : Prop :=
  job_id r' = job_id r
  /\ (r' = r
      \/ (job_status r = "queued"
          /\ (job_status r' = "running" \/ job_status r' = "failed"))
      \/ (job_status r = "running"
          /\ (job_status r' = "running" \/ job_status r' = "completed"))).

(** What holds of the workers of every state the pool can reach from a
    table with a primary key. *)
Record owned (sys : Pool.system) : Prop := mkOwned {
  active_handed : forall s j,
    active_on (Pool.sys_workers sys s) = Some j -> In (s, j) (Pool.sys_handed sys);
  active_status : forall s j r,
    active_on (Pool.sys_workers sys s) = Some j ->
    In r (scan_jobs (Pool.sys_db sys)) -> job_id r = j ->
    job_status r = expected_status (Pool.sys_workers sys s);
  ids_unique : NoDup (map job_id (scan_jobs (Pool.sys_db sys)))
}.

(** ** The results of a job *)

(** [SELECT * FROM scan_results WHERE scan_id = %s], in insertion order. *)
Definition job_results (db : database) (scan_id : string) : list scan_result :=
  filter (fun row => String.eqb (sr_scan_id row) scan_id) (scan_results db).

(** The job a worker is running the checks of, and the checks it still has
    to run. *)
Definition pending (w : Pool.worker_state) : option (string * list string) :=
  match w with
  | Pool.Checking scan_id _ _ _ rest => Some (scan_id, rest)
  | Pool.Saved scan_id _ _ _ rest => Some (scan_id, rest)
  | _ => None
  end.

(** How the result rows of the jobs stand in a state of the pool. *)
Record results_kept (sys : Pool.system) : Prop := mkKept {
  kept_handed : forall row, In row (scan_results (Pool.sys_db sys)) ->
    In (sr_scan_id row) (map snd (Pool.sys_handed sys));
  kept_claimed : forall s d, Pool.sys_workers sys s = Pool.Claimed d ->
    job_results (Pool.sys_db sys) (ScanWorker.data_id d) = []
    /\ (forall r, In r (scan_jobs (Pool.sys_db sys)) ->
          job_id r = ScanWorker.data_id d -> d = ScanWorker.select_columns r);
  kept_pending : forall s j rest r,
    pending (Pool.sys_workers sys s) = Some (j, rest) ->
    In r (scan_jobs (Pool.sys_db sys)) -> job_id r = j ->
    map sr_check_type (job_results (Pool.sys_db sys) j) ++ rest = job_checks r;
  kept_done : forall s j r,
    In (s, j) (Pool.sys_handed sys) ->
    active_on (Pool.sys_workers sys s) <> Some j ->
    In r (scan_jobs (Pool.sys_db sys)) -> job_id r = j ->
    (job_status r = "completed"
     /\ map sr_check_type (job_results (Pool.sys_db sys) j) = job_checks r)
    \/ (job_status r = "failed" /\ job_results (Pool.sys_db sys) j = [])
}.

(** ** The worker's main loop *)

(** [conn.close()]: a transaction still open is rolled back and its row
    locks go. *)
Definition close (conn : connection) : database :=
  let db := conn_db conn in
  mkDb (scan_jobs db) (scan_results db) (targets db)
       (release_locks (conn_session conn) (row_locks db)) (clock db).

(** One turn of the [while True] loop of [main], by the worker of session
    [s]: a fresh connection, [get_queued_scans], [process_scan] when a row
    came back, [conn.close()]. *)
Definition main_iteration (world : nat -> adapters) (s : session) (db : database)
    : database :=
  let conn := Pool.as_conn s db in
  match ScanWorker.get_queued_scans conn with
  | (Some scan_data, conn) => close (ScanWorker.process_scan world conn scan_data)
  | (None, conn) => close conn
  end.

(** [n] turns of the loop, from turn [k] on; [world k] is what the adapters
    do during turn [k]. *)
Fixpoint main_loop (world : nat -> nat -> adapters) (s : session) (k n : nat)
    (db : database) : database :=
  match n with
  | O => db
  | S n' => main_loop world s (S k) n' (main_iteration (world k) s db)
  end.

(** The rows [WHERE status = 'queued'] selects. *)
Definition queued_jobs (db : database) : list scan_job :=
  filter (fun r => String.eqb (job_status r) "queued") (scan_jobs db).

(** What a turn of [main] that took job [r] leaves of a row [a]. *)
Definition settled_as (db : database) (r a a' : scan_job) : Prop :=
  if String.eqb (job_id a) (job_id r) then
    job_id a' = job_id a
    /\ match ScanWorker.resolve_target db (job_target_id r) (job_url r) with
       | Some _ => job_status a' = "completed" /\ job_progress a' = 100
       | None => job_status a' = "failed" /\ job_progress a' = job_progress a
       end
  else a' = a.

(** ** Payloads of the adapters *)

(** [l1] is [l2] with some elements left out. *)
Inductive subsequence {A : Type} : list A -> list A -> Prop :=
| sub_nil : subsequence [] []
| sub_skip : forall a l1 l2, subsequence l1 l2 -> subsequence l1 (a :: l2)
| sub_take : forall a l1 l2, subsequence l1 l2 -> subsequence (a :: l1) (a :: l2).

(** The number of values in the [records] dict of the dns adapter. *)
Fixpoint record_count (records : list (string * json)) : Z :=
  match records with
  | [] => 0
  | (_, JList values) :: rest => Z.of_nat (List.length values) + record_count rest
  | _ :: rest => record_count rest
  end.

(** An open port whose [portid] attribute [int()] accepts. *)
Definition portid_ok (port : Checks.element) : bool :=
  match Checks.port_entry port with
  | Ok _ => true
  | Raise _ => false
  end.

(** An nmap report with two open ports and a closed one. *)
Definition nmap_report : Checks.element :=
  let port (id state : string) :=
    Checks.Element "port" [("protocol", "tcp"); ("portid", id)]
      [Checks.Element "state" [("state", state)] [];
       Checks.Element "service" [("name", "http")] []] in
  Checks.Element "nmaprun" []
    [Checks.Element "host" []
       [Checks.Element "ports" [] [port "80" "open"; port "81" "closed";
                                  port "443" "open"]]].

(** A machine on which every subprocess exits with 0 and the XML parser
    returns [nmap_report]. *)
Definition env_nmap : Checks.env :=
  Checks.mkEnv "Linux"
    (fun _ _ => Ok (Checks.mkProc 0 "<nmaprun/>" ""))
    (fun _ => Ok tt)
    (fun _ _ => None)
    (fun _ => Ok nmap_report)
    (fun _ => true)
    (fun _ _ => Ok tt).

(** ** Lines of HTTP headers *)

(** The header name a line of curl's output carries: the text before its
    first colon, stripped; [None] for a line without a colon. *)
Definition line_key (line : string) : option string :=
  option_map (fun kv => PyStr.strip (fst kv)) (PyStr.split_once ":" line).

(** Some line of the output carries exactly the name [header]. *)
Definition names_header (header out : string) : bool :=
  existsb (fun line => match line_key line with
                       | Some key => String.eqb key header
                       | None => false
                       end)
          (PyStr.split "010" out).

(** A machine on which curl prints the headers of an HTTP/2 response, whose
    names are in lower case. *)
Definition env_http2 : Checks.env :=
  Checks.mkEnv "Linux"
    (fun _ _ =>
       Ok (Checks.mkProc 0
             ("HTTP/2 200" ++ String "010"
              ("strict-transport-security: max-age=31536000" ++ String "010"
               ("X-Frame-Options: DENY" ++ String "010" EmptyString)))%string
             EmptyString))
    (fun _ => Ok tt)
    (fun _ _ => None)
    (fun _ => Raise (ParseError "no element found"))
    (fun _ => true)
    (fun _ _ => Ok tt).

(** ** Timestamps *)

(** The [started_at] and [completed_at] a client reads of a job. *)
Definition job_times (scan_id : string) (db : database) : option (option Z * option Z) :=
  option_map (fun r => (job_started_at r, job_completed_at r)) (find_job db scan_id).

(** * Properties *)

Local Open Scope list_scope.

(** ** Float arithmetic and the progress percentage *)

Module Float64Facts.
Import Float64.
Local Open Scope Q_scope.

Lemma rne_range x : (Qfloor x <= rne x <= Qfloor x + 1)%Z.
Proof.
  unfold rne. destruct (Qcompare _ _); try destruct (Z.even _); lia.
Qed.

Lemma rne_inject (z : Z) : rne (inject_Z z) = z.
Proof.
  unfold rne. rewrite Qfloor_Z.
  destruct (Qcompare_spec (inject_Z z - inject_Z z) (1 # 2)) as [H|H|H]; try lra; reflexivity.
Qed.

Lemma rne_mono x y : x <= y -> (rne x <= rne y)%Z.
Proof.
  intros Hxy.
  pose proof (Qfloor_resp_le _ _ Hxy) as Hf.
  destruct (Z.eq_dec (Qfloor x) (Qfloor y)) as [E|N].
  - unfold rne. rewrite <- E.
    destruct (Qcompare_spec (x - inject_Z (Qfloor x)) (1 # 2)) as [H|H|H];
    destruct (Qcompare_spec (y - inject_Z (Qfloor x)) (1 # 2)) as [H'|H'|H'];
    try destruct (Z.even _); try lia; lra.
  - pose proof (rne_range x). pose proof (rne_range y). lia.
Qed.

Lemma pow2_pos (e : Z) : 0 < 2 ^ e.
Proof. apply Qpower_0_lt. reflexivity. Qed.

Lemma pow2_plus (a b : Z) : 2 ^ (a + b) == 2 ^ a * 2 ^ b.
Proof. apply Qpower_plus. discriminate. Qed.

Lemma pow2_succ (a : Z) : 2 ^ (a + 1) == 2 * 2 ^ a.
Proof. rewrite pow2_plus. change (2 ^ 1) with 2. ring. Qed.

Lemma pow2_le (a b : Z) : (a <= b)%Z -> 2 ^ a <= 2 ^ b.
Proof. intros. apply Qpower_le_compat_l; [assumption | discriminate]. Qed.

Lemma pow2_lt_inv (a b : Z) : 2 ^ a < 2 ^ b -> (a < b)%Z.
Proof. intros. apply (Qpower_lt_compat_l_inv 2); [assumption | reflexivity]. Qed.

Lemma pow2_log2 (n : Z) : (0 < n)%Z ->
  2 ^ Z.log2 n <= inject_Z n /\ inject_Z n < 2 * 2 ^ Z.log2 n.
Proof.
  intros Hn. destruct (Z.log2_spec n Hn) as [Hlo Hhi].
  pose proof (Z.log2_nonneg n) as Hnn.
  rewrite <- pow2_succ.
  change 2 with (inject_Z 2).
  rewrite <- !Zpower_Qpower by lia.
  rewrite <- Zle_Qle, <- Zlt_Qlt. split; [exact Hlo|].
  now rewrite <- Z.add_1_r in Hhi.
Qed.

Lemma Qdiv_lt_cross (a b c d : Q) :
  0 < b -> 0 < d -> a * d < c * b -> a / b < c / d.
Proof.
  intros Hb Hd H.
  apply Qlt_shift_div_l; [assumption|].
  setoid_replace (a / b * d) with ((a * d) / b) by (field; lra).
  apply Qlt_shift_div_r; assumption.
Qed.

Lemma ratio_bounds (N D PN PD : Q) :
  0 < PN -> 0 < PD -> PN <= N -> N < 2 * PN -> PD <= D -> D < 2 * PD ->
  (PN / PD) / 2 < N / D /\ N / D < 2 * (PN / PD).
Proof.
  intros. assert (0 < D) by lra. assert (0 < N) by lra.
  split.
  - setoid_replace (PN / PD / 2) with (PN / (PD * 2)) by (field; lra).
    apply Qdiv_lt_cross; [lra | assumption | nra].
  - setoid_replace (2 * (PN / PD)) with ((2 * PN) / PD) by (field; lra).
    apply Qdiv_lt_cross; [assumption | assumption | nra].
Qed.

Lemma pow2_pred (a : Z) : 2 ^ (a - 1) == 2 ^ a / 2.
Proof.
  rewrite Qpower_minus by discriminate. reflexivity.
Qed.

Lemma ilog2_spec (x : Q) : 0 < x -> 2 ^ ilog2 x <= x /\ x < 2 ^ (ilog2 x + 1).
Proof.
  destruct x as [n d]. intros Hx.
  assert (Hn : (0 < n)%Z).
  { unfold Qlt in Hx. simpl in Hx. lia. }
  unfold ilog2. cbn [Qnum Qden].
  set (s := (Z.log2 n - Z.log2 (Z.pos d))%Z).
  destruct (pow2_log2 n Hn) as [Hn1 Hn2].
  destruct (pow2_log2 (Z.pos d) eq_refl) as [Hd1 Hd2].
  destruct (ratio_bounds _ _ _ _ (pow2_pos _) (pow2_pos _) Hn1 Hn2 Hd1 Hd2)
    as [Hlo Hhi].
  rewrite <- Qpower_minus in Hlo, Hhi by discriminate.
  rewrite <- Qmake_Qdiv in Hlo, Hhi. fold s in Hlo, Hhi.
  destruct (Qle_bool (2 ^ s) (n # d)) eqn:E.
  - apply Qle_bool_iff in E. split; [assumption|].
    rewrite pow2_succ. assumption.
  - assert (Hlt : n # d < 2 ^ s).
    { apply Qnot_le_lt. intros C. apply Qle_bool_iff in C. congruence. }
    replace (s - 1 + 1)%Z with s by ring.
    split; [|assumption].
    rewrite pow2_pred. apply Qlt_le_weak. assumption.
Qed.

Lemma ilog2_mono (x y : Q) : 0 < x -> x <= y -> (ilog2 x <= ilog2 y)%Z.
Proof.
  intros Hx Hxy.
  destruct (ilog2_spec x Hx) as [Hx1 _].
  destruct (ilog2_spec y) as [_ Hy2]; [lra|].
  assert (H : 2 ^ ilog2 x < 2 ^ (ilog2 y + 1)) by lra.
  apply pow2_lt_inv in H. lia.
Qed.

(** The scaled significand lies in [2^52, 2^53). *)
Lemma scaled_range (x : Q) : 0 < x ->
  inject_Z (2 ^ 52) <= x / 2 ^ (ilog2 x - (prec - 1)) /\
  x / 2 ^ (ilog2 x - (prec - 1)) < inject_Z (2 ^ 53).
Proof.
  intros Hx. destruct (ilog2_spec x Hx) as [Hlo Hhi].
  set (e := (ilog2 x - (prec - 1))%Z).
  assert (E1 : 2 ^ ilog2 x == inject_Z (2 ^ 52) * 2 ^ e).
  { replace (ilog2 x) with (52 + e)%Z at 1 by (unfold e, prec; ring).
    rewrite pow2_plus. reflexivity. }
  assert (E2 : 2 ^ (ilog2 x + 1) == inject_Z (2 ^ 53) * 2 ^ e).
  { replace (ilog2 x + 1)%Z with (53 + e)%Z by (unfold e, prec; ring).
    rewrite pow2_plus. reflexivity. }
  pose proof (pow2_pos e) as He.
  split.
  - apply Qle_shift_div_l; [assumption|]. rewrite <- E1. assumption.
  - apply Qlt_shift_div_r; [assumption|]. rewrite <- E2. assumption.
Qed.

Lemma significand_range (x : Q) : 0 < x ->
  (2 ^ 52 <= rne (x / 2 ^ (ilog2 x - (prec - 1))) <= 2 ^ 53)%Z.
Proof.
  intros Hx. destruct (scaled_range x Hx) as [Hlo Hhi].
  split.
  - rewrite <- (rne_inject (2 ^ 52)). apply rne_mono. assumption.
  - rewrite <- (rne_inject (2 ^ 53)). apply rne_mono. apply Qlt_le_weak. assumption.
Qed.

Lemma round_pos_pos (x : Q) : 0 < x -> 0 < round_pos x.
Proof.
  intros Hx. unfold round_pos. cbv zeta.
  apply Qmult_lt_0_compat; [|apply pow2_pos].
  destruct (significand_range x Hx) as [H _].
  change 0 with (inject_Z 0). rewrite <- Zlt_Qlt. lia.
Qed.

Lemma round_pos_mono (x y : Q) : 0 < x -> x <= y -> round_pos x <= round_pos y.
Proof.
  intros Hx Hxy. assert (Hy : 0 < y) by lra.
  pose proof (ilog2_mono x y Hx Hxy) as Hl.
  pose proof (significand_range x Hx) as [_ Hmx].
  pose proof (significand_range y Hy) as [Hmy _].
  unfold round_pos. cbv zeta.
  remember (ilog2 x - (prec - 1))%Z as ex eqn:Hex.
  remember (ilog2 y - (prec - 1))%Z as ey eqn:Hey.
  destruct (Z.eq_dec ex ey) as [E|N].
  - rewrite <- E. apply Qmult_le_compat_r; [|apply Qlt_le_weak, pow2_pos].
    rewrite <- Zle_Qle. apply rne_mono.
    apply Qmult_le_compat_r; [assumption|].
    apply Qlt_le_weak, Qinv_lt_0_compat, pow2_pos.
  - assert (Hlt : (ex + 1 <= ey)%Z) by lia.
    apply Qle_trans with (inject_Z (2 ^ 53) * 2 ^ ex).
    { apply Qmult_le_compat_r; [|apply Qlt_le_weak, pow2_pos].
      rewrite <- Zle_Qle. assumption. }
    apply Qle_trans with (inject_Z (2 ^ 52) * 2 ^ ey).
    { apply Qle_trans with (inject_Z (2 ^ 52) * 2 ^ (ex + 1)).
      - rewrite pow2_succ.
        setoid_replace (inject_Z (2 ^ 52) * (2 * 2 ^ ex))
          with (inject_Z (2 ^ 53) * 2 ^ ex); [apply Qle_refl|].
        change (inject_Z (2 ^ 53)) with (inject_Z (2 * 2 ^ 52)).
        rewrite inject_Z_mult. ring.
      - apply Qmult_le_l; [reflexivity|]. apply pow2_le. assumption. }
    apply Qmult_le_compat_r; [|apply Qlt_le_weak, pow2_pos].
    rewrite <- Zle_Qle. assumption.
Qed.

Lemma round64_pos (x : Q) : 0 < x -> round64 x = round_pos x.
Proof.
  intros Hx. unfold round64.
  replace (Qcompare x 0) with Gt; [reflexivity|].
  symmetry. apply Qgt_alt. assumption.
Qed.

Lemma round64_gt_0 (x : Q) : 0 < x -> 0 < round64 x.
Proof. intros Hx. rewrite round64_pos by assumption. now apply round_pos_pos. Qed.

Lemma round64_mono (x y : Q) : 0 < x -> x <= y -> round64 x <= round64 y.
Proof.
  intros Hx Hxy. rewrite !round64_pos by lra. now apply round_pos_mono.
Qed.

(** Rounding depends on the value only, not on the fraction that denotes it. *)
Lemma round64_comp (x y : Q) : 0 < x -> x == y -> round64 x == round64 y.
Proof.
  intros Hx E. apply Qle_antisym; apply round64_mono; lra.
Qed.

Lemma to_int_nonneg (x : Q) : 0 <= x -> to_int x = Qfloor x.
Proof.
  intros Hx. unfold to_int.
  replace (Qle_bool 0 x) with true; [reflexivity|].
  symmetry. apply Qle_bool_iff. assumption.
Qed.

Lemma of_int_100 : of_int 100 == 100.
Proof. vm_compute. reflexivity. Qed.

Lemma round64_1 : round64 1 == 1.
Proof. vm_compute. reflexivity. Qed.

Lemma round64_100 : round64 100 == 100.
Proof. vm_compute. reflexivity. Qed.

Lemma truediv_gt_0 (a b : Z) : (0 < a)%Z -> (0 < b)%Z -> 0 < inject_Z a / inject_Z b.
Proof.
  intros Ha Hb. apply Qlt_shift_div_l.
  - change 0 with (inject_Z 0). rewrite <- Zlt_Qlt. assumption.
  - rewrite Qmult_0_l. change 0 with (inject_Z 0). rewrite <- Zlt_Qlt. assumption.
Qed.

End Float64Facts.

Import Float64 Float64Facts.

Local Close Scope Q_scope.

(** The persisted progress grows with the number of checks done. *)
Lemma progress_percent_mono (k k' total : Z) :
  (0 < k)%Z -> (k <= k')%Z -> (0 < total)%Z ->
  (progress_percent k total <= progress_percent k' total)%Z.
Proof.
  intros Hk Hkk HT. unfold progress_percent, mul, truediv.
  assert (HT' : (0 < inject_Z total)%Q).
  { change 0%Q with (inject_Z 0). rewrite <- Zlt_Qlt. assumption. }
  pose proof (truediv_gt_0 k total Hk HT) as Hq.
  assert (Hqq : (inject_Z k / inject_Z total <= inject_Z k' / inject_Z total)%Q).
  { apply Qmult_le_compat_r.
    - rewrite <- Zle_Qle. assumption.
    - apply Qlt_le_weak, Qinv_lt_0_compat. assumption. }
  pose proof (round64_gt_0 _ Hq) as Hr.
  pose proof (round64_mono _ _ Hq Hqq) as Hrr.
  pose proof of_int_100 as Hc.
  set (c := of_int 100) in *.
  set (q := round64 (inject_Z k / inject_Z total)) in *.
  set (q' := round64 (inject_Z k' / inject_Z total)) in *.
  assert (Hp : (0 < q * c)%Q) by (rewrite Hc; lra).
  assert (Hpp : (q * c <= q' * c)%Q) by (rewrite Hc; lra).
  pose proof (round64_gt_0 _ Hp) as H1.
  pose proof (round64_mono _ _ Hp Hpp) as H2.
  rewrite !to_int_nonneg by lra.
  apply Qfloor_resp_le. assumption.
Qed.

(** When all checks are done it is exactly 100: [total / total] is 1.0. *)
Lemma progress_percent_full (total : Z) :
  (0 < total)%Z -> progress_percent total total = 100%Z.
Proof.
  intros HT. unfold progress_percent, mul, truediv.
  pose proof (truediv_gt_0 total total HT HT) as Hq.
  assert (E1 : (inject_Z total / inject_Z total == 1)%Q).
  { apply Qmult_inv_r. intros C.
    assert (0 < inject_Z total)%Q
      by (change 0%Q with (inject_Z 0); rewrite <- Zlt_Qlt; assumption).
    lra. }
  pose proof (round64_comp _ _ Hq E1) as E2. rewrite round64_1 in E2.
  pose proof of_int_100 as Hc.
  set (c := of_int 100) in *.
  set (q := round64 (inject_Z total / inject_Z total)) in *.
  assert (E3 : (q * c == 100)%Q) by (rewrite E2, Hc; reflexivity).
  assert (Hp : (0 < q * c)%Q) by (rewrite E3; reflexivity).
  pose proof (round64_comp _ _ Hp E3) as E4. rewrite round64_100 in E4.
  rewrite to_int_nonneg by (rewrite E4; discriminate).
  rewrite E4. reflexivity.
Qed.

Lemma progress_percent_nonneg (k total : Z) :
  (0 < k)%Z -> (0 < total)%Z -> (0 <= progress_percent k total)%Z.
Proof.
  intros Hk HT. unfold progress_percent, mul, truediv.
  pose proof (round64_gt_0 _ (truediv_gt_0 k total Hk HT)) as Hr.
  pose proof of_int_100 as Hc.
  set (c := of_int 100) in *.
  set (q := round64 (inject_Z k / inject_Z total)) in *.
  assert (Hp : (0 < q * c)%Q) by (rewrite Hc; lra).
  pose proof (round64_gt_0 _ Hp) as H1.
  rewrite to_int_nonneg by lra.
  change 0%Z with (Qfloor 0). apply Qfloor_resp_le. lra.
Qed.

(** The rational model of binary64 and [SpecFloat] compute the same
    progress for every job of up to 100 checks. *)
Lemma progress_percent_agrees_with_SpecFloat : agree_upto 100 = true.
Proof. vm_compute. reflexivity. Qed.

(** The float product is not the exact quotient: [29 / 100 * 100] is
    28.999999999999996, so 29 checks of 100 persist 28; and 2 of 3 persist
    66 where rounding would give 67. *)
Lemma progress_percent_examples :
  progress_percent 29 100 = 28
  /\ progress_percent 2 3 = 66 /\ round_percent 2 3 = 67
  /\ progress_percent 1 2 = 50 /\ progress_percent 2 2 = 100.
Proof. vm_compute. repeat split; reflexivity. Qed.

(** ** Commits and updates *)

Section StoreFacts.

Variable conn : connection.
Variable scan_id : string.

Lemma commit_commits (c : connection) :
  conn_commits (commit c) = conn_commits c ++ [conn_db (commit c)].
Proof. reflexivity. Qed.

Lemma find_update_where_id (set : scan_job -> scan_job) (rows : list scan_job) :
  (forall r, job_id (set r) = job_id r) ->
  find (fun r => String.eqb (job_id r) scan_id) (update_where_id scan_id set rows)
  = option_map set (find (fun r => String.eqb (job_id r) scan_id) rows).
Proof.
  intros Hid. induction rows as [|r rows IH]; [reflexivity|].
  cbn [update_where_id map find].
  destruct (String.eqb (job_id r) scan_id) eqn:E.
  - rewrite Hid, E. reflexivity.
  - rewrite E. exact IH.
Qed.

Lemma view_after_jobs (set : scan_job -> scan_job) :
  (forall r, job_id (set r) = job_id r) ->
  job_view scan_id
    (conn_db (commit (with_jobs conn (update_where_id scan_id set (scan_jobs (conn_db conn))))))
  = option_map (fun r => (job_status (set r), job_progress (set r)))
               (find_job (conn_db conn) scan_id).
Proof.
  intros Hid. unfold job_view, find_job. cbn.
  rewrite find_update_where_id by assumption.
  destruct (find _ _); reflexivity.
Qed.

Lemma view_running (p : Z) (v : string * Z) :
  job_view scan_id (conn_db conn) = Some v ->
  job_view scan_id
    (conn_db (ScanWorker.update_scan_status conn scan_id "running" (Some p)))
  = Some ("running", p).
Proof.
  intros Hv. unfold ScanWorker.update_scan_status. cbn [String.eqb Ascii.eqb Bool.eqb].
  rewrite view_after_jobs by reflexivity.
  unfold job_view in Hv. destruct (find_job _ _); [reflexivity|discriminate].
Qed.

Lemma view_completed (v : string * Z) :
  job_view scan_id (conn_db conn) = Some v ->
  job_view scan_id
    (conn_db (ScanWorker.update_scan_status conn scan_id "completed" None))
  = Some ("completed", 100).
Proof.
  intros Hv. unfold ScanWorker.update_scan_status. cbn [String.eqb Ascii.eqb Bool.eqb].
  rewrite view_after_jobs by reflexivity.
  unfold job_view in Hv. destruct (find_job _ _); [reflexivity|discriminate].
Qed.

Lemma view_failed (v : string * Z) (progress : option Z) :
  job_view scan_id (conn_db conn) = Some v ->
  job_view scan_id
    (conn_db (ScanWorker.update_scan_status conn scan_id "failed" progress))
  = Some ("failed", snd v).
Proof.
  intros Hv. unfold ScanWorker.update_scan_status. cbn [String.eqb Ascii.eqb Bool.eqb].
  rewrite view_after_jobs by reflexivity.
  unfold job_view in Hv. destruct (find_job _ _); [|discriminate].
  inversion Hv. reflexivity.
Qed.

Lemma view_save (check_type status : string) (data : json) (findings : Z)
    (severity : string) :
  job_view scan_id
    (conn_db (ScanWorker.save_scan_result conn scan_id check_type status data
                findings severity))
  = job_view scan_id (conn_db conn).
Proof. reflexivity. Qed.

Lemma update_scan_status_commits (status : string) (progress : option Z) :
  conn_commits (ScanWorker.update_scan_status conn scan_id status progress)
  = conn_commits conn
    ++ [conn_db (ScanWorker.update_scan_status conn scan_id status progress)].
Proof. reflexivity. Qed.

Lemma update_scan_status_results (status : string) (progress : option Z) :
  scan_results (conn_db (ScanWorker.update_scan_status conn scan_id status progress))
  = scan_results (conn_db conn).
Proof. reflexivity. Qed.

End StoreFacts.

(** ** The polling worker's executor *)

Section ProcessScan.

Import ScanWorker.

Variable world : nat -> adapters.
Variables scan_id target : string.
Variable total_checks : Z.

Lemma skipn_app_exact {A : Type} (l extra : list A) :
  skipn (List.length l) (l ++ extra) = extra.
Proof. induction l; [reflexivity | assumption]. Qed.

Lemma run_checks_results (checks : list string) : forall conn i,
  scan_results (conn_db (run_checks world conn scan_id target total_checks i checks))
  = scan_results (conn_db conn) ++ result_rows world scan_id target i checks.
Proof.
  induction checks as [|c rest IH]; intros conn i; cbn [run_checks result_rows].
  - now rewrite app_nil_r.
  - rewrite IH. rewrite update_scan_status_results. cbn.
    now rewrite <- app_assoc.
Qed.

Lemma run_checks_views (checks : list string) : forall conn i v,
  job_view scan_id (conn_db conn) = Some v ->
  exists extra,
    conn_commits (run_checks world conn scan_id target total_checks i checks)
    = conn_commits conn ++ extra
    /\ map (job_view scan_id) extra = loop_views v total_checks i checks
    /\ job_view scan_id
         (conn_db (run_checks world conn scan_id target total_checks i checks))
       = Some (loop_final v total_checks i checks).
Proof.
  induction checks as [|c rest IH]; intros conn i v Hv.
  - exists []. cbn. rewrite app_nil_r. auto.
  - cbn [run_checks].
    set (r := execute_check (world i) c target).
    set (c1 := save_scan_result conn scan_id c _ _ _ _).
    set (c2 := update_scan_status c1 scan_id "running" _).
    assert (H1 : job_view scan_id (conn_db c1) = Some v) by exact Hv.
    assert (H2 : job_view scan_id (conn_db c2)
                 = Some ("running", progress_percent (Z.of_nat i + 1) total_checks))
      by (apply (view_running c1 scan_id _ v); exact H1).
    destruct (IH c2 (S i) _ H2) as (extra & Hc & Hm & Hf).
    exists (conn_db c1 :: conn_db c2 :: extra). repeat split.
    + rewrite Hc. unfold c2. rewrite update_scan_status_commits. fold c2.
      unfold c1 at 1. unfold save_scan_result. rewrite commit_commits.
      fold (save_scan_result conn scan_id c
              (dict_get (res_status r) "success") (dict_get (res_data r) (JDict []))
              (dict_get (res_findings r) 0) (dict_get (res_severity r) "info")).
      fold c1. rewrite <- !app_assoc. reflexivity.
    + cbn [map loop_views]. rewrite H1, H2, Hm. reflexivity.
    + rewrite Hf. unfold loop_final. cbn [List.length].
      destruct rest as [|c' rest'].
      * cbn [List.length]. do 3 f_equal. lia.
      * do 3 f_equal. cbn [List.length]. lia.
Qed.

End ProcessScan.

Section ProcessScanRun.

Import ScanWorker.

Variable world : nat -> adapters.
Variable conn : connection.
Variables (scan_id : string) (target_id url : option string)
          (checks : list string) (org_id : option string).

Let data : scan_data := (scan_id, target_id, url, checks, org_id).

(** A run on a resolved target: the rows appended, the states persisted, and
    the state the job ends in. *)
Lemma process_scan_resolved (target : string) (v : string * Z) :
  resolve_target (conn_db conn) target_id url = Some target ->
  job_view scan_id (conn_db conn) = Some v ->
  let conn' := process_scan world conn data in
  scan_results (conn_db conn')
  = scan_results (conn_db conn) ++ result_rows world scan_id target 0 checks
  /\ run_views scan_id conn conn'
     = Some ("running", 0)
       :: loop_views ("running", 0) (Z.of_nat (List.length checks)) 0 checks
       ++ [Some ("completed", 100)]
  /\ job_view scan_id (conn_db conn') = Some ("completed", 100).
Proof.
  intros Hres Hv. unfold data. cbn [process_scan]. rewrite Hres.
  set (c1 := update_scan_status conn scan_id "running" (Some 0)).
  set (T := Z.of_nat (List.length checks)).
  assert (H1 : job_view scan_id (conn_db c1) = Some ("running", 0))
    by (apply (view_running conn scan_id 0 v); exact Hv).
  destruct (run_checks_views world scan_id target T checks c1 0%nat _ H1)
    as (extra & Hc & Hm & Hf).
  set (c2 := run_checks world c1 scan_id target T 0 checks) in *.
  cbv zeta. repeat split.
  - rewrite update_scan_status_results. unfold c2.
    rewrite run_checks_results. reflexivity.
  - unfold run_views, new_commits.
    rewrite update_scan_status_commits, Hc.
    unfold c1 at 1. rewrite update_scan_status_commits. fold c1.
    rewrite <- !app_assoc. rewrite skipn_app_exact.
    cbn [app map]. rewrite map_app. cbn [map].
    rewrite H1, Hm. f_equal. f_equal. f_equal.
    apply (view_completed c2 scan_id _ Hf).
  - apply (view_completed c2 scan_id _ Hf).
Qed.

End ProcessScanRun.

(** ** Status updates (C10) *)

(** C10.  [update_scan_status(conn, scan_id, 'failed')] changes nothing but
    the status and the completed-at time of the rows of that job: every
    other field, the progress included, and every other row and table keep
    their values; with ['completed'] the rows of the job get progress 100. *)
Theorem update_scan_status_failed_frame (conn : connection) (scan_id : string)
    (progress : option Z) :
  let db := conn_db conn in
  let db' := conn_db (ScanWorker.update_scan_status conn scan_id "failed" progress) in
  let done := conn_db (ScanWorker.update_scan_status conn scan_id "completed" progress) in
  Forall2
    (fun r r' =>
       job_id r' = job_id r
       /\ job_target_id r' = job_target_id r
       /\ job_url r' = job_url r
       /\ job_checks r' = job_checks r
       /\ job_organization_id r' = job_organization_id r
       /\ job_progress r' = job_progress r
       /\ job_created_at r' = job_created_at r
       /\ job_started_at r' = job_started_at r
       /\ job_updated_at r' = job_updated_at r
       /\ (job_id r = scan_id ->
           job_status r' = "failed" /\ job_completed_at r' = Some (clock db))
       /\ (job_id r <> scan_id -> r' = r))
    (scan_jobs db) (scan_jobs db')
  /\ scan_results db' = scan_results db
  /\ targets db' = targets db
  /\ Forall
       (fun r' =>
          job_id r' = scan_id ->
          job_status r' = "completed" /\ job_progress r' = 100)
       (scan_jobs done).
Proof.
  cbv zeta. unfold ScanWorker.update_scan_status.
  cbn [String.eqb Ascii.eqb Bool.eqb commit with_jobs conn_db scan_jobs
       scan_results targets].
  repeat split.
  - induction (scan_jobs (conn_db conn)) as [|r rows IH]; cbn [update_where_id map].
    + constructor.
    + constructor; [|exact IH].
      destruct (String.eqb_spec (job_id r) scan_id) as [E|N].
      * cbn. repeat split; try reflexivity; congruence.
      * repeat split; try reflexivity; congruence.
  - induction (scan_jobs (conn_db conn)) as [|r rows IH]; cbn [update_where_id map].
    + constructor.
    + constructor; [|exact IH].
      destruct (String.eqb_spec (job_id r) scan_id) as [E|N].
      * intros _. split; reflexivity.
      * intros C. contradiction.
Qed.

(** ** Unresolvable targets (C9) *)

(** C9.  When the target of a job cannot be resolved (no url and no target
    row), [process_scan] does one thing: it commits the status [failed] and
    returns.  No result row is written, no adapter is consulted (the run is
    the same whatever the adapters would do), and the only state persisted
    for the job is [failed], never [running]. *)
Theorem process_scan_unresolved_target (world : nat -> adapters) (conn : connection)
    (scan_id : string) (target_id url : option string) (checks : list string)
    (org_id : option string) :
  ScanWorker.resolve_target (conn_db conn) target_id url = None ->
  let conn' :=
    ScanWorker.process_scan world conn (scan_id, target_id, url, checks, org_id) in
  conn' = ScanWorker.update_scan_status conn scan_id "failed" None
  /\ scan_results (conn_db conn') = scan_results (conn_db conn)
  /\ new_commits conn conn' = [conn_db conn']
  /\ (forall v, job_view scan_id (conn_db conn) = Some v ->
      run_views scan_id conn conn' = [Some ("failed", snd v)])
  /\ (forall world',
      ScanWorker.process_scan world' conn (scan_id, target_id, url, checks, org_id)
      = conn').
Proof.
  intros Hres. cbn [ScanWorker.process_scan]. rewrite Hres. cbv zeta.
  repeat split.
  - unfold new_commits. rewrite update_scan_status_commits.
    apply skipn_app_exact.
  - intros v Hv. unfold run_views, new_commits.
    rewrite update_scan_status_commits, skipn_app_exact. cbn [map].
    now rewrite (view_failed conn scan_id v None Hv).
Qed.

Lemma process_scan_unresolved_target_witness :
  let conn' :=
    ScanWorker.process_scan Examples.calm Examples.conn0
      ("job-2", Some "target-404", None, ["ping"], None) in
  scan_results (conn_db conn') = []
  /\ run_views "job-2" Examples.conn0 conn' = [Some ("failed", 0)].
Proof.
  pose proof (process_scan_unresolved_target Examples.calm Examples.conn0
                "job-2" (Some "target-404") None ["ping"] None eq_refl)
    as (_ & Hr & _ & Hv & _).
  split; [exact Hr | exact (Hv _ eq_refl)].
Defined.

(** ** One result per check (C2) *)

Section OneResultPerCheck.

Variable world : nat -> adapters.
Variables scan_id target : string.

Lemma result_rows_check_types (checks : list string) : forall i,
  map sr_check_type (result_rows world scan_id target i checks) = checks.
Proof.
  induction checks as [|c rest IH]; intros i; cbn; [reflexivity|].
  now rewrite IH.
Qed.

Lemma result_rows_scan_id (checks : list string) : forall i,
  Forall (fun row => sr_scan_id row = scan_id)
         (result_rows world scan_id target i checks).
Proof.
  induction checks as [|c rest IH]; intros i; cbn; constructor; auto.
Qed.

(** The row of an element whose name is not in [check_map]. *)
Lemma result_row_unknown (fns : adapters) (check_name : string) :
  lookup_check check_name = None ->
  let row := result_row scan_id check_name
               (ScanWorker.execute_check fns check_name target) in
  sr_status row = "error" /\ sr_findings row = 0 /\ sr_severity row = "info".
Proof.
  intros Hn. unfold ScanWorker.execute_check. rewrite Hn. cbn. auto.
Qed.

Lemma result_rows_unknown (checks : list string) : forall i,
  Forall (fun row =>
            lookup_check (sr_check_type row) = None ->
            sr_status row = "error" /\ sr_findings row = 0 /\ sr_severity row = "info")
         (result_rows world scan_id target i checks).
Proof.
  induction checks as [|c rest IH]; intros i; cbn [result_rows]; constructor; auto.
  intros Hn. cbn [sr_check_type result_row] in Hn.
  exact (result_row_unknown (world i) c Hn).
Qed.

End OneResultPerCheck.

(** The polling worker keeps the property: on a resolved target
    [process_scan] appends exactly one row per element of the check list,
    in list order, an unknown name gives an [error] row with 0 findings and
    severity [info], and the job ends [completed]. *)
Lemma process_scan_one_result_per_check (world : nat -> adapters) (conn : connection)
    (scan_id : string) (target_id url : option string) (checks : list string)
    (org_id : option string) (target : string) (v : string * Z) :
  ScanWorker.resolve_target (conn_db conn) target_id url = Some target ->
  job_view scan_id (conn_db conn) = Some v ->
  let conn' :=
    ScanWorker.process_scan world conn (scan_id, target_id, url, checks, org_id) in
  exists rows,
    scan_results (conn_db conn') = scan_results (conn_db conn) ++ rows
    /\ map sr_check_type rows = checks
    /\ Forall (fun row => sr_scan_id row = scan_id) rows
    /\ Forall (fun row =>
                 lookup_check (sr_check_type row) = None ->
                 sr_status row = "error" /\ sr_findings row = 0
                 /\ sr_severity row = "info") rows
    /\ job_view scan_id (conn_db conn') = Some ("completed", 100).
Proof.
  intros Hres Hv.
  destruct (process_scan_resolved world conn scan_id target_id url checks org_id
              target v Hres Hv) as (Hrows & _ & Hfinal).
  exists (result_rows world scan_id target 0 checks). repeat split.
  - exact Hrows.
  - apply result_rows_check_types.
  - apply result_rows_scan_id.
  - apply result_rows_unknown.
  - exact Hfinal.
Qed.

(** C2.  The Celery task breaks the property: on the check list
    [["unknown_check"; "ping"]] [execute_scan] writes a single row, for
    [ping]; the unknown name is skipped without a row (and without a
    progress update), where [process_scan] on the same list writes two rows,
    the first one [error] / 0 / [info].  Both runs end [completed]. *)
Theorem execute_scan_skips_unknown_check :
  let checks := ["unknown_check"; "ping"] in
  let task :=
    CeleryTask.execute_scan Examples.calm Examples.conn0 "job-1" "example.com"
                            checks [] in
  let polled :=
    ScanWorker.process_scan Examples.calm Examples.conn0
                            ("job-1", None, Some "example.com", checks, None) in
  map sr_check_type (scan_results (conn_db (fst task))) = ["ping"]
  /\ CeleryTask.sum_checks_completed (snd task) = 1
  /\ job_view "job-1" (conn_db (fst task)) = Some ("completed", 100)
  /\ map (fun row => (sr_check_type row, sr_status row, sr_findings row, sr_severity row))
         (scan_results (conn_db polled))
     = [("unknown_check", "error", 0, "info"); ("ping", "success", 0, "info")]
  /\ job_view "job-1" (conn_db polled) = Some ("completed", 100).
Proof. vm_compute. repeat split; reflexivity. Qed.

(** ** The persisted execution status (C4) *)

(** The polling worker keeps the property for every name of [check_map]: the
    saved status is [error] when the adapter raised, and the status the
    adapter returned otherwise ([success] when the dict has none). *)
Lemma execute_check_status (fns : adapters) (check_name target : string) (c : check_id) :
  lookup_check check_name = Some c ->
  let saved := sr_status (result_row "" check_name
                            (ScanWorker.execute_check fns check_name target)) in
  match fns c target [] with
  | Raise _ => saved = "error"
  | Ok r => saved = dict_get (res_status r) "success"
  end.
Proof.
  intros Hc. unfold ScanWorker.execute_check. rewrite Hc. cbn [option_map].
  destruct (fns c target []); reflexivity.
Qed.

(** Hence, when adapters report [success] or [failed], the saved status is
    [error] exactly when the adapter raised. *)
Lemma execute_check_error_iff_raised (fns : adapters) (check_name target : string)
    (c : check_id) :
  lookup_check check_name = Some c ->
  (forall r, fns c target [] = Ok r ->
     res_status r = Some "success" \/ res_status r = Some "failed") ->
  (sr_status (result_row "" check_name
                (ScanWorker.execute_check fns check_name target)) = "error"
   <-> exists e, fns c target [] = Raise e).
Proof.
  intros Hc Hst.
  pose proof (execute_check_status fns check_name target c Hc) as H.
  cbv zeta in H. destruct (fns c target []) as [r|e] eqn:E.
  - rewrite H. split.
    + intros Herr. destruct (Hst r eq_refl) as [S|S]; rewrite S in Herr; discriminate.
    + intros [e C]. discriminate.
  - split; [eauto | intros _; exact H].
Qed.

(** C4.  The Celery task breaks the property.  A ping that times out makes
    [ping_check] return status [failed]; [execute_scan] stores the row as
    [success].  An adapter that raises is stored as [failed], not [error].
    [process_scan] on the same inputs stores [failed] and [error]. *)
Theorem execute_scan_overwrites_check_status :
  let timeout := fun _ : nat => Checks.run Examples.env_timeout in
  let raising : nat -> adapters := fun _ _ _ _ => Raise (OtherException "boom") in
  let task w :=
    fst (CeleryTask.execute_scan w Examples.conn0 "job-1" "example.com" ["ping"] []) in
  let polled w :=
    ScanWorker.process_scan w Examples.conn0
                            ("job-1", None, Some "example.com", ["ping"], None) in
  option_map res_status (match Checks.ping_check Examples.env_timeout "example.com" [] with
                         | Ok r => Some r
                         | Raise _ => None
                         end) = Some (Some "failed")
  /\ map sr_status (scan_results (conn_db (task timeout))) = ["success"]
  /\ map sr_status (scan_results (conn_db (task raising))) = ["failed"]
  /\ map sr_status (scan_results (conn_db (polled timeout))) = ["failed"]
  /\ map sr_status (scan_results (conn_db (polled raising))) = ["error"].
Proof. vm_compute. repeat split; reflexivity. Qed.

(** ** The Celery task's executor *)

Section ExecuteScan.

Import CeleryTask.

Variable world : nat -> adapters.
Variables scan_id target : string.
Variable cfg : config.
Variable total_checks : Z.

Lemma task_view_status (conn : connection) (status : string)
    (completed_at : option Z) (v : string * Z) :
  job_view scan_id (conn_db conn) = Some v ->
  job_view scan_id (conn_db (update_scan_status conn scan_id status completed_at))
  = Some (status, snd v).
Proof.
  intros Hv. unfold update_scan_status.
  unfold job_view in Hv.
  destruct completed_at as [t|]; [|destruct (String.eqb status "running")];
    rewrite view_after_jobs by reflexivity;
    (destruct (find_job _ _); [|discriminate]); inversion Hv; reflexivity.
Qed.

Lemma task_view_progress (conn : connection) (p : Z) (v : string * Z) :
  job_view scan_id (conn_db conn) = Some v ->
  job_view scan_id (conn_db (update_scan_progress conn scan_id p)) = Some (fst v, p).
Proof.
  intros Hv. unfold update_scan_progress.
  rewrite view_after_jobs by reflexivity.
  unfold job_view in Hv.
  destruct (find_job _ _); [|discriminate]. inversion Hv. reflexivity.
Qed.

Lemma task_run_checks_views (checks : list string) : forall conn k done v,
  job_view scan_id (conn_db conn) = Some v ->
  let out := run_checks world conn scan_id target cfg total_checks k done checks in
  exists extra,
    conn_commits (fst out) = conn_commits conn ++ extra
    /\ map (job_view scan_id) extra = task_loop_views v total_checks done checks
    /\ job_view scan_id (conn_db (fst out))
       = Some (fst (task_loop_final v total_checks done checks))
    /\ snd out = snd (task_loop_final v total_checks done checks).
Proof.
  induction checks as [|c rest IH]; intros conn k done v Hv.
  - exists []. cbn. rewrite app_nil_r. auto.
  - cbn [run_checks task_loop_views task_loop_final].
    destruct (lookup_check c) as [cid|]; [|apply IH; exact Hv].
    set (c1 := match world k cid target cfg with
               | Ok r => _
               | Raise e => _
               end).
    assert (Hc1 : conn_commits c1 = conn_commits conn ++ [conn_db c1]
                  /\ job_view scan_id (conn_db c1) = Some v).
    { unfold c1. destruct (world k cid target cfg); split; try reflexivity; exact Hv. }
    destruct Hc1 as [Hc1 H1].
    set (p := progress_percent (done + 1) total_checks).
    set (c2 := update_scan_progress c1 scan_id p).
    pose proof (task_view_progress c1 p v H1) as H2. fold c2 in H2.
    destruct (IH c2 (S k) (done + 1) _ H2) as (extra & Hc & Hm & Hf & Hd).
    exists (conn_db c1 :: conn_db c2 :: extra). repeat split.
    + rewrite Hc. unfold c2 at 1. unfold update_scan_progress.
      rewrite commit_commits. cbn [with_jobs conn_commits].
      rewrite Hc1. rewrite <- !app_assoc. reflexivity.
    + cbn [map]. rewrite H1, H2, Hm. reflexivity.
    + exact Hf.
    + exact Hd.
Qed.

End ExecuteScan.

Lemma execute_scan_views (world : nat -> adapters) (conn : connection)
    (scan_id target : string) (checks : list string) (cfg : config)
    (v : string * Z) :
  job_view scan_id (conn_db conn) = Some v ->
  let T := Z.of_nat (List.length checks) in
  let last := fst (task_loop_final ("running", 0) T 0 checks) in
  let out := CeleryTask.execute_scan world conn scan_id target checks cfg in
  run_views scan_id conn (fst out)
  = Some ("running", snd v) :: Some ("running", 0)
    :: task_loop_views ("running", 0) T 0 checks
    ++ [Some ("completed", snd last); Some ("completed", 100)]
  /\ job_view scan_id (conn_db (fst out)) = Some ("completed", 100).
Proof.
  intros Hv T last out. unfold out, CeleryTask.execute_scan.
  set (c1 := CeleryTask.update_scan_status conn scan_id "running" None).
  set (c2 := CeleryTask.update_scan_progress c1 scan_id 0).
  pose proof (task_view_status scan_id conn "running" None v Hv) as H1. fold c1 in H1.
  pose proof (task_view_progress scan_id c1 0 _ H1) as H2. fold c2 in H2.
  cbn [fst] in H2.
  destruct (task_run_checks_views world scan_id target cfg T checks c2 0%nat 0 _ H2)
    as (extra & Hc & Hm & Hf & Hd).
  fold T.
  destruct (CeleryTask.run_checks world c2 scan_id target cfg T 0 0 checks)
    as [c3 done] eqn:E.
  cbn [fst snd] in Hc, Hf, Hd.
  set (c4 := CeleryTask.update_scan_status c3 scan_id "completed" _).
  set (c5 := CeleryTask.update_scan_progress c4 scan_id 100).
  pose proof (task_view_status scan_id c3 "completed"
                (Some (clock (conn_db c3))) _ Hf) as H4. fold c4 in H4.
  pose proof (task_view_progress scan_id c4 100 _ H4) as H5. fold c5 in H5.
  cbn [fst snd] in H5. cbn [fst]. split; [|exact H5].
  unfold run_views, new_commits.
  assert (Hall : conn_commits c5
                 = conn_commits conn
                   ++ (conn_db c1 :: conn_db c2 :: extra ++ [conn_db c4; conn_db c5])).
  { change (conn_commits c5) with (conn_commits c4 ++ [conn_db c5]).
    change (conn_commits c4) with (conn_commits c3 ++ [conn_db c4]).
    rewrite Hc.
    change (conn_commits c2) with (conn_commits c1 ++ [conn_db c2]).
    change (conn_commits c1) with (conn_commits conn ++ [conn_db c1]).
    rewrite <- !app_assoc. reflexivity. }
  rewrite Hall, skipn_app_exact. cbn [map]. rewrite map_app. cbn [map].
  rewrite H1, H2, Hm, H4, H5. reflexivity.
Qed.

(** ** Progress after each check (C5) *)

Section LoopViews.

Variable total_checks : Z.

Lemma loop_views_length (checks : list string) : forall v i,
  List.length (loop_views v total_checks i checks) = (2 * List.length checks)%nat.
Proof.
  induction checks as [|c rest IH]; intros v i; cbn [loop_views List.length].
  - reflexivity.
  - rewrite IH. lia.
Qed.

(** The update after the [j+1]-th check of the loop persists
    [progress_percent] of the number of checks done. *)
Lemma loop_views_nth (checks : list string) : forall v i j,
  (j < List.length checks)%nat ->
  nth (2 * j + 1) (loop_views v total_checks i checks) None
  = Some ("running", progress_percent (Z.of_nat (i + j) + 1) total_checks).
Proof.
  induction checks as [|c rest IH]; intros v i j Hj; cbn [List.length] in Hj.
  - lia.
  - cbn [loop_views]. destruct j as [|j].
    + cbn. rewrite Nat.add_0_r. reflexivity.
    + replace (2 * S j + 1)%nat with (S (S (2 * j + 1))) by lia.
      cbn [nth]. rewrite IH by lia.
      replace (S i + j)%nat with (i + S j)%nat by lia. reflexivity.
Qed.

(** When every name is registered, the task's loop persists what the
    polling worker's loop does. *)
Lemma task_loop_views_registered (checks : list string) : forall p i,
  Forall (fun c => lookup_check c <> None) checks ->
  task_loop_views ("running", p) total_checks (Z.of_nat i) checks
  = loop_views ("running", p) total_checks i checks.
Proof.
  induction checks as [|c rest IH]; intros p i Hreg; [reflexivity|].
  inversion Hreg as [|? ? Hc Hrest]; subst.
  cbn [task_loop_views loop_views].
  destruct (lookup_check c); [|congruence].
  cbn [fst]. do 2 f_equal.
  replace (Z.of_nat i + 1) with (Z.of_nat (S i)) by lia.
  rewrite IH by assumption.
  replace (Z.of_nat (S i)) with (Z.of_nat i + 1) by lia. reflexivity.
Qed.

End LoopViews.

(** C5, as stated, fails: after the second of three checks the persisted
    progress is 66, and [round(100 * 2 / 3)] is 67. *)
Lemma progress_is_not_rounded :
  ~ (forall (world : nat -> adapters) (conn : connection) (scan_id : string)
            (target_id url : option string) (checks : list string)
            (org_id : option string) (target : string) (v : string * Z) (k : nat),
       ScanWorker.resolve_target (conn_db conn) target_id url = Some target ->
       job_view scan_id (conn_db conn) = Some v ->
       (1 <= k <= List.length checks)%nat ->
       polled_progress_after scan_id conn
         (ScanWorker.process_scan world conn (scan_id, target_id, url, checks, org_id)) k
       = Some (round_percent (Z.of_nat k) (Z.of_nat (List.length checks)))).
Proof.
  intros H.
  specialize (H Examples.calm Examples.conn0 "job-3" None (Some "example.com")
                ["ping"; "headers"; "ssl"] None "example.com" ("queued", 0) 2%nat
                eq_refl eq_refl (conj (le_S _ _ (le_n 1)) (le_S _ _ (le_n 2)))).
  vm_compute in H. discriminate H.
Qed.

(** C5, amended.  After each check both executors persist
    [int((completed / total) * 100)], the float product truncated toward
    zero, in the commit that follows the result of that check:
    [process_scan] after every element of the check list, [execute_scan]
    after every element when all names are registered. *)
Theorem progress_after_each_check :
  (forall (world : nat -> adapters) (conn : connection) (scan_id : string)
          (target_id url : option string) (checks : list string)
          (org_id : option string) (target : string) (v : string * Z) (k : nat),
     ScanWorker.resolve_target (conn_db conn) target_id url = Some target ->
     job_view scan_id (conn_db conn) = Some v ->
     (1 <= k <= List.length checks)%nat ->
     polled_progress_after scan_id conn
       (ScanWorker.process_scan world conn (scan_id, target_id, url, checks, org_id)) k
     = Some (progress_percent (Z.of_nat k) (Z.of_nat (List.length checks))))
  /\
  (forall (world : nat -> adapters) (conn : connection) (scan_id target : string)
          (checks : list string) (cfg : config) (v : string * Z) (k : nat),
     job_view scan_id (conn_db conn) = Some v ->
     Forall (fun c => lookup_check c <> None) checks ->
     (1 <= k <= List.length checks)%nat ->
     task_progress_after scan_id conn
       (fst (CeleryTask.execute_scan world conn scan_id target checks cfg)) k
     = Some (progress_percent (Z.of_nat k) (Z.of_nat (List.length checks)))).
Proof.
  split.
  - intros world conn scan_id target_id url checks org_id target v k Hres Hv Hk.
    destruct (process_scan_resolved world conn scan_id target_id url checks org_id
                target v Hres Hv) as (_ & Hviews & _).
    unfold polled_progress_after. rewrite Hviews.
    destruct k as [|k]; [lia|].
    replace (2 * S k)%nat with (S (2 * k + 1)) by lia. cbn [nth].
    rewrite app_nth1 by (rewrite loop_views_length; lia).
    rewrite loop_views_nth by lia. cbn [option_map snd].
    do 2 f_equal. lia.
  - intros world conn scan_id target checks cfg v k Hv Hreg Hk.
    destruct (execute_scan_views world conn scan_id target checks cfg v Hv)
      as (Hviews & _).
    unfold task_progress_after. rewrite Hviews.
    destruct k as [|k]; [lia|].
    replace (2 * S k + 1)%nat with (S (S (2 * k + 1))) by lia. cbn [nth].
    rewrite (task_loop_views_registered _ checks 0 0%nat Hreg).
    rewrite app_nth1 by (rewrite loop_views_length; lia).
    rewrite loop_views_nth by lia. cbn [option_map snd].
    do 2 f_equal. lia.
Qed.

Lemma progress_after_each_check_witness :
  polled_progress_after "job-3" Examples.conn0
    (ScanWorker.process_scan Examples.calm Examples.conn0
       ("job-3", None, Some "example.com", ["ping"; "headers"; "ssl"], None)) 2
  = Some 66
  /\ task_progress_after "job-3" Examples.conn0
       (fst (CeleryTask.execute_scan Examples.calm Examples.conn0 "job-3"
               "example.com" ["ping"; "headers"; "ssl"] [])) 1
     = Some 33.
Proof.
  split.
  - exact (proj1 progress_after_each_check Examples.calm Examples.conn0 "job-3"
             None (Some "example.com") ["ping"; "headers"; "ssl"] None
             "example.com" ("queued", 0) 2%nat eq_refl eq_refl
             (conj (le_S _ _ (le_n 1)) (le_S _ _ (le_n 2)))).
  - refine (proj2 progress_after_each_check Examples.calm Examples.conn0 "job-3"
              "example.com" ["ping"; "headers"; "ssl"] [] ("queued", 0) 1%nat
              eq_refl _ (conj (le_n 1) (le_S _ _ (le_S _ _ (le_n 1))))).
    repeat constructor; discriminate.
Defined.

(** ** Monotone progress (C6) *)

Section SortedProgress.

Variable total_checks : Z.
Hypothesis total_pos : 0 < total_checks.

Lemma progress_percent_le_100 (k : Z) :
  0 < k <= total_checks -> progress_percent k total_checks <= 100.
Proof.
  intros Hk. rewrite <- (progress_percent_full total_checks total_pos).
  apply progress_percent_mono; lia.
Qed.

Lemma progress_values_cons (v : string * Z) (l : list (option (string * Z))) :
  progress_values (Some v :: l) = snd v :: progress_values l.
Proof. reflexivity. Qed.

(** The loop of [process_scan] persists non-decreasing progress values, at
    most the 100 that follows them. *)
Lemma loop_views_sorted (checks : list string) : forall v i status,
  Z.of_nat i + Z.of_nat (List.length checks) <= total_checks ->
  snd v <= 100 ->
  snd v <= progress_percent (Z.of_nat i + 1) total_checks ->
  Sorted Z.le
    (snd v :: progress_values
                (loop_views v total_checks i checks ++ [Some (status, 100)])).
Proof.
  induction checks as [|c rest IH]; intros v i status Hlen H100 Hnext.
  - cbn. repeat constructor. exact H100.
  - cbn [List.length] in Hlen. cbn [loop_views app].
    rewrite !progress_values_cons. cbn [snd].
    constructor; [|constructor; lia].
    constructor; [|constructor; exact Hnext].
    apply (IH ("running", progress_percent (Z.of_nat i + 1) total_checks) (S i)).
    + lia.
    + cbn [snd]. apply progress_percent_le_100. lia.
    + cbn [snd]. apply progress_percent_mono; lia.
Qed.

(** The loop of [execute_scan] likewise, whatever names are unknown. *)
Lemma task_loop_views_sorted (checks : list string) : forall v done,
  0 <= done ->
  done + Z.of_nat (List.length checks) <= total_checks ->
  snd v <= 100 ->
  snd v <= progress_percent (done + 1) total_checks ->
  Sorted Z.le
    (snd v :: progress_values
                (task_loop_views v total_checks done checks
                 ++ [Some ("completed",
                           snd (fst (task_loop_final v total_checks done checks)));
                     Some ("completed", 100)])).
Proof.
  induction checks as [|c rest IH]; intros v done Hdone Hlen H100 Hnext.
  - cbn. repeat constructor; [exact H100 | lia].
  - cbn [List.length] in Hlen. cbn [task_loop_views task_loop_final].
    destruct (lookup_check c) as [cid|].
    + cbn [app]. rewrite !progress_values_cons. cbn [snd].
      constructor; [|constructor; lia].
      constructor; [|constructor; exact Hnext].
      apply (IH (fst v, progress_percent (done + 1) total_checks) (done + 1)).
      * lia.
      * lia.
      * cbn [snd]. apply progress_percent_le_100. lia.
      * cbn [snd]. apply progress_percent_mono; lia.
    + apply IH; lia || assumption.
Qed.

End SortedProgress.

(** Before the last check the persisted progress stays below 100 (for any
    list shorter than 2^53, beyond which a double cannot count anyway). *)
Lemma progress_percent_lt_100 (k total : Z) :
  0 < k < total -> total <= 2 ^ 53 -> progress_percent k total <= 99.
Proof.
  intros Hk Hbound. unfold progress_percent, Float64.mul, Float64.truediv.
  pose proof (truediv_gt_0 k total ltac:(lia) ltac:(lia)) as Hq.
  set (b := Qminus 1 (Qinv (inject_Z (2 ^ 53)))).
  assert (Hqb : Qle (Qdiv (inject_Z k) (inject_Z total)) b).
  { assert (HT : Qlt 0 (inject_Z total))
      by (change 0%Q with (inject_Z 0); rewrite <- Zlt_Qlt; lia).
    apply Qle_shift_div_r; [exact HT|].
    apply Qle_trans with (Qminus (inject_Z total) 1).
    - change 1%Q with (inject_Z 1). unfold Qminus.
      rewrite <- inject_Z_opp, <- inject_Z_plus, <- Zle_Qle. lia.
    - assert (HT2 : Qle (inject_Z total) (inject_Z (2 ^ 53)))
        by (rewrite <- Zle_Qle; exact Hbound).
      unfold b. set (t := inject_Z total) in *.
      assert (E : Qeq ((1 - / inject_Z (2 ^ 53)) * t)%Q
                      (t - t / inject_Z (2 ^ 53))%Q) by (field; discriminate).
      rewrite E.
      assert (Hle1 : Qle (t / inject_Z (2 ^ 53))%Q 1).
      { apply Qle_shift_div_r; [reflexivity|]. rewrite Qmult_1_l. exact HT2. }
      lra. }
  pose proof (round64_gt_0 _ Hq) as Hr.
  pose proof (round64_mono _ _ Hq Hqb) as Hrb.
  pose proof of_int_100 as Hc.
  set (c := Float64.of_int 100) in *.
  set (q := Float64.round64 (Qdiv (inject_Z k) (inject_Z total))) in *.
  assert (Hp : Qlt 0 (q * c)%Q) by (rewrite Hc; lra).
  assert (Hpp : Qle (q * c)%Q (Float64.round64 b * c)%Q) by (rewrite Hc; lra).
  pose proof (round64_gt_0 _ Hp) as H1.
  pose proof (round64_mono _ _ Hp Hpp) as H2.
  rewrite to_int_nonneg by lra.
  apply Z.le_trans with (Qfloor (Float64.round64 (Float64.round64 b * c)%Q)).
  - apply Qfloor_resp_le. exact H2.
  - vm_compute. discriminate.
Qed.

(** In the loop of [process_scan] the value 100 is persisted by the update
    after the last check, and by no commit before it. *)
Lemma loop_views_100 (total_checks : Z) (checks : list string) : forall v i n s,
  total_checks <= 2 ^ 53 ->
  Z.of_nat i + Z.of_nat (List.length checks) = total_checks ->
  snd v < 100 ->
  nth n (loop_views v total_checks i checks) None = Some (s, 100) ->
  n = (2 * List.length checks - 1)%nat /\ s = "running".
Proof.
  induction checks as [|c rest IH]; intros v i n s Hb Hlen Hv Hn.
  - destruct n; discriminate Hn.
  - cbn [List.length] in Hlen. cbn [loop_views] in Hn.
    destruct n as [|[|n]]; cbn [nth] in Hn.
    + inversion Hn; subst. cbn in Hv. lia.
    + inversion Hn as [[Hp]]. destruct rest as [|c' rest'].
      * split; reflexivity.
      * exfalso. cbn [List.length] in Hlen.
        pose proof (progress_percent_lt_100 (Z.of_nat i + 1) total_checks
                      ltac:(lia) Hb). lia.
    + destruct rest as [|c' rest'].
      * destruct n; discriminate Hn.
      * apply IH in Hn; try assumption.
        -- destruct Hn as [Hn Hs]. split; [|exact Hs].
           cbn [List.length] in *. lia.
        -- lia.
        -- cbn [snd List.length] in *.
           pose proof (progress_percent_lt_100 (Z.of_nat i + 1) total_checks
                         ltac:(lia) Hb). lia.
Qed.

(** C6, as stated, fails: in a run of [process_scan] on a job of two checks
    the commit after the second check persists progress 100 with status
    [running]. *)
Lemma progress_100_while_running :
  ~ (forall (world : nat -> adapters) (conn : connection) (scan_id : string)
            (target_id url : option string) (checks : list string)
            (org_id : option string) (target : string) (v : string * Z),
       ScanWorker.resolve_target (conn_db conn) target_id url = Some target ->
       job_view scan_id (conn_db conn) = Some v ->
       let views :=
         run_views scan_id conn
           (ScanWorker.process_scan world conn
              (scan_id, target_id, url, checks, org_id)) in
       Sorted Z.le (progress_values views)
       /\ (forall s p, In (Some (s, p)) views -> p = 100 -> s = "completed")).
Proof.
  intros H.
  destruct (H Examples.calm Examples.conn0 "job-1" None (Some "example.com")
              ["ping"; "headers"] None "example.com" ("queued", 0)
              eq_refl eq_refl) as [_ H100].
  specialize (H100 "running" 100).
  assert (Hin : In (Some ("running", 100))
                   (run_views "job-1" Examples.conn0
                      (ScanWorker.process_scan Examples.calm Examples.conn0
                         ("job-1", None, Some "example.com", ["ping"; "headers"], None)))).
  { vm_compute. do 4 right. left. reflexivity. }
  specialize (H100 Hin eq_refl). discriminate H100.
Qed.

(** C6, amended.  Within a run the persisted progress values are
    non-decreasing and the run ends [completed] with progress 100.  In
    [process_scan] the value 100 is persisted twice: by the progress update
    after the last check, with status [running], and by the transition to
    [completed]; no other commit of the run persists 100.  In
    [execute_scan], started on a job of progress 0, the values are
    non-decreasing as well and the run ends [completed] with 100. *)
Theorem progress_monotone_to_100 :
  (forall (world : nat -> adapters) (conn : connection) (scan_id : string)
          (target_id url : option string) (checks : list string)
          (org_id : option string) (target : string) (v : string * Z),
     ScanWorker.resolve_target (conn_db conn) target_id url = Some target ->
     job_view scan_id (conn_db conn) = Some v ->
     Z.of_nat (List.length checks) <= 2 ^ 53 ->
     let views :=
       run_views scan_id conn
         (ScanWorker.process_scan world conn
            (scan_id, target_id, url, checks, org_id)) in
     Sorted Z.le (progress_values views)
     /\ last views None = Some ("completed", 100)
     /\ (checks <> [] ->
         nth (2 * List.length checks) views None = Some ("running", 100))
     /\ (forall n s, nth n views None = Some (s, 100) ->
         (s = "completed" /\ n = S (2 * List.length checks))
         \/ (s = "running" /\ n = (2 * List.length checks)%nat /\ checks <> [])))
  /\
  (forall (world : nat -> adapters) (conn : connection) (scan_id target : string)
          (checks : list string) (cfg : config) (v : string * Z),
     job_view scan_id (conn_db conn) = Some v ->
     snd v <= 0 ->
     let views :=
       run_views scan_id conn
         (fst (CeleryTask.execute_scan world conn scan_id target checks cfg)) in
     Sorted Z.le (progress_values views)
     /\ last views None = Some ("completed", 100)).
Proof.
  split.
  - intros world conn scan_id target_id url checks org_id target v Hres Hv Hb views.
    destruct (process_scan_resolved world conn scan_id target_id url checks org_id
                target v Hres Hv) as (_ & Hviews & _).
    unfold views. rewrite Hviews. clear views Hviews.
    set (T := Z.of_nat (List.length checks)) in *.
    repeat split.
    + rewrite progress_values_cons. cbn [snd].
      destruct checks as [|c rest].
      * cbn. repeat constructor. lia.
      * assert (HT : 0 < T) by (unfold T; cbn [List.length]; lia).
        apply (loop_views_sorted T HT (c :: rest) ("running", 0) 0%nat "completed").
        -- unfold T. lia.
        -- cbn. lia.
        -- cbn [snd]. apply progress_percent_nonneg; lia.
    + rewrite app_comm_cons. apply last_last.
    + intros Hne.
      destruct (List.length checks) as [|m] eqn:Hlen.
      { destruct checks; [congruence | discriminate Hlen]. }
      replace (2 * S m)%nat with (S (2 * m + 1)) by lia. cbn [nth].
      rewrite app_nth1 by (rewrite loop_views_length; lia).
      rewrite loop_views_nth by lia.
      replace (Z.of_nat (0 + m) + 1) with T by (unfold T; lia).
      rewrite progress_percent_full by (unfold T; lia). reflexivity.
    + intros n s Hn. destruct n as [|n]; [discriminate Hn|].
      cbn [nth] in Hn.
      destruct (Nat.lt_ge_cases n (2 * List.length checks)) as [Hlt|Hge].
      * rewrite app_nth1 in Hn by (rewrite loop_views_length; exact Hlt).
        apply (loop_views_100 T checks ("running", 0) 0%nat n s Hb) in Hn.
        -- destruct Hn as [Hn Hs]. right. repeat split.
           ++ exact Hs.
           ++ lia.
           ++ intros C. rewrite C in Hlt. cbn in Hlt. lia.
        -- unfold T. lia.
        -- cbn. lia.
      * rewrite app_nth2 in Hn by (rewrite loop_views_length; exact Hge).
        rewrite loop_views_length in Hn.
        destruct (n - 2 * List.length checks)%nat as [|[|k]] eqn:Hk;
          cbn [nth] in Hn; try discriminate Hn.
        inversion Hn; subst. left. split; [reflexivity | lia].
  - intros world conn scan_id target checks cfg v Hv Hv0 views.
    destruct (execute_scan_views world conn scan_id target checks cfg v Hv)
      as (Hviews & _).
    unfold views. rewrite Hviews. clear views Hviews.
    set (T := Z.of_nat (List.length checks)) in *.
    split.
    + rewrite progress_values_cons. cbn [snd].
      constructor; [|constructor; exact Hv0].
      destruct checks as [|c rest].
      * cbn. repeat constructor; lia.
      * assert (HT : 0 < T) by (unfold T; cbn [List.length]; lia).
        apply (task_loop_views_sorted T HT (c :: rest) ("running", 0) 0).
        -- lia.
        -- unfold T. lia.
        -- cbn. lia.
        -- cbn [snd]. apply progress_percent_nonneg; lia.
    + rewrite !app_comm_cons.
      change [Some ("completed", snd (fst (task_loop_final ("running", 0) T 0 checks)));
              Some ("completed", 100)]
        with ([Some ("completed", snd (fst (task_loop_final ("running", 0) T 0 checks)))]
              ++ [Some ("completed", 100)]).
      rewrite app_assoc. apply last_last.
Qed.

Lemma progress_monotone_to_100_witness :
  let views :=
    run_views "job-1" Examples.conn0
      (ScanWorker.process_scan Examples.calm Examples.conn0
         ("job-1", None, Some "example.com", ["ping"; "headers"], None)) in
  Sorted Z.le (progress_values views)
  /\ last views None = Some ("completed", 100)
  /\ nth 4 views None = Some ("running", 100).
Proof.
  assert (Hb : Z.of_nat (List.length ["ping"; "headers"]) <= 2 ^ 53)
    by (vm_compute; discriminate).
  destruct (proj1 progress_monotone_to_100 Examples.calm Examples.conn0 "job-1"
              None (Some "example.com") ["ping"; "headers"] None "example.com"
              ("queued", 0) eq_refl eq_refl Hb)
    as (Hs & Hl & Hr & _).
  split; [exact Hs | split; [exact Hl | apply Hr; discriminate]].
Defined.

(** ** The adapters: what they return (C3, C7) *)

(** Case analysis on every [match] of the goal, innermost first. *)
Ltac destruct_matches :=
  repeat match goal with
         | |- context [match ?x with _ => _ end] =>
             lazymatch x with
             | context [match _ with _ => _ end] => fail
             | _ => destruct x eqn:?
             end
         end.

Section AdapterCases.

Import Checks.

Variable w : env.
Variable target : string.
Variable cfg : config.


Lemma ping_check_cases :
  exists r, ping_check w target cfg = Ok r
    /\ In (summary r)
          [(Some "success", Some 0, Some "info");
           (Some "success", Some 1, Some "high");
           (Some "failed", Some 1, Some "medium");
           (Some "failed", Some 0, Some "info")].
Proof.
  unfold ping_check. unfold bind, try_except.
  destruct_matches; eexists; (split; [reflexivity|]); cbn; auto 10.
Qed.

Lemma headers_check_cases :
  exists r, headers_check w target cfg = Ok r
    /\ (summary r = (Some "failed", Some 0, Some "info")
        \/ exists n, 0 <= n
             /\ summary r = (Some "success", Some n, Some (headers_severity n))).
Proof.
  unfold headers_check. unfold bind, try_except.
  destruct_matches; eexists; (split; [reflexivity|]); cbn; auto 10.
  right. eexists. split; [|reflexivity]. lia.
Qed.

Lemma port_scan_check_cases :
  exists r, port_scan_check w target cfg = Ok r
    /\ (summary r = (Some "failed", Some 0, Some "info")
        \/ exists n, 0 <= n
             /\ summary r = (Some "success", Some n, Some (portscan_severity n))).
Proof.
  unfold port_scan_check. unfold bind, try_except.
  destruct_matches; eexists; (split; [reflexivity|]); cbn; auto 10.
  right. eexists. split; [|reflexivity]. lia.
Qed.

Lemma ssl_check_cases :
  exists r, ssl_check w target cfg = Ok r
    /\ In (summary r)
          [(Some "failed", Some 0, Some "info");
           (Some "failed", Some 1, Some "high");
           (Some "success", Some 0, Some "info");
           (Some "success", Some 1, Some "high");
           (Some "success", Some 1, Some "medium");
           (Some "success", Some 2, Some "medium")].
Proof.
  unfold ssl_check. unfold bind, try_except.
  destruct_matches; eexists; (split; [reflexivity|]); cbn; auto 10.
Qed.

Lemma bruteforce_check_cases :
  exists r, bruteforce_check w target cfg = Ok r
    /\ (summary r = (Some "failed", Some 0, Some "info")
        \/ exists n, 0 <= n
             /\ summary r = (Some "success", Some n, Some (bruteforce_severity n))).
Proof.
  unfold bruteforce_check. unfold bind, try_except.
  destruct_matches; eexists; (split; [reflexivity|]); cbn; auto 10;
  right; eexists; (split; [|reflexivity]); lia.
Qed.

Lemma dns_query_ok (t : string) st record_type :
  exists st', dns_query w t st record_type = Ok st' /\ snd st <= snd st'.
Proof.
  unfold dns_query, bind, try_except.
  destruct_matches; eexists; (split; [reflexivity|]); cbn; lia.
Qed.

Lemma dns_queries_ok (t : string) (types : list string) : forall st,
  exists st', dns_queries w t st types = Ok st' /\ snd st <= snd st'.
Proof.
  induction types as [|ty rest IH]; intros st; cbn [dns_queries].
  - exists st. split; [reflexivity | lia].
  - destruct (dns_query_ok t st ty) as (st1 & E1 & H1). rewrite E1. cbn [bind].
    destruct (IH st1) as (st2 & E2 & H2). exists st2. split; [exact E2 | lia].
Qed.

Lemma zone_transfer_ok (t : string) :
  zone_transfer w t = Ok (true, 1) \/ zone_transfer w t = Ok (false, 0).
Proof.
  unfold zone_transfer, bind, try_except. destruct_matches; auto.
Qed.

Lemma dns_check_cases :
  exists r n, dns_check w target cfg = Ok r /\ 0 <= n
    /\ (summary r = (Some "success", Some n, Some "high")
        \/ summary r = (Some "success", Some n, Some "info")).
Proof.
  unfold dns_check.
  destruct (dns_queries_ok (bare_host target) DNS_RECORD_TYPES ([], 0))
    as (st & E & H). cbn [snd] in H.
  rewrite E. cbn [bind].
  destruct (zone_transfer_ok (bare_host target)) as [Z|Z]; rewrite Z;
    cbn [bind try_except fst snd].
  - exists (result "success"
              [("records", JDict (fst st));
               ("zone_transfer_vulnerable", JBool true);
               ("total_records", JInt (snd st + 1))] (snd st + 1) "high"),
           (snd st + 1).
    repeat split; [lia | left; reflexivity].
  - exists (result "success"
              [("records", JDict (fst st));
               ("zone_transfer_vulnerable", JBool false);
               ("total_records", JInt (snd st + 0))] (snd st + 0) "info"),
           (snd st + 0).
    repeat split; [lia | right; reflexivity].
Qed.

(** When no subprocess can be run. *)
Hypothesis broken : exists e, forall cmd t, subprocess_run w cmd t = Raise e.

Lemma broken_failed (c : check_id) :
  c <> dns ->
  exists r, run w c target cfg = Ok r /\ res_status r = Some "failed".
Proof.
  destruct broken as [e He]. intros Hc.
  destruct c; try congruence; cbn [run];
    unfold ping_check, port_scan_check, headers_check, ssl_check, bruteforce_check,
           bind, try_except;
    rewrite ?He; destruct_matches;
    try match goal with
        | H : subprocess_run w _ _ = Ok _ |- _ => rewrite He in H; discriminate H
        end;
    eexists; split; reflexivity.
Qed.

End AdapterCases.

(** Every adapter returns: none of them raises. *)
Lemma run_cases (w : Checks.env) (c : check_id) (target : string) (cfg : config) :
  exists r, Checks.run w c target cfg = Ok r
    /\ (res_status r = Some "success" \/ res_status r = Some "failed")
    /\ (res_status r = Some "failed" ->
        (res_findings r = Some 0 /\ res_severity r = Some "info")
        \/ (c = ping /\ res_findings r = Some 1 /\ res_severity r = Some "medium")
        \/ (c = ssl /\ res_findings r = Some 1 /\ res_severity r = Some "high")).
Proof.
  destruct c; cbn [Checks.run].
  - destruct (ping_check_cases w target cfg) as (r & E & H).
    exists r. split; [exact E|]. destruct r as [st d f sv]. cbn in H.
    repeat (destruct H as [H|H]; [inversion H; subst; clear H|]);
      try contradiction; cbn; (split; [auto|]); intros; try discriminate; auto 10.
  - destruct (port_scan_check_cases w target cfg) as (r & E & [H|(n & _ & H)]);
      exists r; (split; [exact E|]); destruct r as [st d f sv];
      inversion H; subst; cbn; split; auto; intros; try discriminate; auto.
  - destruct (headers_check_cases w target cfg) as (r & E & [H|(n & _ & H)]);
      exists r; (split; [exact E|]); destruct r as [st d f sv];
      inversion H; subst; cbn; split; auto; intros; try discriminate; auto.
  - destruct (ssl_check_cases w target cfg) as (r & E & H).
    exists r. split; [exact E|]. destruct r as [st d f sv]. cbn in H.
    repeat (destruct H as [H|H]; [inversion H; subst; clear H|]);
      try contradiction; cbn; (split; [auto|]); intros; try discriminate; auto 10.
  - destruct (dns_check_cases w target cfg) as (r & n & E & _ & [H|H]);
      exists r; (split; [exact E|]); destruct r as [st d f sv];
      inversion H; subst; cbn; split; auto; intros; discriminate.
  - destruct (bruteforce_check_cases w target cfg) as (r & E & [H|(n & _ & H)]);
      exists r; (split; [exact E|]); destruct r as [st d f sv];
      inversion H; subst; cbn; split; auto; intros; try discriminate; auto.
Qed.

(** C3, as stated, fails: a ping that times out is an internal failure, and
    [ping_check] returns it with findings 1 and severity [medium]. *)
Lemma ping_timeout_is_a_finding :
  ~ (forall (c : check_id) (w : Checks.env) (target : string) (cfg : config),
       exists r, Checks.run w c target cfg = Ok r
         /\ ((exists e, forall cmd t, Checks.subprocess_run w cmd t = Raise e) ->
             res_status r = Some "failed"
             /\ res_findings r = Some 0
             /\ res_severity r = Some "info")).
Proof.
  intros H.
  destruct (H ping Examples.env_timeout "example.com" []) as (r & E & Hr).
  vm_compute in E. inversion E; subst r. clear E.
  destruct Hr as (_ & Hf & _).
  - exists (TimeoutExpired "timed out"). reflexivity.
  - discriminate Hf.
Qed.

(** The dns adapter absorbs the failures of its queries: with no [dig] to
    run it still returns [success]. *)
Lemma dns_absorbs_failures :
  option_map Checks.summary
    (match Checks.dns_check Examples.env_timeout "example.com" [] with
     | Ok r => Some r
     | Raise _ => None
     end)
  = Some (Some "success", Some 0, Some "info").
Proof. vm_compute. reflexivity. Qed.

(** C3, amended.  No adapter raises: for every target, config and state of
    the outside world it returns a result, with status [success] or
    [failed].  A [failed] result has findings 0 and severity [info], except
    the ping timeout (findings 1, severity [medium]) and the ssl connection
    failure (findings 1, severity [high]).  When no subprocess can be run,
    every adapter but dns returns [failed]. *)
Theorem adapters_never_raise (c : check_id) (w : Checks.env) (target : string)
    (cfg : config) :
  exists r, Checks.run w c target cfg = Ok r
    /\ (res_status r = Some "success" \/ res_status r = Some "failed")
    /\ (res_status r = Some "failed" ->
        (res_findings r = Some 0 /\ res_severity r = Some "info")
        \/ (c = ping /\ res_findings r = Some 1 /\ res_severity r = Some "medium")
        \/ (c = ssl /\ res_findings r = Some 1 /\ res_severity r = Some "high"))
    /\ ((exists e, forall cmd t, Checks.subprocess_run w cmd t = Raise e) ->
        c <> dns -> res_status r = Some "failed").
Proof.
  destruct (run_cases w c target cfg) as (r & E & Hst & Hf).
  exists r. repeat split; try assumption.
  intros Hbroken Hc.
  destruct (broken_failed w target cfg Hbroken c Hc) as (r' & E' & Hr').
  congruence.
Qed.

Lemma adapters_never_raise_witness :
  exists r, Checks.run Examples.env_timeout ping "example.com" [] = Ok r
    /\ res_status r = Some "failed".
Proof.
  destruct (adapters_never_raise ping Examples.env_timeout "example.com" [])
    as (r & E & _ & _ & Hb).
  exists r. split; [exact E|].
  apply Hb; [exists (TimeoutExpired "timed out"); reflexivity | discriminate].
Defined.

(** C7, as stated, fails: an unreachable target and a ping that times out
    both give findings 1, with severity [high] and [medium]. *)
Lemma ping_same_findings_two_severities :
  ~ (forall (c : check_id) (w1 w2 : Checks.env) (t1 t2 : string)
            (cfg1 cfg2 : config) (r1 r2 : check_result),
       Checks.run w1 c t1 cfg1 = Ok r1 ->
       Checks.run w2 c t2 cfg2 = Ok r2 ->
       res_findings r1 = res_findings r2 ->
       res_severity r1 = res_severity r2).
Proof.
  intros H.
  specialize (H ping (Examples.env_exit 1 "") Examples.env_timeout
                "example.com" "example.com" [] [] _ _ eq_refl eq_refl eq_refl).
  discriminate H.
Qed.

(** The other adapters whose severity does not follow the count alone:
    ssl (a verification error and a self-signed certificate are one finding
    each), dns (the zone-transfer flag decides) and portscan (a failed scan
    and a scan without open ports both count 0). *)
Lemma same_findings_two_severities_elsewhere :
  let sev w c := option_map Checks.summary
                   (match Checks.run w c "example.com" [] with
                    | Ok r => Some r
                    | Raise _ => None
                    end) in
  sev (Examples.env_exit 0 "verify error") ssl
    = Some (Some "success", Some 1, Some "high")
  /\ sev (Examples.env_exit 0 "self signed") ssl
     = Some (Some "success", Some 1, Some "medium")
  /\ sev (Examples.env_exit 0 "") dns = Some (Some "success", Some 1, Some "high")
  /\ sev (Examples.env_exit 1 "1.2.3.4") dns = Some (Some "success", Some 0, Some "info")
  /\ sev (Examples.env_exit 1 "") portscan = Some (Some "failed", Some 0, Some "info").
Proof. vm_compute. repeat split; reflexivity. Qed.

(** C7, amended.  For the headers and bruteforce adapters two invocations
    with the same findings count have the same severity; for ping and
    portscan they have when they also return the same status.  (For ssl and
    dns the severity follows the risk signal found, not the count.) *)
Theorem severity_determined_by_findings (c : check_id) (w1 w2 : Checks.env)
    (t1 t2 : string) (cfg1 cfg2 : config) (r1 r2 : check_result) :
  Checks.run w1 c t1 cfg1 = Ok r1 ->
  Checks.run w2 c t2 cfg2 = Ok r2 ->
  res_findings r1 = res_findings r2 ->
  ((c = headers \/ c = bruteforce) -> res_severity r1 = res_severity r2)
  /\ ((c = ping \/ c = portscan) ->
      res_status r1 = res_status r2 -> res_severity r1 = res_severity r2).
Proof.
  intros E1 E2 Hf. destruct c; cbn [Checks.run] in E1, E2;
    (split; [intros [C|C]; try discriminate C
            | intros [C|C] Hst; try discriminate C]).
  - destruct (ping_check_cases w1 t1 cfg1) as (a & Ea & Ha).
    destruct (ping_check_cases w2 t2 cfg2) as (b & Eb & Hb).
    assert (a = r1) by congruence. assert (b = r2) by congruence. subst a b.
    destruct r1 as [s1 d1 f1 v1], r2 as [s2 d2 f2 v2]. cbn in *.
    repeat (destruct Ha as [Ha|Ha]; [inversion Ha; subst; clear Ha|]);
      try contradiction;
      repeat (destruct Hb as [Hb|Hb]; [inversion Hb; subst; clear Hb|]);
      try contradiction; try reflexivity; discriminate.
  - destruct (port_scan_check_cases w1 t1 cfg1) as (a & Ea & Ha).
    destruct (port_scan_check_cases w2 t2 cfg2) as (b & Eb & Hb).
    assert (a = r1) by congruence. assert (b = r2) by congruence. subst a b.
    destruct r1 as [s1 d1 f1 v1], r2 as [s2 d2 f2 v2]. cbn in *.
    destruct Ha as [Ha|(n & _ & Ha)]; destruct Hb as [Hb|(m & _ & Hb)];
      inversion Ha; inversion Hb; subst; try reflexivity; try discriminate.
    congruence.
  - destruct (headers_check_cases w1 t1 cfg1) as (a & Ea & Ha).
    destruct (headers_check_cases w2 t2 cfg2) as (b & Eb & Hb).
    assert (a = r1) by congruence. assert (b = r2) by congruence. subst a b.
    destruct r1 as [s1 d1 f1 v1], r2 as [s2 d2 f2 v2]. cbn in *.
    destruct Ha as [Ha|(n & _ & Ha)]; destruct Hb as [Hb|(m & _ & Hb)];
      inversion Ha; inversion Hb; subst; try reflexivity;
      repeat match goal with
             | H : Some _ = Some _ |- _ => inversion H; subst; clear H
             end; reflexivity.
  - destruct (bruteforce_check_cases w1 t1 cfg1) as (a & Ea & Ha).
    destruct (bruteforce_check_cases w2 t2 cfg2) as (b & Eb & Hb).
    assert (a = r1) by congruence. assert (b = r2) by congruence. subst a b.
    destruct r1 as [s1 d1 f1 v1], r2 as [s2 d2 f2 v2]. cbn in *.
    destruct Ha as [Ha|(n & _ & Ha)]; destruct Hb as [Hb|(m & _ & Hb)];
      inversion Ha; inversion Hb; subst; try reflexivity;
      repeat match goal with
             | H : Some _ = Some _ |- _ => inversion H; subst; clear H
             end; reflexivity.
Qed.

Lemma severity_determined_by_findings_witness :
  match Checks.run (Examples.env_exit 0 "Server: a") headers "example.com" [],
        Checks.run (Examples.env_exit 0 "Server: b") headers "example.org" [] with
  | Ok r1, Ok r2 => res_severity r1 = res_severity r2
  | _, _ => False
  end.
Proof.
  destruct (Checks.run (Examples.env_exit 0 "Server: a") headers "example.com" [])
    as [r1|e1] eqn:E1; [|discriminate E1].
  destruct (Checks.run (Examples.env_exit 0 "Server: b") headers "example.org" [])
    as [r2|e2] eqn:E2; [|discriminate E2].
  refine (proj1 (severity_determined_by_findings headers _ _ _ _ _ _ r1 r2 E1 E2 _)
                (or_introl eq_refl)).
  vm_compute in E1, E2. inversion E1. inversion E2. reflexivity.
Defined.

(** ** Claiming the oldest queued job (C8) *)

Section Claim.

Import ScanWorker.

Lemma oldest_none (rows : list scan_job) : oldest rows = None -> rows = [].
Proof.
  destruct rows as [|r rest]; [reflexivity|]. cbn.
  destruct (oldest rest) as [r'|]; [|discriminate].
  destruct (job_created_at r <=? job_created_at r'); discriminate.
Qed.

Lemma oldest_least (rows : list scan_job) : forall r,
  oldest rows = Some r ->
  In r rows /\ forall r', In r' rows -> job_created_at r <= job_created_at r'.
Proof.
  induction rows as [|a rest IH]; intros r Hr; [discriminate|].
  cbn [oldest] in Hr. destruct (oldest rest) as [b|] eqn:Eb.
  - destruct (IH b eq_refl) as [Hin Hle].
    destruct (Z.leb_spec (job_created_at a) (job_created_at b)) as [L|L];
      inversion Hr; subst r; clear Hr.
    + split; [left; reflexivity|]. intros r' [<-|Hr']; [lia|].
      specialize (Hle r' Hr'). lia.
    + split; [right; exact Hin|]. intros r' [<-|Hr']; [lia|]. auto.
  - inversion Hr; subst r. apply oldest_none in Eb. subst rest.
    split; [left; reflexivity|]. intros r' [<-|[]]. lia.
Qed.

Lemma get_queued_scans_some (conn : connection) (data : scan_data)
    (conn' : connection) :
  get_queued_scans conn = (Some data, conn') ->
  exists r,
    oldest (filter (claimable (conn_db conn) (conn_session conn))
                   (scan_jobs (conn_db conn))) = Some r
    /\ data = select_columns r
    /\ scan_jobs (conn_db conn') = scan_jobs (conn_db conn)
    /\ row_locks (conn_db conn')
       = (job_id r, conn_session conn) :: row_locks (conn_db conn).
Proof.
  unfold get_queued_scans.
  destruct (oldest _) as [r|]; [|discriminate].
  intros H. inversion H; subst. exists r. auto.
Qed.

Lemma locked_by_other_no_locks (db : database) (s : session) (id : string) :
  (forall l, In l (row_locks db) -> snd l = s) ->
  locked_by_other db s id = false.
Proof.
  unfold locked_by_other.
  induction (row_locks db) as [|l ls IH]; intros Hown; [reflexivity|].
  cbn [existsb]. rewrite IH by (intros; apply Hown; right; assumption).
  pose proof (Hown l (or_introl eq_refl)) as E.
  destruct l as [j h]. cbn [fst snd] in *. subst h.
  rewrite Nat.eqb_refl. cbn. now rewrite andb_false_r.
Qed.

End Claim.

(** C8.  [get_queued_scans] returns the oldest eligible job: the row it
    returns is queued and no queued row that the query may take (none that
    another session has claimed and holds locked) was created before it;
    it returns nothing only when there is no such row.  In particular, when
    no other session holds a claim in flight, the row returned is the oldest
    of all rows of status [queued]. *)
Theorem get_queued_scans_fifo (conn : connection) :
  let db := conn_db conn in
  let s := conn_session conn in
  match fst (ScanWorker.get_queued_scans conn) with
  | Some data =>
      exists r,
        In r (scan_jobs db)
        /\ data = ScanWorker.select_columns r
        /\ job_status r = "queued"
        /\ (forall r', In r' (scan_jobs db) ->
            job_status r' = "queued" ->
            ScanWorker.locked_by_other db s (job_id r') = false ->
            job_created_at r <= job_created_at r')
        /\ ((forall l, In l (row_locks db) -> snd l = s) ->
            forall r', In r' (scan_jobs db) ->
            job_status r' = "queued" ->
            job_created_at r <= job_created_at r')
  | None =>
      forall r', In r' (scan_jobs db) ->
        job_status r' = "queued" ->
        ScanWorker.locked_by_other db s (job_id r') = true
  end.
Proof.
  cbv zeta. unfold ScanWorker.get_queued_scans.
  destruct (ScanWorker.oldest _) as [r|] eqn:E; cbn [fst].
  - destruct (oldest_least _ _ E) as [Hin Hle].
    apply filter_In in Hin. destruct Hin as [Hin Hc].
    unfold ScanWorker.claimable in Hc. apply andb_true_iff in Hc.
    destruct Hc as [Hq Hl]. apply String.eqb_eq in Hq.
    assert (Hgen : forall r', In r' (scan_jobs (conn_db conn)) ->
                     job_status r' = "queued" ->
                     ScanWorker.locked_by_other (conn_db conn) (conn_session conn)
                       (job_id r') = false ->
                     job_created_at r <= job_created_at r').
    { intros r' Hin' Hq' Hl'. apply Hle. apply filter_In. split; [exact Hin'|].
      unfold ScanWorker.claimable. rewrite Hq', Hl'. reflexivity. }
    exists r. repeat split; try assumption.
    intros Hown r' Hin' Hq'. apply Hgen; try assumption.
    apply locked_by_other_no_locks. exact Hown.
  - apply oldest_none in E. intros r' Hin' Hq'.
    destruct (ScanWorker.locked_by_other _ _ _) eqn:Hl; [reflexivity|].
    exfalso.
    assert (Hf : In r' (filter (ScanWorker.claimable (conn_db conn) (conn_session conn))
                               (scan_jobs (conn_db conn)))).
    { apply filter_In. split; [exact Hin'|].
      unfold ScanWorker.claimable. rewrite Hq', Hl. reflexivity. }
    rewrite E in Hf. exact Hf.
Qed.

(** Jobs created at 10 < 20 < 30, all queued: the first claim returns the
    job created at 10. *)
Lemma get_queued_scans_fifo_witness :
  match fst (ScanWorker.get_queued_scans Examples.conn0) with
  | Some data => ScanWorker.data_id data = "job-1"
  | None => False
  end.
Proof.
  pose proof (get_queued_scans_fifo Examples.conn0) as H. cbv zeta in H.
  destruct (fst (ScanWorker.get_queued_scans Examples.conn0)) as [data|].
  - destruct H as (r & Hin & Hd & _ & _ & Hleast).
    specialize (Hleast (fun l (F : In l []) => match F with end)
                       Examples.job_url_only (or_introl eq_refl) eq_refl).
    subst data.
    destruct Hin as [<-|[<-|[<-|[]]]]; [reflexivity | |]; exfalso;
      apply Hleast; reflexivity.
  - discriminate (H Examples.job_url_only (or_introl eq_refl) eq_refl).
Defined.

(** ** Concurrent claims (C1) *)

Section PoolInvariant.

Import ScanWorker Pool.

Lemma initial_consistent (sys : system) : initial sys -> consistent sys.
Proof.
  intros (Hw & Hl & Hh). constructor.
  - intros s j H. rewrite Hh in H. destruct H.
  - intros j s H. rewrite Hl in H. destruct H.
  - rewrite Hh. constructor.
  - intros s d H. rewrite Hw in H. discriminate H.
  - intros s j H. rewrite Hh in H. destruct H.
Qed.

Lemma in_release_locks (s : session) (locks : list (string * session)) j h :
  In (j, h) (release_locks s locks) <-> In (j, h) locks /\ h <> s.
Proof.
  unfold release_locks. rewrite filter_In. cbn [snd].
  rewrite negb_true_iff, Nat.eqb_neq. reflexivity.
Qed.

Lemma locked_by_other_in (db : database) (s h : session) (j : string) :
  In (j, h) (row_locks db) -> h <> s -> locked_by_other db s j = true.
Proof.
  intros Hin Hne. unfold locked_by_other. apply existsb_exists.
  exists (j, h). split; [exact Hin|]. cbn [fst snd].
  rewrite String.eqb_refl. apply Nat.eqb_neq in Hne. now rewrite Hne.
Qed.

(** A handed job cannot be taken by a claim of an idle worker. *)
Lemma handed_not_claimable (sys : system) (s s0 : session) (j : string) (r : scan_job) :
  consistent sys ->
  In (s0, j) (sys_handed sys) ->
  sys_workers sys s = Idle ->
  In r (scan_jobs (sys_db sys)) ->
  claimable (sys_db sys) s r = true ->
  job_id r <> j.
Proof.
  intros C Hh Hidle Hr Hc Hj.
  unfold claimable in Hc. apply andb_true_iff in Hc. destruct Hc as [Hq Hl].
  apply String.eqb_eq in Hq. apply negb_true_iff in Hl.
  destruct (handed_settled sys C s0 j Hh) as [Hs|(d & Hw & Hd & Hlock)].
  - exact (Hs r Hr Hj Hq).
  - destruct (Nat.eq_dec s0 s) as [E|N].
    + subst s0. congruence.
    + rewrite Hj in Hl. rewrite (locked_by_other_in _ s s0 j Hlock N) in Hl.
      discriminate Hl.
Qed.


(** What a status update of session [s] does to the tables and the locks. *)
Lemma update_scan_status_effect (s : session) (db : database) (id status : string)
    (p : option Z) :
  let db' := conn_db (update_scan_status (as_conn s db) id status p) in
  row_locks db' = release_locks s (row_locks db)
  /\ map job_id (scan_jobs db') = map job_id (scan_jobs db)
  /\ (forall r', In r' (scan_jobs db') ->
      exists r, In r (scan_jobs db) /\ job_id r' = job_id r
        /\ ((job_id r = id /\ job_status r' = status)
            \/ (job_id r <> id /\ r' = r))).
Proof.
  cbv zeta. unfold update_scan_status.
  assert (Hgen : forall set,
            (forall r, job_id (set r) = job_id r /\ job_status (set r) = status) ->
            map job_id (update_where_id id set (scan_jobs db)) = map job_id (scan_jobs db)
            /\ (forall r', In r' (update_where_id id set (scan_jobs db)) ->
                exists r, In r (scan_jobs db) /\ job_id r' = job_id r
                  /\ ((job_id r = id /\ job_status r' = status)
                      \/ (job_id r <> id /\ r' = r)))).
  { intros set Hset. split.
    - unfold update_where_id. rewrite map_map. apply map_ext. intros r.
      destruct (String.eqb (job_id r) id); [apply Hset | reflexivity].
    - intros r' Hr'. unfold update_where_id in Hr'. apply in_map_iff in Hr'.
      destruct Hr' as (r & Er & Hr). exists r. split; [exact Hr|].
      destruct (String.eqb_spec (job_id r) id) as [E|N]; subst r'.
      + destruct (Hset r) as [H1 H2]. split; [exact H1|]. left. auto.
      + split; [reflexivity|]. right. auto. }
  destruct (String.eqb_spec status "running") as [E1|N1];
    [|destruct (String.eqb_spec status "completed") as [E2|N2];
      [|destruct (String.eqb_spec status "failed") as [E3|N3]]];
    cbn [commit with_jobs as_conn conn_db conn_session row_locks scan_jobs];
    (split; [reflexivity|]); apply Hgen; intros r; subst; split; reflexivity.
Qed.

Lemma set_worker_same ws s w : set_worker ws s w s = w.
Proof. unfold set_worker. now rewrite Nat.eqb_refl. Qed.

Lemma set_worker_other ws s w s' : s' <> s -> set_worker ws s w s' = ws s'.
Proof. intros H. unfold set_worker. apply Nat.eqb_neq in H. now rewrite H. Qed.

(** A worker that commits a status other than [queued] for the job it
    holds, or for a job it has started, keeps the pool consistent. *)
Lemma consistent_update (db : database) ws h (s : session) (id status : string)
    (p : option Z) (w' : worker_state) :
  consistent (mkSys db ws h) ->
  status <> "queued" ->
  (forall d, w' <> Claimed d) ->
  (forall d, ws s = Claimed d -> data_id d = id) ->
  consistent (mkSys (conn_db (update_scan_status (as_conn s db) id status p))
                    (set_worker ws s w') h).
Proof.
  intros C Hst Hw' Hheld.
  destruct (update_scan_status_effect s db id status p) as (Hlocks & Hids & Hrows).
  set (db' := conn_db (update_scan_status (as_conn s db) id status p)) in *.
  constructor; cbn [sys_db sys_workers sys_handed].
  - intros s0 j Hin.
    destruct (handed_settled _ C s0 j Hin) as [Hs|(d & Hw & Hd & Hlock)];
      cbn [sys_db sys_workers] in *.
    + left. intros r' Hr' Hj.
      destruct (Hrows r' Hr') as (r & Hr & Hid & [[_ Hs']|[_ ->]]).
      * congruence.
      * apply (Hs r Hr). congruence.
    + destruct (Nat.eq_dec s0 s) as [E|N].
      * subst s0. left. intros r' Hr' Hj.
        destruct (Hrows r' Hr') as (r & Hr & Hid & [[_ Hs']|[Hne ->]]).
        -- congruence.
        -- exfalso. apply Hne. rewrite <- (Hheld d Hw). congruence.
      * right. exists d. rewrite set_worker_other by exact N.
        repeat split; try assumption.
        rewrite Hlocks. apply in_release_locks. auto.
  - intros j s0 Hin. rewrite Hlocks in Hin. apply in_release_locks in Hin.
    destruct Hin as [Hin Hne]. rewrite set_worker_other by exact Hne.
    exact (locks_claimed _ C j s0 Hin).
  - exact (handed_once (mkSys db ws h) C).
  - intros s0 d Hw. destruct (Nat.eq_dec s0 s) as [E|N].
    + subst s0. rewrite set_worker_same in Hw. exfalso. exact (Hw' d Hw).
    + rewrite set_worker_other in Hw by exact N.
      rewrite Hlocks. apply in_release_locks. split; [|exact N].
      exact (claimed_locked _ C s0 d Hw).
  - intros s0 j Hin. rewrite Hids. exact (handed_known _ C s0 j Hin).
Qed.


(** Saving a result row: the job table is untouched. *)
Lemma consistent_save (db : database) ws h (s : session)
    (scan_id check_type status : string) (data : json) (findings : Z)
    (severity : string) (w' : worker_state) :
  consistent (mkSys db ws h) ->
  (forall d, w' <> Claimed d) ->
  (forall d, ws s <> Claimed d) ->
  consistent (mkSys (conn_db (save_scan_result (as_conn s db) scan_id check_type
                                status data findings severity))
                    (set_worker ws s w') h).
Proof.
  intros C Hw' Hws.
  constructor; cbn [sys_db sys_workers sys_handed save_scan_result commit
                    with_results as_conn conn_db conn_session row_locks scan_jobs].
  - intros s0 j Hin.
    destruct (handed_settled _ C s0 j Hin) as [Hs|(d & Hw & Hd & Hlock)];
      cbn [sys_db sys_workers] in *.
    + left. exact Hs.
    + assert (N : s0 <> s) by (intros E; subst s0; exact (Hws d Hw)).
      right. exists d. rewrite set_worker_other by exact N.
      repeat split; try assumption. apply in_release_locks. auto.
  - intros j s0 Hin. apply in_release_locks in Hin.
    destruct Hin as [Hin Hne]. rewrite set_worker_other by exact Hne.
    exact (locks_claimed _ C j s0 Hin).
  - exact (handed_once (mkSys db ws h) C).
  - intros s0 d Hw. destruct (Nat.eq_dec s0 s) as [E|N].
    + subst s0. rewrite set_worker_same in Hw. exfalso. exact (Hw' d Hw).
    + rewrite set_worker_other in Hw by exact N.
      apply in_release_locks. split; [|exact N].
      exact (claimed_locked _ C s0 d Hw).
  - exact (handed_known (mkSys db ws h) C).
Qed.

(** The row a claim returns is claimable, and has not been handed out. *)
Lemma claim_fresh (db : database) ws h (s : session) (data : scan_data)
    (c' : connection) :
  consistent (mkSys db ws h) ->
  ws s = Idle ->
  get_queued_scans (as_conn s db) = (Some data, c') ->
  ~ In (data_id data) (map snd h)
  /\ In (data_id data) (map job_id (scan_jobs db))
  /\ scan_jobs (conn_db c') = scan_jobs db
  /\ row_locks (conn_db c') = (data_id data, s) :: row_locks db.
Proof.
  intros C Hidle Hget.
  destruct (get_queued_scans_some _ _ _ Hget) as (r & Ho & Hd & Hjobs & Hlocks).
  cbn [as_conn conn_db conn_session] in *.
  destruct (oldest_least _ _ Ho) as [Hin _].
  apply filter_In in Hin. destruct Hin as [Hin Hc].
  assert (Hid : data_id data = job_id r) by (subst data; reflexivity).
  rewrite Hid. repeat split; try assumption.
  - intros Hh. apply in_map_iff in Hh. destruct Hh as ([s0 j] & Hj & Hh).
    cbn [snd] in Hj. subst j.
    exact (handed_not_claimable (mkSys db ws h) s s0 (job_id r) r C Hh Hidle Hin Hc
             eq_refl).
  - apply in_map. exact Hin.
Qed.

Lemma consistent_claim (db : database) ws h (s : session) (data : scan_data)
    (c' : connection) :
  consistent (mkSys db ws h) ->
  ws s = Idle ->
  get_queued_scans (as_conn s db) = (Some data, c') ->
  consistent (mkSys (conn_db c') (set_worker ws s (Claimed data))
                    (h ++ [(s, data_id data)])).
Proof.
  intros C Hidle Hget.
  destruct (claim_fresh db ws h s data c' C Hidle Hget)
    as (Hfresh & Hknown & Hjobs & Hlocks).
  assert (Hnolock : forall j, ~ In (j, s) (row_locks db)).
  { intros j Hj. destruct (locks_claimed _ C j s Hj) as (d & Hw & _).
    cbn in Hw. congruence. }
  constructor; cbn [sys_db sys_workers sys_handed].
  - intros s0 j Hin. apply in_app_or in Hin. destruct Hin as [Hin|[Hin|[]]].
    + destruct (handed_settled _ C s0 j Hin) as [Hs|(d & Hw & Hd & Hlock)];
        cbn [sys_db sys_workers] in *.
      * left. rewrite Hjobs. exact Hs.
      * assert (N : s0 <> s) by (intros E; subst s0; congruence).
        right. exists d. rewrite set_worker_other by exact N.
        repeat split; try assumption. rewrite Hlocks. right. exact Hlock.
    + inversion Hin; subst s0 j. right. exists data.
      rewrite set_worker_same. repeat split. rewrite Hlocks. left. reflexivity.
  - intros j s0 Hin. rewrite Hlocks in Hin. destruct Hin as [Hin|Hin].
    + inversion Hin; subst. exists data. now rewrite set_worker_same.
    + assert (N : s0 <> s) by (intros E; subst s0; exact (Hnolock j Hin)).
      rewrite set_worker_other by exact N.
      exact (locks_claimed _ C j s0 Hin).
  - rewrite map_app. cbn [map snd]. apply NoDup_app.
    + exact (handed_once (mkSys db ws h) C).
    + repeat constructor. intros [].
    + intros j Hj [<-|[]]. exact (Hfresh Hj).
  - intros s0 d Hw. rewrite Hlocks. destruct (Nat.eq_dec s0 s) as [E|N].
    + subst s0. rewrite set_worker_same in Hw. inversion Hw; subst d.
      left. reflexivity.
    + rewrite set_worker_other in Hw by exact N. right.
      exact (claimed_locked _ C s0 d Hw).
  - intros s0 j Hin. rewrite Hjobs. apply in_app_or in Hin.
    destruct Hin as [Hin|[Hin|[]]].
    + exact (handed_known _ C s0 j Hin).
    + inversion Hin; subst. exact Hknown.
Qed.

Lemma consistent_enqueue (db : database) ws h (r : scan_job) :
  consistent (mkSys db ws h) ->
  ~ In (job_id r) (map job_id (scan_jobs db)) ->
  consistent (mkSys (enqueue db r) ws h).
Proof.
  intros C Hfresh.
  constructor; cbn [sys_db sys_workers sys_handed enqueue scan_jobs row_locks].
  - intros s0 j Hin.
    destruct (handed_settled _ C s0 j Hin) as [Hs|Hr]; cbn [sys_db sys_workers] in *.
    + left. intros r' Hr' Hj. apply in_app_or in Hr'. destruct Hr' as [Hr'|[<-|[]]].
      * exact (Hs r' Hr' Hj).
      * exfalso. apply Hfresh. rewrite Hj.
        exact (handed_known _ C s0 j Hin).
    + right. exact Hr.
  - exact (locks_claimed (mkSys db ws h) C).
  - exact (handed_once (mkSys db ws h) C).
  - exact (claimed_locked (mkSys db ws h) C).
  - intros s0 j Hin. rewrite map_app. apply in_or_app. left.
    exact (handed_known _ C s0 j Hin).
Qed.

Lemma step_consistent (sys sys' : system) :
  consistent sys -> step sys sys' -> consistent sys'.
Proof.
  intros C Hstep. destruct Hstep.
  - eapply consistent_claim; eassumption.
  - unfold get_queued_scans in H0.
    destruct (oldest _); [discriminate H0|]. inversion H0; subst c'. exact C.
  - apply consistent_update; try assumption; try discriminate.
    intros d Hd. rewrite H in Hd. inversion Hd. reflexivity.
  - apply consistent_update; try assumption; try discriminate.
    intros d Hd. rewrite H in Hd. inversion Hd. reflexivity.
  - apply consistent_save; try assumption; try discriminate.
    intros d Hd. rewrite H in Hd. discriminate Hd.
  - apply consistent_update; try assumption; try discriminate.
    intros d Hd. rewrite H in Hd. discriminate Hd.
  - apply consistent_update; try assumption; try discriminate.
    intros d Hd. rewrite H in Hd. discriminate Hd.
  - now apply consistent_enqueue.
Qed.

Lemma steps_consistent (sys sys' : system) :
  consistent sys -> steps sys sys' -> consistent sys'.
Proof.
  intros C Hsteps. induction Hsteps; [exact C|].
  eapply step_consistent; [|eassumption]. auto.
Qed.

End PoolInvariant.

(** The workers of the pool run [process_scan]. *)

Section SoloRun.

Import ScanWorker Pool.

Variable world : nat -> adapters.

Lemma steps_trans (a b c : system) : steps a b -> steps b c -> steps a c.
Proof.
  intros Hab Hbc. induction Hbc; [exact Hab|].
  eapply steps_snoc; [|eassumption]. auto.
Qed.

Lemma steps_one (a b : system) : step a b -> steps a b.
Proof. intros H. eapply steps_snoc; [apply steps_refl | exact H]. Qed.

Lemma same_store_update (c1 c2 : connection) (id status : string) (p : option Z) :
  same_store c1 c2 ->
  same_store (update_scan_status c1 id status p) (update_scan_status c2 id status p).
Proof.
  intros [Hs Hd]. destruct c1 as [s1 d1 l1], c2 as [s2 d2 l2]. cbn in Hs, Hd. subst.
  split; reflexivity.
Qed.

Lemma same_store_save (c1 c2 : connection) (id ct st : string) (d : json) (f : Z)
    (sv : string) :
  same_store c1 c2 ->
  same_store (save_scan_result c1 id ct st d f sv) (save_scan_result c2 id ct st d f sv).
Proof.
  intros [Hs Hd]. destruct c1 as [s1 d1 l1], c2 as [s2 d2 l2]. cbn in Hs, Hd. subst.
  split; reflexivity.
Qed.

Lemma same_store_run_checks (id target : string) (total : Z) (checks : list string) :
  forall c1 c2 i,
    same_store c1 c2 ->
    same_store (run_checks world c1 id target total i checks)
               (run_checks world c2 id target total i checks).
Proof.
  induction checks as [|c rest IH]; intros c1 c2 i H; cbn [run_checks]; [exact H|].
  apply IH. apply same_store_update. apply same_store_save. exact H.
Qed.

Lemma as_conn_same (s : session) (c : connection) :
  conn_session c = s -> same_store (as_conn s (conn_db c)) c.
Proof. intros H. split; [symmetry; exact H | reflexivity]. Qed.

(** A worker left alone runs the loop of [process_scan] to the end. *)
Lemma solo_run_checks (s : session) (id target : string) (total : Z)
    (checks : list string) : forall db ws h i,
  ws s = Checking id target total i checks ->
  exists ws',
    steps (mkSys db ws h)
          (mkSys (conn_db
                    (update_scan_status
                       (run_checks world (as_conn s db) id target total i checks)
                       id "completed" None))
                 ws' h)
    /\ ws' s = Idle
    /\ (forall s', s' <> s -> ws' s' = ws s').
Proof.
  induction checks as [|c rest IH]; intros db ws h i Hw.
  - exists (set_worker ws s Idle). split; [|split].
    + apply steps_one. cbn [run_checks]. eapply step_complete. exact Hw.
    + apply set_worker_same.
    + intros s' Hs'. now apply set_worker_other.
  - cbn [run_checks].
    set (r := execute_check (world i) c target).
    set (c1 := save_scan_result (as_conn s db) id c (dict_get (res_status r) "success")
                 (dict_get (res_data r) (JDict [])) (dict_get (res_findings r) 0)
                 (dict_get (res_severity r) "info")).
    set (c2 := update_scan_status c1 id "running"
                 (Some (progress_percent (Z.of_nat i + 1) total))).
    set (ws1 := set_worker ws s (Saved id target total i rest)).
    set (ws2 := set_worker ws1 s (Checking id target total (S i) rest)).
    assert (S1 : step (mkSys db ws h) (mkSys (conn_db c1) ws1 h)).
    { unfold c1, r. eapply (step_check s db ws h id target total i c rest (world i)).
      exact Hw. }
    assert (S2 : step (mkSys (conn_db c1) ws1 h)
                      (mkSys (conn_db (update_scan_status (as_conn s (conn_db c1)) id
                                "running"
                                (Some (progress_percent (Z.of_nat i + 1) total))))
                             ws2 h)).
    { eapply step_progress. apply set_worker_same. }
    assert (E2 : same_store
                   (update_scan_status (as_conn s (conn_db c1)) id "running"
                      (Some (progress_percent (Z.of_nat i + 1) total))) c2).
    { apply same_store_update. apply as_conn_same. reflexivity. }
    destruct (IH (conn_db c2) ws2 h (S i)) as (ws' & Hsteps & Hidle & Hothers).
    { apply set_worker_same. }
    exists ws'. split; [|split].
    + eapply steps_trans; [apply steps_one; exact S1|].
      eapply steps_trans; [apply steps_one; exact S2|].
      destruct E2 as [_ E2]. rewrite E2.
      assert (E3 : same_store
                     (update_scan_status
                        (run_checks world (as_conn s (conn_db c2)) id target total (S i) rest)
                        id "completed" None)
                     (update_scan_status
                        (run_checks world c2 id target total (S i) rest)
                        id "completed" None)).
      { apply same_store_update. apply same_store_run_checks.
        apply as_conn_same. reflexivity. }
      destruct E3 as [_ E3]. rewrite <- E3. exact Hsteps.
    + exact Hidle.
    + intros s' Hs'. rewrite (Hothers s' Hs'). unfold ws2, ws1.
      now rewrite !set_worker_other.
Qed.

(** A worker left alone with the job it has claimed does what
    [process_scan] does. *)
Lemma solo_process_scan (s : session) (data : scan_data) (db : database) ws h :
  ws s = Claimed data ->
  exists ws',
    steps (mkSys db ws h)
          (mkSys (conn_db (process_scan world (as_conn s db) data)) ws' h)
    /\ ws' s = Idle
    /\ (forall s', s' <> s -> ws' s' = ws s').
Proof.
  destruct data as [[[[id tid] url] checks] org]. intros Hw.
  cbn [process_scan as_conn conn_db].
  destruct (resolve_target db tid url) as [target|] eqn:Hres.
  - set (c1 := update_scan_status (as_conn s db) id "running" (Some 0)).
    set (ws1 := set_worker ws s (Checking id target (Z.of_nat (List.length checks))
                                   0 checks)).
    assert (S1 : step (mkSys db ws h) (mkSys (conn_db c1) ws1 h)).
    { eapply step_start; eassumption. }
    destruct (solo_run_checks s id target (Z.of_nat (List.length checks)) checks
                (conn_db c1) ws1 h 0%nat) as (ws' & Hsteps & Hidle & Hothers).
    { apply set_worker_same. }
    exists ws'. split; [|split].
    + eapply steps_trans; [apply steps_one; exact S1|].
      assert (E : same_store
                    (update_scan_status
                       (run_checks world (as_conn s (conn_db c1)) id target
                          (Z.of_nat (List.length checks)) 0 checks) id "completed" None)
                    (update_scan_status
                       (run_checks world c1 id target
                          (Z.of_nat (List.length checks)) 0 checks) id "completed" None)).
      { apply same_store_update. apply same_store_run_checks.
        apply as_conn_same. reflexivity. }
      destruct E as [_ E]. rewrite <- E. exact Hsteps.
    + exact Hidle.
    + intros s' Hs'. rewrite (Hothers s' Hs'). unfold ws1.
      now rewrite set_worker_other.
  - exists (set_worker ws s Idle). split; [|split].
    + apply steps_one. eapply step_unresolved; eassumption.
    + apply set_worker_same.
    + intros s' Hs'. now apply set_worker_other.
Qed.

End SoloRun.

(** C1.  In every run of a pool of workers that claim concurrently from one
    table, each job is returned by [get_queued_scans] at most once.  The
    claim is atomic with the transition to [running] as far as claimers can
    tell: from the moment a worker has been handed a job until it commits
    the new status, the row is locked and no claim of another worker returns
    it; once committed, the job is no longer queued.  So no job that has
    been handed out can be returned by a later claim. *)
Theorem claim_hands_each_job_once (sys0 sys : Pool.system) :
  Pool.initial sys0 ->
  Pool.steps sys0 sys ->
  NoDup (map snd (Pool.sys_handed sys))
  /\ (forall s d s' d' c',
        Pool.sys_workers sys s = Pool.Claimed d ->
        s' <> s ->
        ScanWorker.get_queued_scans (Pool.as_conn s' (Pool.sys_db sys)) = (Some d', c') ->
        ScanWorker.data_id d' <> ScanWorker.data_id d)
  /\ (forall s j s' d' c',
        In (s, j) (Pool.sys_handed sys) ->
        Pool.sys_workers sys s' = Pool.Idle ->
        ScanWorker.get_queued_scans (Pool.as_conn s' (Pool.sys_db sys)) = (Some d', c') ->
        ScanWorker.data_id d' <> j).
Proof.
  intros Hinit Hsteps.
  pose proof (steps_consistent _ _ (initial_consistent _ Hinit) Hsteps) as C.
  destruct sys as [db ws h]. cbn [Pool.sys_db Pool.sys_workers Pool.sys_handed].
  repeat split.
  - exact (Pool.handed_once _ C).
  - intros s d s' d' c' Hw Hne Hget Hid.
    pose proof (Pool.claimed_locked _ C s d Hw) as Hlock. cbn in Hlock.
    destruct (get_queued_scans_some _ _ _ Hget) as (r & Ho & Hd & _).
    cbn [Pool.as_conn conn_db conn_session] in Ho.
    destruct (oldest_least _ _ Ho) as [Hin _].
    apply filter_In in Hin. destruct Hin as [_ Hc].
    unfold ScanWorker.claimable in Hc. apply andb_true_iff in Hc.
    destruct Hc as [_ Hl]. apply negb_true_iff in Hl.
    assert (Hr : ScanWorker.data_id d' = job_id r) by (subst d'; reflexivity).
    rewrite <- Hr, Hid in Hl.
    rewrite (locked_by_other_in db s' s _ Hlock) in Hl; [discriminate Hl|].
    intros E. apply Hne. symmetry. exact E.
  - intros s j s' d' c' Hin Hidle Hget Hid.
    destruct (claim_fresh db ws h s' d' c' C Hidle Hget) as (Hfresh & _).
    apply Hfresh. rewrite Hid. change j with (snd (s, j)). apply in_map. exact Hin.
Qed.

(** Two workers claim one after the other from [db0]: the first is handed
    job-1, the second job-2, while job-1 is still [queued] in the table. *)
Lemma claim_hands_each_job_once_witness :
  exists sys,
    Pool.steps Examples.pool0 sys
    /\ Pool.sys_handed sys = [(1%nat, "job-1"); (2%nat, "job-2")]
    /\ option_map job_status (find_job (Pool.sys_db sys) "job-1") = Some "queued"
    /\ NoDup (map snd (Pool.sys_handed sys)).
Proof.
  eexists. split; [|split; [|split]].
  - eapply Pool.steps_snoc.
    + eapply Pool.steps_snoc; [apply Pool.steps_refl|].
      eapply (Pool.step_claim 1%nat); reflexivity.
    + eapply (Pool.step_claim 2%nat); reflexivity.
  - reflexivity.
  - reflexivity.
  - refine (proj1 (claim_hands_each_job_once Examples.pool0 _ _ _)).
    + repeat split.
    + eapply Pool.steps_snoc.
      * eapply Pool.steps_snoc; [apply Pool.steps_refl|].
        eapply (Pool.step_claim 1%nat); reflexivity.
      * eapply (Pool.step_claim 2%nat); reflexivity.
Defined.

(** ** The worked example of the specification *)

(** A job with checks [["ping"; "headers"]]: two result rows in list order,
    progress 50 then 100 after the two checks, and the job ends
    [completed]. *)
Lemma example_ping_headers :
  let conn' :=
    ScanWorker.process_scan Examples.calm Examples.conn0
      ("job-1", None, Some "example.com", ["ping"; "headers"], None) in
  map sr_check_type (scan_results (conn_db conn')) = ["ping"; "headers"]
  /\ map (polled_progress_after "job-1" Examples.conn0 conn') [1%nat; 2%nat]
     = [Some 50; Some 100]
  /\ job_view "job-1" (conn_db conn') = Some ("completed", 100).
Proof. vm_compute. repeat split; reflexivity. Qed.

(** * Further properties *)

(** ** Frames of the store operations *)

Section Frames.

Variable scan_id : string.

Lemma job_frame_refl (r : scan_job) : job_frame scan_id r r.
Proof. repeat split. Qed.

Lemma job_frame_trans (a b c : scan_job) :
  job_frame scan_id a b -> job_frame scan_id b c -> job_frame scan_id a c.
Proof.
  intros (A1 & A2 & A3 & A4 & A5 & A6 & A7) (B1 & B2 & B3 & B4 & B5 & B6 & B7).
  repeat split; try congruence.
  intros N. rewrite <- (A7 N). apply B7. rewrite (A7 N). exact N.
Qed.

Lemma Forall2_job_frame_refl (rows : list scan_job) :
  Forall2 (job_frame scan_id) rows rows.
Proof. induction rows; constructor; auto using job_frame_refl. Qed.

Lemma Forall2_job_frame_trans (a : list scan_job) : forall b c,
  Forall2 (job_frame scan_id) a b -> Forall2 (job_frame scan_id) b c ->
  Forall2 (job_frame scan_id) a c.
Proof.
  induction a as [|x a IH]; intros b c Hab Hbc; inversion Hab; subst;
    inversion Hbc; subst; constructor; eauto using job_frame_trans.
Qed.

Lemma update_where_id_frame (set : scan_job -> scan_job) (rows : list scan_job) :
  (forall r, job_id r = scan_id -> job_frame scan_id r (set r)) ->
  Forall2 (job_frame scan_id) rows (update_where_id scan_id set rows).
Proof.
  intros Hset. induction rows as [|r rows IH]; cbn; constructor; [|exact IH].
  destruct (String.eqb_spec (job_id r) scan_id); [now apply Hset | apply job_frame_refl].
Qed.

Lemma frame_by_run_frame (before after : connection) (rows : list scan_result) :
  frame_by scan_id before after rows ->
  run_frame scan_id before after /\ new_results before after = rows.
Proof.
  intros (Hj & Ht & Hr & Hs).
  assert (E : new_results before after = rows).
  { unfold new_results. rewrite Hr. apply skipn_app_exact. }
  split; [|exact E]. unfold run_frame. rewrite E. auto.
Qed.

Lemma frame_by_refl (c : connection) : frame_by scan_id c c [].
Proof.
  repeat split; auto using Forall2_job_frame_refl. now rewrite app_nil_r.
Qed.

Lemma frame_by_trans (a b c : connection) (r1 r2 : list scan_result) :
  frame_by scan_id a b r1 -> frame_by scan_id b c r2 -> frame_by scan_id a c (r1 ++ r2).
Proof.
  intros (A1 & A2 & A3 & A4) (B1 & B2 & B3 & B4). repeat split.
  - eauto using Forall2_job_frame_trans.
  - congruence.
  - rewrite B3, A3, app_assoc. reflexivity.
  - apply Forall_app. auto.
Qed.

Lemma frame_polled_status (c : connection) (status : string) (p : option Z) :
  frame_by scan_id c (ScanWorker.update_scan_status c scan_id status p) [].
Proof.
  unfold ScanWorker.update_scan_status. repeat split.
  - destruct (String.eqb status "running"); [|destruct (String.eqb status "completed");
      [|destruct (String.eqb status "failed")]];
      cbn [commit with_jobs conn_db scan_jobs];
      apply update_where_id_frame; intros r E; repeat split; intros N; contradiction.
  - cbn. now rewrite app_nil_r.
  - constructor.
Qed.

Lemma frame_polled_save (c : connection) (ct st : string) (d : json) (f : Z)
    (sv : string) :
  frame_by scan_id c (ScanWorker.save_scan_result c scan_id ct st d f sv)
           [mkScanResult scan_id ct st d f sv].
Proof.
  repeat split; cbn; auto using Forall2_job_frame_refl.
Qed.

Lemma frame_task_status (c : connection) (status : string) (t : option Z) :
  frame_by scan_id c (CeleryTask.update_scan_status c scan_id status t) [].
Proof.
  unfold CeleryTask.update_scan_status. repeat split.
  - destruct t; [|destruct (String.eqb status "running")];
      cbn [commit with_jobs conn_db scan_jobs];
      apply update_where_id_frame; intros r E; repeat split; intros N; contradiction.
  - cbn. now rewrite app_nil_r.
  - constructor.
Qed.

Lemma frame_task_progress (c : connection) (p : Z) :
  frame_by scan_id c (CeleryTask.update_scan_progress c scan_id p) [].
Proof.
  unfold CeleryTask.update_scan_progress. repeat split.
  - cbn [commit with_jobs conn_db scan_jobs].
    apply update_where_id_frame; intros r E; repeat split; intros N; contradiction.
  - cbn. now rewrite app_nil_r.
  - constructor.
Qed.

Lemma frame_task_store (c : connection) (ct st : string) (d : json) (f : Z)
    (sv : string) :
  frame_by scan_id c (CeleryTask.store_scan_result c scan_id ct st d f sv)
           [mkScanResult scan_id ct st d f sv].
Proof.
  repeat split; cbn; auto using Forall2_job_frame_refl.
Qed.

End Frames.

(** ** The rows of the polling worker's loop *)

Section PolledFrames.

Variable world : nat -> adapters.
Variables scan_id target : string.
Variable total_checks : Z.

Lemma run_checks_frame (checks : list string) : forall c i,
  frame_by scan_id c
    (ScanWorker.run_checks world c scan_id target total_checks i checks)
    (result_rows world scan_id target i checks).
Proof.
  induction checks as [|n rest IH]; intros c i; cbn [ScanWorker.run_checks result_rows].
  - apply frame_by_refl.
  - eapply (frame_by_trans scan_id _ _ _ [_]); [|apply IH].
    rewrite <- (app_nil_r [_]).
    eapply frame_by_trans; [apply frame_polled_save | apply frame_polled_status].
Qed.

Lemma run_checks_results_trace (checks : list string) : forall c i,
  exists extra,
    conn_commits (ScanWorker.run_checks world c scan_id target total_checks i checks)
    = conn_commits c ++ extra
    /\ map scan_results extra
       = results_trace (scan_results (conn_db c))
                       (result_rows world scan_id target i checks).
Proof.
  induction checks as [|n rest IH]; intros c i; cbn [ScanWorker.run_checks result_rows].
  - exists []. now rewrite app_nil_r.
  - set (r := ScanWorker.execute_check (world i) n target).
    set (c1 := ScanWorker.save_scan_result c scan_id n _ _ _ _).
    set (c2 := ScanWorker.update_scan_status c1 scan_id "running" _).
    destruct (IH c2 (S i)) as (extra & Hc & Hm).
    exists (conn_db c1 :: conn_db c2 :: extra). split.
    + rewrite Hc. change (conn_commits c2) with (conn_commits c1 ++ [conn_db c2]).
      change (conn_commits c1) with (conn_commits c ++ [conn_db c1]).
      rewrite <- !app_assoc. reflexivity.
    + cbn [map results_trace]. rewrite Hm. reflexivity.
Qed.

End PolledFrames.

Lemma results_trace_nth (rows : list scan_result) : forall base j,
  (j < 2 * List.length rows)%nat ->
  nth j (results_trace base rows) [] = base ++ firstn (j / 2 + 1) rows.
Proof.
  induction rows as [|r rest IH]; intros base j Hj; cbn [List.length] in Hj; [lia|].
  cbn [results_trace]. destruct j as [|[|j]].
  - reflexivity.
  - reflexivity.
  - cbn [nth]. rewrite IH by lia.
    replace (S (S j) / 2)%nat with (S (j / 2)).
    + cbn [firstn Nat.add]. rewrite <- app_assoc. reflexivity.
    + change (S (S j)) with (2 + j)%nat.
      replace (2 + j)%nat with (j + 1 * 2)%nat by lia.
      rewrite Nat.div_add by lia. lia.
Qed.

Lemma results_trace_length (rows : list scan_result) : forall base,
  List.length (results_trace base rows) = (2 * List.length rows)%nat.
Proof.
  induction rows as [|r rest IH]; intros base; cbn [results_trace List.length];
    [reflexivity|]. rewrite IH. lia.
Qed.

Lemma result_rows_length world scan_id target (checks : list string) : forall i,
  List.length (result_rows world scan_id target i checks) = List.length checks.
Proof.
  intros i. rewrite <- (result_rows_check_types world scan_id target checks i) at 2.
  now rewrite length_map.
Qed.

(** ** What the executors leave alone, and what they add *)

Section TaskFrames.

Variable world : nat -> adapters.
Variables scan_id target : string.
Variable cfg : config.
Variable total_checks : Z.

Lemma task_run_checks_frame (checks : list string) : forall c k done,
  let out := CeleryTask.run_checks world c scan_id target cfg total_checks k done checks in
  frame_by scan_id c (fst out) (task_result_rows world scan_id target cfg k checks)
  /\ snd out = done + Z.of_nat (List.length (filter registered checks)).
Proof.
  induction checks as [|n rest IH]; intros c k done;
    cbn [CeleryTask.run_checks task_result_rows filter].
  - cbn. split; [apply frame_by_refl | lia].
  - unfold registered at 1. destruct (lookup_check n) as [cid|].
    + match goal with
      | |- context [CeleryTask.run_checks world ?c2 _ _ _ _ _ _ rest] =>
          destruct (IH c2 (S k) (done + 1)) as [Hf Hd]
      end.
      cbv zeta in Hf, Hd |- *. split.
      * eapply (frame_by_trans scan_id _ _ _ [_]); [|exact Hf].
        rewrite <- (app_nil_r [_]).
        eapply frame_by_trans; [|apply frame_task_progress].
        destruct (world k cid target cfg); apply frame_task_store.
      * rewrite Hd. cbn [List.length]. lia.
    + apply IH.
Qed.

End TaskFrames.

Lemma task_result_rows_check_types world scan_id target cfg (checks : list string) :
  forall k,
    map sr_check_type (task_result_rows world scan_id target cfg k checks)
    = filter registered checks.
Proof.
  induction checks as [|n rest IH]; intros k; cbn [task_result_rows filter];
    [reflexivity|].
  unfold registered at 1. destruct (lookup_check n) as [cid|]; [|apply IH].
  cbn [map]. rewrite IH. f_equal.
  destruct (world k cid target cfg); reflexivity.
Qed.

Lemma task_result_rows_status world scan_id target cfg (checks : list string) :
  forall k,
    Forall (fun row => sr_status row = "success" \/ sr_status row = "failed")
           (task_result_rows world scan_id target cfg k checks).
Proof.
  induction checks as [|n rest IH]; intros k; cbn [task_result_rows]; [constructor|].
  destruct (lookup_check n) as [cid|]; [|apply IH].
  constructor; [|apply IH].
  destruct (world k cid target cfg); cbn; auto.
Qed.

Lemma process_scan_frame_by (world : nat -> adapters) (conn : connection)
    (scan_id : string) (target_id url : option string) (checks : list string)
    (org_id : option string) :
  frame_by scan_id conn
    (ScanWorker.process_scan world conn (scan_id, target_id, url, checks, org_id))
    (match ScanWorker.resolve_target (conn_db conn) target_id url with
     | Some target => result_rows world scan_id target 0 checks
     | None => []
     end).
Proof.
  cbn [ScanWorker.process_scan].
  destruct (ScanWorker.resolve_target (conn_db conn) target_id url) as [target|].
  - rewrite <- (app_nil_r (result_rows _ _ _ _ _)).
    eapply frame_by_trans; [|apply frame_polled_status].
    change (result_rows world scan_id target 0 checks)
      with ([] ++ result_rows world scan_id target 0 checks).
    eapply frame_by_trans; [apply frame_polled_status | apply run_checks_frame].
  - apply frame_polled_status.
Qed.

Lemma execute_scan_frame_by (world : nat -> adapters) (conn : connection)
    (scan_id target : string) (checks : list string) (cfg : config) :
  let out := CeleryTask.execute_scan world conn scan_id target checks cfg in
  frame_by scan_id conn (fst out) (task_result_rows world scan_id target cfg 0 checks)
  /\ CeleryTask.sum_checks_completed (snd out)
     = Z.of_nat (List.length (filter registered checks))
  /\ CeleryTask.sum_checks_total (snd out) = Z.of_nat (List.length checks)
  /\ CeleryTask.sum_status (snd out) = "completed"
  /\ CeleryTask.sum_scan_id (snd out) = scan_id.
Proof.
  cbv zeta. unfold CeleryTask.execute_scan.
  set (c1 := CeleryTask.update_scan_status conn scan_id "running" None).
  set (c2 := CeleryTask.update_scan_progress c1 scan_id 0).
  pose proof (task_run_checks_frame world scan_id target cfg
                (Z.of_nat (List.length checks)) checks c2 0%nat 0) as [Hf Hd].
  cbv zeta in Hf, Hd.
  destruct (CeleryTask.run_checks world c2 scan_id target cfg _ 0 0 checks)
    as [c3 done]. cbn [fst snd] in *.
  split; [|split; [cbn; rewrite Hd; lia | repeat split]].
  rewrite <- (app_nil_r (task_result_rows _ _ _ _ _ _)).
  eapply frame_by_trans; [|apply frame_task_progress].
  rewrite <- (app_nil_r (task_result_rows _ _ _ _ _ _)).
  eapply frame_by_trans; [|apply frame_task_status].
  change (task_result_rows world scan_id target cfg 0 checks)
    with ([] ++ task_result_rows world scan_id target cfg 0 checks).
  eapply frame_by_trans; [|exact Hf].
  change (@nil scan_result) with (@nil scan_result ++ []).
  eapply frame_by_trans; [apply frame_task_status | apply frame_task_progress].
Qed.

(** X1.  Whatever the adapters do, [process_scan] keeps to its job: the rows of
    other jobs and the targets are as before, the job's own row keeps its
    id, target, url, checks, organization and creation time, and the result
    table only grows, by rows of that job. *)
Theorem process_scan_keeps_to_its_job (world : nat -> adapters) (conn : connection)
    (scan_id : string) (target_id url : option string) (checks : list string)
    (org_id : option string) :
  run_frame scan_id conn
    (ScanWorker.process_scan world conn (scan_id, target_id, url, checks, org_id)).
Proof.
  exact (proj1 (frame_by_run_frame scan_id _ _ _
                  (process_scan_frame_by world conn scan_id target_id url checks org_id))).
Qed.

(** X2.  [execute_scan] keeps to its job in the same way. *)
Theorem execute_scan_keeps_to_its_job (world : nat -> adapters) (conn : connection)
    (scan_id target : string) (checks : list string) (cfg : config) :
  run_frame scan_id conn
    (fst (CeleryTask.execute_scan world conn scan_id target checks cfg)).
Proof.
  exact (proj1 (frame_by_run_frame scan_id _ _ _
                  (proj1 (execute_scan_frame_by world conn scan_id target checks cfg)))).
Qed.

(** X3.  [execute_scan] stores one row per element of the check list whose
    name is registered, in list order, each with status [success] or
    [failed]; the dict it returns counts those rows as [checks_completed]
    and the whole list as [checks_total]. *)
Theorem execute_scan_rows_and_summary (world : nat -> adapters) (conn : connection)
    (scan_id target : string) (checks : list string) (cfg : config) :
  let out := CeleryTask.execute_scan world conn scan_id target checks cfg in
  let rows := new_results conn (fst out) in
  map sr_check_type rows = filter registered checks
  /\ Forall (fun row => sr_status row = "success" \/ sr_status row = "failed") rows
  /\ CeleryTask.sum_checks_completed (snd out) = Z.of_nat (List.length rows)
  /\ CeleryTask.sum_checks_total (snd out) = Z.of_nat (List.length checks)
  /\ CeleryTask.sum_checks_completed (snd out) <= CeleryTask.sum_checks_total (snd out)
  /\ CeleryTask.sum_status (snd out) = "completed".
Proof.
  cbv zeta.
  destruct (execute_scan_frame_by world conn scan_id target checks cfg)
    as (Hf & Hc & Ht & Hs & _). cbv zeta in Hf, Hc, Ht, Hs.
  destruct (frame_by_run_frame scan_id _ _ _ Hf) as [_ Hrows].
  rewrite Hrows, Hc, Ht, Hs.
  pose proof (task_result_rows_check_types world scan_id target cfg checks 0) as Hty.
  repeat split.
  - exact Hty.
  - apply task_result_rows_status.
  - rewrite <- Hty, length_map. reflexivity.
  - pose proof (filter_length_le registered checks). lia.
Qed.

(** X4.  Results are committed one by one.  In a run of [process_scan] on a
    resolved target, the [j]-th commit (from 0) leaves in [scan_results] the
    rows that were there plus the rows of the first [(j + 1) / 2] checks
    (all of them at the last commit): the row of check [k] is durable
    before check [k + 1] starts. *)
Theorem process_scan_results_durable (world : nat -> adapters) (conn : connection)
    (scan_id : string) (target_id url : option string) (checks : list string)
    (org_id : option string) (target : string) (j : nat) :
  ScanWorker.resolve_target (conn_db conn) target_id url = Some target ->
  (j < 2 * List.length checks + 2)%nat ->
  let conn' :=
    ScanWorker.process_scan world conn (scan_id, target_id, url, checks, org_id) in
  List.length (new_commits conn conn') = (2 * List.length checks + 2)%nat
  /\ nth j (map scan_results (new_commits conn conn')) []
     = scan_results (conn_db conn)
       ++ firstn (Nat.min (List.length checks) ((j + 1) / 2))
                 (result_rows world scan_id target 0 checks).
Proof.
  intros Hres Hj. cbv zeta. cbn [ScanWorker.process_scan]. rewrite Hres.
  set (T := Z.of_nat (List.length checks)).
  set (c1 := ScanWorker.update_scan_status conn scan_id "running" (Some 0)).
  destruct (run_checks_results_trace world scan_id target T checks c1 0%nat)
    as (extra & Hc & Hm).
  set (c2 := ScanWorker.run_checks world c1 scan_id target T 0 checks) in *.
  set (c3 := ScanWorker.update_scan_status c2 scan_id "completed" None).
  set (rows := result_rows world scan_id target 0 checks) in *.
  set (base := scan_results (conn_db conn)).
  assert (Hall : new_commits conn c3 = conn_db c1 :: extra ++ [conn_db c3]).
  { unfold new_commits.
    change (conn_commits c3) with (conn_commits c2 ++ [conn_db c3]).
    rewrite Hc. change (conn_commits c1) with (conn_commits conn ++ [conn_db c1]).
    rewrite <- !app_assoc. apply skipn_app_exact. }
  assert (Hlen : List.length rows = List.length checks)
    by apply result_rows_length.
  assert (Hel : List.length extra = (2 * List.length checks)%nat).
  { rewrite <- (length_map scan_results), Hm, results_trace_length, Hlen.
    reflexivity. }
  assert (H3 : scan_results (conn_db c3) = base ++ rows).
  { unfold c3. rewrite update_scan_status_results. unfold c2.
    rewrite run_checks_results. reflexivity. }
  rewrite Hall. split.
  - cbn [List.length]. rewrite length_app, Hel. cbn. lia.
  - cbn [map]. rewrite map_app, Hm. cbn [map].
    change (scan_results (conn_db c1)) with base.
    destruct j as [|j].
    + cbn. rewrite Nat.min_0_r. cbn. now rewrite app_nil_r.
    + cbn [nth].
      destruct (Nat.lt_ge_cases j (2 * List.length checks)) as [Hlt|Hge].
      * rewrite app_nth1 by (rewrite results_trace_length, Hlen; exact Hlt).
        rewrite results_trace_nth by (rewrite Hlen; exact Hlt).
        do 2 f_equal.
        assert (E : ((S j + 1) / 2 = j / 2 + 1)%nat).
        { replace (S j + 1)%nat with (j + 1 * 2)%nat by lia.
          rewrite Nat.div_add by lia. reflexivity. }
        rewrite E.
        assert (j / 2 < List.length checks)%nat
          by (apply Nat.Div0.div_lt_upper_bound; lia).
        lia.
      * assert (Ej : j = (2 * List.length checks)%nat) by lia.
        rewrite app_nth2 by (rewrite results_trace_length, Hlen; lia).
        rewrite results_trace_length, Hlen, Ej, Nat.sub_diag. cbn [nth].
        rewrite H3. f_equal.
        replace (S (2 * List.length checks) + 1)%nat
          with (0 + (List.length checks + 1) * 2)%nat by lia.
        rewrite Nat.div_add by lia. cbn [Nat.div Nat.add].
        rewrite Nat.min_l by lia. rewrite <- Hlen. symmetry. apply firstn_all.
Qed.

Lemma process_scan_results_durable_witness :
  let conn' :=
    ScanWorker.process_scan Examples.calm Examples.conn0
      ("job-1", None, Some "example.com", ["ping"; "headers"], None) in
  List.length (new_commits Examples.conn0 conn') = 6%nat
  /\ map sr_check_type
         (nth 2 (map scan_results (new_commits Examples.conn0 conn')) [])
     = ["ping"].
Proof.
  cbv zeta.
  destruct (process_scan_results_durable Examples.calm Examples.conn0 "job-1" None
              (Some "example.com") ["ping"; "headers"] None "example.com" 2%nat
              eq_refl ltac:(cbn; lia)) as [Hlen Hnth].
  split; [exact Hlen|]. rewrite Hnth. reflexivity.
Defined.

(** ** Well-formed rows *)

Lemma headers_severity_in (n : Z) : In (Checks.headers_severity n) SEVERITIES.
Proof.
  unfold Checks.headers_severity.
  destruct (5 <=? n); [|destruct (3 <=? n); [|destruct (0 <? n)]]; cbn; auto.
Qed.

Lemma portscan_severity_in (n : Z) : In (Checks.portscan_severity n) SEVERITIES.
Proof.
  unfold Checks.portscan_severity.
  destruct (20 <? n); [|destruct (10 <? n)]; cbn; auto.
Qed.

Lemma bruteforce_severity_in (n : Z) : In (Checks.bruteforce_severity n) SEVERITIES.
Proof.
  unfold Checks.bruteforce_severity.
  destruct (20 <? n); [|destruct (10 <? n)]; cbn; auto.
Qed.

(** What every result of an adapter looks like. *)
Lemma run_result_shape (w : Checks.env) (c : check_id) (target : string) (cfg : config) :
  exists r st n sv,
    Checks.run w c target cfg = Ok r
    /\ Checks.summary r = (Some st, Some n, Some sv)
    /\ (st = "success" \/ st = "failed")
    /\ 0 <= n
    /\ In sv SEVERITIES.
Proof.
  destruct c; cbn [Checks.run].
  - destruct (ping_check_cases w target cfg) as (r & E & H). exists r.
    cbn in H.
    repeat (destruct H as [H|H]; [do 3 eexists; split; [exact E|];
      split; [symmetry; exact H|]; cbn; repeat split; auto; lia|]).
    contradiction.
  - destruct (port_scan_check_cases w target cfg) as (r & E & [H|(n & Hn & H)]);
      exists r; do 3 eexists; (split; [exact E|]); (split; [exact H|]);
      repeat split; auto; try lia; cbn; auto. apply portscan_severity_in.
  - destruct (headers_check_cases w target cfg) as (r & E & [H|(n & Hn & H)]);
      exists r; do 3 eexists; (split; [exact E|]); (split; [exact H|]);
      repeat split; auto; try lia; cbn; auto. apply headers_severity_in.
  - destruct (ssl_check_cases w target cfg) as (r & E & H). exists r.
    cbn in H.
    repeat (destruct H as [H|H]; [do 3 eexists; split; [exact E|];
      split; [symmetry; exact H|]; cbn; repeat split; auto; lia|]).
    contradiction.
  - destruct (dns_check_cases w target cfg) as (r & n & E & Hn & [H|H]);
      exists r; do 3 eexists; (split; [exact E|]); (split; [exact H|]);
      repeat split; auto; cbn; auto.
  - destruct (bruteforce_check_cases w target cfg) as (r & E & [H|(n & Hn & H)]);
      exists r; do 3 eexists; (split; [exact E|]); (split; [exact H|]);
      repeat split; auto; try lia; cbn; auto. apply bruteforce_severity_in.
Qed.

(** X5.  With the adapters of the repository, the rows [process_scan] writes
    are well formed: the status is [success], [failed] or [error], and it is
    [error] exactly for the names that are not in [check_map]; the findings
    count is not negative; the severity is one of the four levels. *)
Theorem process_scan_rows_well_formed (w : nat -> Checks.env) (conn : connection)
    (scan_id : string) (target_id url : option string) (checks : list string)
    (org_id : option string) :
  Forall
    (fun row =>
       In (sr_status row) ["success"; "failed"; "error"]
       /\ (sr_status row = "error" <-> lookup_check (sr_check_type row) = None)
       /\ 0 <= sr_findings row
       /\ In (sr_severity row) SEVERITIES)
    (new_results conn
       (ScanWorker.process_scan (fun i => Checks.run (w i)) conn
          (scan_id, target_id, url, checks, org_id))).
Proof.
  destruct (frame_by_run_frame scan_id _ _ _
              (process_scan_frame_by (fun i => Checks.run (w i)) conn scan_id
                 target_id url checks org_id)) as [_ E].
  rewrite E. clear E.
  destruct (ScanWorker.resolve_target (conn_db conn) target_id url) as [target|];
    [|constructor].
  generalize 0%nat.
  induction checks as [|name rest IH]; intros i; cbn [result_rows]; constructor;
    [|apply IH].
  unfold ScanWorker.execute_check. cbn [sr_status sr_check_type sr_findings sr_severity result_row].
  destruct (lookup_check name) as [c|] eqn:Hc; cbn [option_map].
  - destruct (run_result_shape (w i) c target []) as (r & st & n & sv & E & Hs & Hst & Hn & Hsv).
    rewrite E. destruct r as [rs rd rf rv]. cbn in Hs. inversion Hs; subst. cbn.
    repeat split; try assumption.
    + destruct Hst; subst; auto.
    + intros He. destruct Hst; subst; discriminate.
    + discriminate.
  - cbn. repeat split; auto; lia.
Qed.

(** X6.  With the adapters of the repository, which catch their own failures,
    every row [execute_scan] stores has status [success], whatever status
    the adapter reported; its findings count is not negative and its
    severity is one of the four levels. *)
Theorem execute_scan_rows_all_success (w : nat -> Checks.env) (conn : connection)
    (scan_id target : string) (checks : list string) (cfg : config) :
  Forall
    (fun row =>
       sr_status row = "success"
       /\ registered (sr_check_type row) = true
       /\ 0 <= sr_findings row
       /\ In (sr_severity row) SEVERITIES)
    (new_results conn
       (fst (CeleryTask.execute_scan (fun k => Checks.run (w k)) conn scan_id
               target checks cfg))).
Proof.
  destruct (execute_scan_frame_by (fun k => Checks.run (w k)) conn scan_id target
              checks cfg) as (Hf & _). cbv zeta in Hf.
  destruct (frame_by_run_frame scan_id _ _ _ Hf) as [_ E].
  rewrite E. clear E Hf.
  generalize 0%nat.
  induction checks as [|name rest IH]; intros k; cbn [task_result_rows];
    [constructor|].
  destruct (lookup_check name) as [c|] eqn:Hc; [|apply IH].
  constructor; [|apply IH].
  destruct (run_result_shape (w k) c target cfg) as (r & st & n & sv & E & Hs & _ & Hn & Hsv).
  rewrite E. destruct r as [rs rd rf rv]. cbn in Hs. inversion Hs; subst. cbn.
  repeat split; try assumption.
  unfold registered. now rewrite Hc.
Qed.

Lemma severity_rank_examples :
  map severity_rank SEVERITIES = [0; 1; 2; 3]%nat.
Proof. reflexivity. Qed.

(** X7.  The severity thresholds of the headers, portscan and bruteforce
    adapters are monotone: more findings never give a lower severity. *)
Theorem severity_thresholds_monotone (n m : Z) :
  n <= m ->
  (severity_rank (Checks.headers_severity n)
   <= severity_rank (Checks.headers_severity m))%nat
  /\ (severity_rank (Checks.portscan_severity n)
      <= severity_rank (Checks.portscan_severity m))%nat
  /\ (severity_rank (Checks.bruteforce_severity n)
      <= severity_rank (Checks.bruteforce_severity m))%nat.
Proof.
  intros Hnm.
  unfold Checks.headers_severity, Checks.portscan_severity, Checks.bruteforce_severity.
  repeat split;
    repeat match goal with
           | |- context [?a <=? ?b] => destruct (Z.leb_spec a b)
           | |- context [?a <? ?b] => destruct (Z.ltb_spec a b)
           end; cbn; lia.
Qed.

Lemma severity_thresholds_monotone_witness :
  (severity_rank (Checks.headers_severity 2)
   <= severity_rank (Checks.headers_severity 5))%nat.
Proof.
  exact (proj1 (severity_thresholds_monotone 2 5 ltac:(discriminate))).
Defined.

(** ** The progress percentage and the exact quotient *)

Section RoundingError.

Import Float64 Float64Facts.
Local Open Scope Q_scope.

(** Rounding to the nearest integer moves a number by at most one half. *)
Lemma rne_error (y : Q) :
  y - (1 # 2) <= inject_Z (rne y) /\ inject_Z (rne y) <= y + (1 # 2).
Proof.
  unfold rne.
  pose proof (Qfloor_le y) as Hlo. pose proof (Qlt_floor y) as Hhi.
  rewrite inject_Z_plus in Hhi. change (inject_Z 1) with 1 in Hhi.
  destruct (Qcompare_spec (y - inject_Z (Qfloor y)) (1 # 2)) as [H|H|H];
    try destruct (Z.even (Qfloor y));
    rewrite ?inject_Z_plus; change (inject_Z 1) with 1; split; lra.
Qed.

(** Rounding to binary64 has relative error at most 2^-53. *)
Lemma round_pos_error (x : Q) :
  0 < x -> x * (1 - u64) <= round_pos x /\ round_pos x <= x * (1 + u64).
Proof.
  intros Hx. destruct (scaled_range x Hx) as [Hlo _].
  unfold round_pos. cbv zeta.
  set (e := (ilog2 x - (prec - 1))%Z) in *.
  pose proof (pow2_pos e) as HP.
  set (P := 2 ^ e) in *.
  destruct (rne_error (x / P)) as [Elo Ehi].
  set (m := inject_Z (rne (x / P))) in *.
  assert (Hy : x / P * P == x) by (field; lra).
  assert (H1 : m * P <= (x / P + (1 # 2)) * P)
    by (apply Qmult_le_compat_r; lra).
  assert (H2 : (x / P - (1 # 2)) * P <= m * P)
    by (apply Qmult_le_compat_r; lra).
  assert (H3 : inject_Z (2 ^ 52) * P <= x / P * P)
    by (apply Qmult_le_compat_r; lra).
  assert (E1 : (x / P + (1 # 2)) * P == x + P * (1 # 2)) by (rewrite <- Hy at 2; ring).
  assert (E2 : (x / P - (1 # 2)) * P == x - P * (1 # 2)) by (rewrite <- Hy at 2; ring).
  rewrite E1 in H1. rewrite E2 in H2. rewrite Hy in H3.
  change (inject_Z (2 ^ 52)) with (4503599627370496 # 1) in H3.
  unfold u64. change (1 # 2 ^ 53) with (1 # 9007199254740992).
  set (mP := m * P) in *.
  split; lra.
Qed.

Lemma round64_error (x : Q) :
  0 < x -> x * (1 - u64) <= round64 x /\ round64 x <= x * (1 + u64).
Proof. intros Hx. rewrite round64_pos by assumption. now apply round_pos_error. Qed.

End RoundingError.

Local Open Scope Q_scope.
Local Open Scope Z_scope.

(** X8.  The persisted progress never overshoots and undershoots by at most
    one: for [k] checks done of [total] (at most 2^40), it is the integer
    quotient [100 * k / total] or one less, and it lies between 0 and 100. *)
Theorem progress_percent_near_quotient (k total : Z) :
  0 < k <= total -> total <= 2 ^ 40 ->
  100 * k / total - 1 <= progress_percent k total <= 100 * k / total
  /\ 0 <= progress_percent k total <= 100.
Proof.
  intros Hk Hb.
  assert (HT : 0 < total) by lia.
  assert (Hmain : 100 * k / total - 1 <= progress_percent k total <= 100 * k / total).
  { unfold progress_percent, mul, truediv.
    pose proof (truediv_gt_0 k total ltac:(lia) HT) as Hx.
    set (x := Qdiv (inject_Z k) (inject_Z total)) in *.
    destruct (round64_error x Hx) as [Hq1 Hq2].
    pose proof (round64_gt_0 x Hx) as Hq0.
    set (q := round64 x) in *.
    pose proof of_int_100 as Hc. set (c := of_int 100) in *.
    assert (Hqc : Qeq (q * c)%Q (q * 100)%Q) by (rewrite Hc; reflexivity).
    assert (Hp0 : Qlt 0 (q * c)%Q) by (rewrite Hqc; lra).
    destruct (round64_error _ Hp0) as [Hp1 Hp2].
    pose proof (round64_gt_0 _ Hp0) as Hpp.
    set (p := round64 (q * c)%Q) in *.
    set (qc := (q * c)%Q) in *.
    rewrite to_int_nonneg by lra.
    (* the exact quotient *)
    set (d := 100 * k / total). set (r := (100 * k) mod total).
    assert (Hdiv : 100 * k = total * d + r) by (apply Z.div_mod; lia).
    assert (Hr : 0 <= r < total) by (apply Z.mod_pos_bound; lia).
    set (t := inject_Z total).
    assert (Ht : Qlt 0 t) by (change 0%Q with (inject_Z 0); unfold t;
                              rewrite <- Zlt_Qlt; lia).
    set (R := Qdiv (inject_Z r) t).
    set (I := Qinv t).
    assert (HI : Qle (1 # 2 ^ 40) I).
    { unfold I. apply Qle_shift_inv_l; [exact Ht|].
      setoid_replace ((1 # 2 ^ 40) * t)%Q with (t / inject_Z (2 ^ 40))%Q
        by (unfold Qdiv; change (/ inject_Z (2 ^ 40))%Q with (1 # 2 ^ 40); ring).
      apply Qle_shift_div_r; [reflexivity|]. rewrite Qmult_1_l. unfold t.
      rewrite <- Zle_Qle. exact Hb. }
    assert (HR0 : Qle 0 R).
    { unfold R. apply Qle_shift_div_l; [exact Ht|]. rewrite Qmult_0_l.
      change 0%Q with (inject_Z 0). rewrite <- Zle_Qle. lia. }
    assert (HR1 : Qle R (1 - I)%Q).
    { unfold R. apply Qle_shift_div_r; [exact Ht|].
      setoid_replace ((1 - I) * t)%Q with (t - 1)%Q by (unfold I; field; lra).
      unfold t. change 1%Q with (inject_Z 1). unfold Qminus.
      rewrite <- inject_Z_opp, <- inject_Z_plus, <- Zle_Qle. lia. }
    assert (HX : Qeq (100 * x)%Q (inject_Z d + R)%Q).
    { unfold x, R. fold t.
      setoid_replace (inject_Z d + inject_Z r / t)%Q
        with ((t * inject_Z d + inject_Z r) / t)%Q by (field; lra).
      setoid_replace (100 * (inject_Z k / t))%Q with ((100 * inject_Z k) / t)%Q
        by (field; lra).
      apply Qmult_comp; [|reflexivity].
      change 100%Q with (inject_Z 100). unfold t.
      rewrite <- !inject_Z_mult, <- inject_Z_plus. rewrite Hdiv. reflexivity. }
    assert (Hx1 : Qle x 1).
    { unfold x. apply Qle_shift_div_r; [exact Ht|]. rewrite Qmult_1_l.
      unfold t. rewrite <- Zle_Qle. lia. }
    unfold u64 in *. change (1 # 2 ^ 53) with (1 # 9007199254740992) in *.
    change (1 # 2 ^ 40) with (1 # 1099511627776) in HI.
    set (D := inject_Z d) in *.
    split.
    - (* floor p >= d - 1 *)
      assert (Hlow : Qle (D - 1)%Q p) by lra.
      rewrite <- (Qfloor_Z (d - 1)). apply Qfloor_resp_le.
      unfold Z.sub. rewrite inject_Z_plus, inject_Z_opp. exact Hlow.
    - (* floor p <= d *)
      assert (Hlt : Qlt (inject_Z (Qfloor p)) (inject_Z (d + 1))).
      { apply Qle_lt_trans with p; [apply Qfloor_le|].
        rewrite inject_Z_plus. change (inject_Z 1) with 1%Q. fold D. lra. }
      rewrite <- Zlt_Qlt in Hlt. lia. }
  split; [exact Hmain|]. split.
  - apply progress_percent_nonneg; lia.
  - apply Z.le_trans with (100 * k / total); [apply Hmain|].
    apply Z.div_le_upper_bound; lia.
Qed.

Lemma progress_percent_near_quotient_witness :
  100 * 29 / 100 - 1 <= progress_percent 29 100 <= 100 * 29 / 100
  /\ 0 <= progress_percent 29 100 <= 100.
Proof.
  apply progress_percent_near_quotient.
  - split; [reflexivity | discriminate].
  - discriminate.
Defined.

Local Close Scope Q_scope.
Local Open Scope list_scope.

(** ** One worker per job, and the life of a job *)

Section Ownership.

Import ScanWorker Pool.

Lemma handed_one_holder (l : list (session * string)) : forall a b j,
  NoDup (map snd l) -> In (a, j) l -> In (b, j) l -> a = b.
Proof.
  induction l as [|[s i] l IH]; intros a b j Hnd Ha Hb; [destruct Ha|].
  cbn [map snd] in Hnd. inversion Hnd as [|? ? Hni Hnd']; subst.
  destruct Ha as [Ha|Ha], Hb as [Hb|Hb].
  - congruence.
  - inversion Ha; subst. exfalso. apply Hni.
    change j with (snd (b, j)). now apply in_map.
  - inversion Hb; subst. exfalso. apply Hni.
    change j with (snd (a, j)). now apply in_map.
  - eauto.
Qed.

(** Two workers are never on the same job. *)
Lemma one_worker_per_job (sys : system) (s1 s2 : session) (j : string) :
  consistent sys -> owned sys ->
  active_on (sys_workers sys s1) = Some j ->
  active_on (sys_workers sys s2) = Some j ->
  s1 = s2.
Proof.
  intros C O H1 H2.
  eapply handed_one_holder.
  - exact (handed_once sys C).
  - exact (active_handed sys O s1 j H1).
  - exact (active_handed sys O s2 j H2).
Qed.

Lemma unique_row (rows : list scan_job) (r1 r2 : scan_job) :
  NoDup (map job_id rows) -> In r1 rows -> In r2 rows ->
  job_id r1 = job_id r2 -> r1 = r2.
Proof.
  induction rows as [|r rows IH]; intros Hnd H1 H2 E; [destruct H1|].
  cbn [map] in Hnd. inversion Hnd as [|? ? Hni Hnd']; subst.
  destruct H1 as [H1|H1], H2 as [H2|H2].
  - congruence.
  - subst r1. exfalso. apply Hni. rewrite E. now apply in_map.
  - subst r2. exfalso. apply Hni. rewrite <- E. now apply in_map.
  - eauto.
Qed.

(** The rows after a status update, position by position. *)
Lemma update_scan_status_rows (s : session) (db : database) (id status : string)
    (p : option Z) :
  Forall2
    (fun r r' =>
       job_id r' = job_id r
       /\ ((job_id r = id /\ job_status r' = status) \/ (job_id r <> id /\ r' = r)))
    (scan_jobs db)
    (scan_jobs (conn_db (update_scan_status (as_conn s db) id status p))).
Proof.
  unfold update_scan_status.
  assert (Hgen : forall set,
            (forall r, job_id (set r) = job_id r /\ job_status (set r) = status) ->
            Forall2
              (fun r r' =>
                 job_id r' = job_id r
                 /\ ((job_id r = id /\ job_status r' = status)
                     \/ (job_id r <> id /\ r' = r)))
              (scan_jobs db) (update_where_id id set (scan_jobs db))).
  { intros set Hset. induction (scan_jobs db) as [|r rows IH]; cbn; constructor;
      [|exact IH].
    destruct (String.eqb_spec (job_id r) id) as [E|N].
    - destruct (Hset r). auto.
    - auto. }
  destruct (String.eqb_spec status "running") as [E1|N1];
    [|destruct (String.eqb_spec status "completed") as [E2|N2];
      [|destruct (String.eqb_spec status "failed") as [E3|N3]]];
    cbn [commit with_jobs as_conn conn_db conn_session scan_jobs];
    apply Hgen; intros r; subst; split; reflexivity.
Qed.

Lemma initial_owned (sys : system) :
  initial sys -> NoDup (map job_id (scan_jobs (sys_db sys))) -> owned sys.
Proof.
  intros (Hw & _ & _) Hnd. constructor.
  - intros s j H. rewrite Hw in H. discriminate H.
  - intros s j r H. rewrite Hw in H. discriminate H.
  - exact Hnd.
Qed.

(** A worker that updates its own job, to the status its next state
    expects, keeps the workers' view of their jobs. *)
Lemma owned_update (db : database) ws h (s : session) (id status : string)
    (p : option Z) (w' : worker_state) :
  consistent (mkSys db ws h) -> owned (mkSys db ws h) ->
  active_on (ws s) = Some id ->
  (active_on w' = Some id /\ expected_status w' = status) \/ w' = Idle ->
  owned (mkSys (conn_db (update_scan_status (as_conn s db) id status p))
               (set_worker ws s w') h).
Proof.
  intros C O Hs Hw'.
  destruct (update_scan_status_effect s db id status p) as (_ & Hids & Hrows).
  constructor; cbn [sys_db sys_workers sys_handed].
  - intros s0 j Ha. destruct (Nat.eq_dec s0 s) as [E|N].
    + subst s0. rewrite set_worker_same in Ha.
      destruct Hw' as [[Hw' _]|Hw']; [|subst w'; discriminate Ha].
      assert (j = id) by congruence. subst j.
      exact (active_handed _ O s id Hs).
    + rewrite set_worker_other in Ha by exact N.
      exact (active_handed _ O s0 j Ha).
  - intros s0 j r' Ha Hr' Hj.
    destruct (Hrows r' Hr') as (r & Hr & Hid & Hcase).
    destruct (Nat.eq_dec s0 s) as [E|N].
    + subst s0. rewrite set_worker_same in *.
      destruct Hw' as [[Hw1 Hw2]|Hw']; [|subst w'; discriminate Ha].
      assert (j = id) by congruence. subst j.
      destruct Hcase as [[_ Hst]|[Hne _]]; [congruence|].
      exfalso. apply Hne. congruence.
    + rewrite set_worker_other in * by exact N.
      destruct Hcase as [[Hre _]|[_ ->]].
      * exfalso. apply N.
        apply (one_worker_per_job (mkSys db ws h) s0 s id C O); [|exact Hs].
        cbn [sys_workers]. rewrite Ha. congruence.
      * exact (active_status _ O s0 j r Ha Hr Hj).
  - rewrite Hids. exact (ids_unique _ O).
Qed.

Lemma owned_save (db : database) ws h (s : session)
    (scan_id check_type status : string) (data : json) (findings : Z)
    (severity : string) (w' : worker_state) :
  owned (mkSys db ws h) ->
  active_on w' = active_on (ws s) ->
  expected_status w' = expected_status (ws s) ->
  owned (mkSys (conn_db (save_scan_result (as_conn s db) scan_id check_type
                           status data findings severity))
               (set_worker ws s w') h).
Proof.
  intros O Ha He.
  constructor; cbn [sys_db sys_workers sys_handed save_scan_result commit
                    with_results as_conn conn_db scan_jobs].
  - intros s0 j H. destruct (Nat.eq_dec s0 s) as [E|N].
    + subst s0. rewrite set_worker_same in H. rewrite Ha in H.
      exact (active_handed _ O s j H).
    + rewrite set_worker_other in H by exact N. exact (active_handed _ O s0 j H).
  - intros s0 j r H Hr Hj. destruct (Nat.eq_dec s0 s) as [E|N].
    + subst s0. rewrite set_worker_same in *. rewrite Ha in H. rewrite He.
      exact (active_status _ O s j r H Hr Hj).
    + rewrite set_worker_other in * by exact N.
      exact (active_status _ O s0 j r H Hr Hj).
  - exact (ids_unique _ O).
Qed.

Lemma owned_claim (db : database) ws h (s : session) (data : scan_data)
    (c' : connection) :
  owned (mkSys db ws h) ->
  ws s = Idle ->
  get_queued_scans (as_conn s db) = (Some data, c') ->
  owned (mkSys (conn_db c') (set_worker ws s (Claimed data))
               (h ++ [(s, data_id data)])).
Proof.
  intros O Hidle Hget.
  destruct (get_queued_scans_some _ _ _ Hget) as (r & Ho & Hd & Hjobs & _).
  cbn [as_conn conn_db conn_session] in *.
  destruct (oldest_least _ _ Ho) as [Hin _].
  apply filter_In in Hin. destruct Hin as [Hin Hc].
  unfold claimable in Hc. apply andb_true_iff in Hc. destruct Hc as [Hq _].
  apply String.eqb_eq in Hq.
  assert (Hid : data_id data = job_id r) by (subst data; reflexivity).
  constructor; cbn [sys_db sys_workers sys_handed].
  - intros s0 j Ha. apply in_or_app. destruct (Nat.eq_dec s0 s) as [E|N].
    + subst s0. rewrite set_worker_same in Ha. cbn in Ha. inversion Ha.
      right. left. reflexivity.
    + rewrite set_worker_other in Ha by exact N. left.
      exact (active_handed _ O s0 j Ha).
  - intros s0 j r' Ha Hr' Hj. rewrite Hjobs in Hr'.
    destruct (Nat.eq_dec s0 s) as [E|N].
    + subst s0. rewrite set_worker_same in *. cbn in Ha. inversion Ha; subst j.
      cbn [expected_status].
      rewrite (unique_row _ r' r (ids_unique _ O) Hr' Hin) by congruence.
      exact Hq.
    + rewrite set_worker_other in * by exact N.
      exact (active_status _ O s0 j r' Ha Hr' Hj).
  - rewrite Hjobs. exact (ids_unique _ O).
Qed.

Lemma owned_enqueue (db : database) ws h (r : scan_job) :
  consistent (mkSys db ws h) -> owned (mkSys db ws h) ->
  ~ In (job_id r) (map job_id (scan_jobs db)) ->
  owned (mkSys (enqueue db r) ws h).
Proof.
  intros C O Hfresh.
  constructor; cbn [sys_db sys_workers sys_handed enqueue scan_jobs].
  - exact (active_handed _ O).
  - intros s j r' Ha Hr' Hj. apply in_app_or in Hr'. destruct Hr' as [Hr'|[<-|[]]].
    + exact (active_status _ O s j r' Ha Hr' Hj).
    + exfalso. apply Hfresh. rewrite Hj.
      exact (handed_known _ C s j (active_handed _ O s j Ha)).
  - rewrite map_app. cbn [map]. apply NoDup_app.
    + exact (ids_unique _ O).
    + repeat constructor. intros [].
    + intros j Hj [<-|[]]. exact (Hfresh Hj).
Qed.

Lemma step_owned (sys sys' : system) :
  consistent sys -> owned sys -> step sys sys' -> owned sys'.
Proof.
  intros C O Hstep. destruct Hstep.
  - eapply owned_claim; eassumption.
  - unfold get_queued_scans in H0.
    destruct (oldest _); [discriminate H0|]. inversion H0; subst c'. exact O.
  - apply owned_update; try assumption.
    + cbn [sys_workers] in *. rewrite H. reflexivity.
    + left. split; reflexivity.
  - apply owned_update; try assumption.
    + rewrite H. reflexivity.
    + right. reflexivity.
  - apply owned_save; try assumption; rewrite H; reflexivity.
  - apply owned_update; try assumption.
    + rewrite H. reflexivity.
    + left. split; reflexivity.
  - apply owned_update; try assumption.
    + rewrite H. reflexivity.
    + right. reflexivity.
  - now apply owned_enqueue.
Qed.

Lemma steps_owned (sys sys' : system) :
  consistent sys -> owned sys -> steps sys sys' -> consistent sys' /\ owned sys'.
Proof.
  intros C O Hsteps. induction Hsteps; [auto|].
  destruct (IHHsteps C O) as [C' O']. split.
  - eapply step_consistent; eassumption.
  - eapply step_owned; eassumption.
Qed.

End Ownership.

(** X9.  At most one executor per job: in every state a pool of workers can
    reach from a table with a primary key, two workers that are between
    their claim and their last commit are on different jobs. *)
Theorem one_active_executor_per_job (sys0 sys : Pool.system) (s1 s2 : session)
    (j : string) :
  Pool.initial sys0 ->
  NoDup (map job_id (scan_jobs (Pool.sys_db sys0))) ->
  Pool.steps sys0 sys ->
  active_on (Pool.sys_workers sys s1) = Some j ->
  active_on (Pool.sys_workers sys s2) = Some j ->
  s1 = s2.
Proof.
  intros Hinit Hnd Hsteps H1 H2.
  destruct (steps_owned sys0 sys (initial_consistent _ Hinit)
              (initial_owned _ Hinit Hnd) Hsteps) as [C O].
  exact (one_worker_per_job sys s1 s2 j C O H1 H2).
Qed.

Lemma one_active_executor_per_job_witness :
  exists sys,
    Pool.steps Examples.pool0 sys
    /\ active_on (Pool.sys_workers sys 1%nat) = Some "job-1"
    /\ active_on (Pool.sys_workers sys 2%nat) = Some "job-2"
    /\ (forall s, active_on (Pool.sys_workers sys s) = Some "job-1" -> s = 1%nat).
Proof.
  eexists. split; [|split; [|split]].
  - eapply Pool.steps_snoc.
    + eapply Pool.steps_snoc; [apply Pool.steps_refl|].
      eapply (Pool.step_claim 1%nat); reflexivity.
    + eapply (Pool.step_claim 2%nat); reflexivity.
  - reflexivity.
  - reflexivity.
  - intros s Hs.
    refine (one_active_executor_per_job Examples.pool0 _ s 1%nat "job-1" _ _ _ Hs _).
    + repeat split.
    + cbn. repeat constructor; cbn; intuition discriminate.
    + eapply Pool.steps_snoc.
      * eapply Pool.steps_snoc; [apply Pool.steps_refl|].
        eapply (Pool.step_claim 1%nat); reflexivity.
      * eapply (Pool.step_claim 2%nat); reflexivity.
    + reflexivity.
Defined.

(** X10.  The status of a job follows the state machine.  In every step of a
    pool started on a table with a primary key, each row keeps its id and
    either stays as it is or goes from [queued] to [running] or [failed],
    or from [running] to [running] or [completed]; rows that appear are
    [queued].  So a [completed] or [failed] row is never changed again. *)
Theorem pool_status_transitions (sys0 sys sys' : Pool.system) :
  Pool.initial sys0 ->
  NoDup (map job_id (scan_jobs (Pool.sys_db sys0))) ->
  Pool.steps sys0 sys ->
  Pool.step sys sys' ->
  exists kept added,
    scan_jobs (Pool.sys_db sys') = kept ++ added
    /\ Forall2 job_step (scan_jobs (Pool.sys_db sys)) kept
    /\ Forall (fun r => job_status r = "queued") added
    /\ Forall2 (fun r r' =>
                  job_status r = "completed" \/ job_status r = "failed" -> r' = r)
               (scan_jobs (Pool.sys_db sys)) kept.
Proof.
  intros Hinit Hnd Hsteps Hstep.
  destruct (steps_owned sys0 sys (initial_consistent _ Hinit)
              (initial_owned _ Hinit Hnd) Hsteps) as [C O].
  assert (Hrefl : forall rows, Forall2 job_step rows rows).
  { induction rows; constructor; auto. split; auto. }
  assert (Hterm : forall rows kept,
            Forall2 job_step rows kept ->
            Forall2 (fun r r' =>
                       job_status r = "completed" \/ job_status r = "failed" -> r' = r)
                    rows kept).
  { intros rows kept H. induction H as [|r r' rows kept Hs _ IH]; constructor; auto.
    intros Ht. destruct Hs as (_ & [E|[[Hq _]|[Hr _]]]); [exact E| |];
      destruct Ht as [Ht|Ht]; rewrite Ht in *; discriminate. }
  assert (Hupd : forall s db ws h id status p,
            Pool.consistent (Pool.mkSys db ws h) -> owned (Pool.mkSys db ws h) ->
            active_on (ws s) = Some id ->
            (expected_status (ws s) = "queued"
             /\ (status = "running" \/ status = "failed"))
            \/ (expected_status (ws s) = "running"
                /\ (status = "running" \/ status = "completed")) ->
            Forall2 job_step (scan_jobs db)
              (scan_jobs (conn_db (ScanWorker.update_scan_status
                                     (Pool.as_conn s db) id status p)))).
  { intros s db ws h id status p C0 O0 Ha Hcase.
    pose proof (update_scan_status_rows s db id status p) as Hrows.
    assert (Hst : forall r, In r (scan_jobs db) -> job_id r = id ->
                    job_status r = expected_status (ws s)).
    { intros r Hr Hid. exact (active_status _ O0 s id r Ha Hr Hid). }
    revert Hrows Hst.
    generalize (scan_jobs (conn_db (ScanWorker.update_scan_status
                                      (Pool.as_conn s db) id status p))).
    induction (scan_jobs db) as [|r rows IH]; intros rows' Hrows Hst;
      inversion Hrows as [|? r' ? rows'' Hr Hrest]; subst; constructor.
    - destruct Hr as (Hid & [[Hrid Hs']|[_ ->]]).
      + split; [exact Hid|]. right.
        specialize (Hst r (or_introl eq_refl) Hrid).
        destruct Hcase as [[He Hs]|[He Hs]]; rewrite He in Hst;
          [left | right]; split; try exact Hst; rewrite Hs'; exact Hs.
      + split; auto.
    - apply IH; [exact Hrest|]. intros r0 Hr0. apply Hst. right. exact Hr0. }
  destruct Hstep.
  - destruct (get_queued_scans_some _ _ _ H0) as (r & _ & _ & Hjobs & _).
    exists (scan_jobs db), []. cbn [Pool.sys_db]. rewrite Hjobs, app_nil_r.
    repeat split; auto.
  - unfold ScanWorker.get_queued_scans in H0.
    destruct (ScanWorker.oldest _); [discriminate H0|]. inversion H0; subst c'.
    exists (scan_jobs db), []. cbn. rewrite app_nil_r. repeat split; auto.
  - eexists _, []. cbn [Pool.sys_db]. rewrite app_nil_r.
    assert (F : Forall2 job_step (scan_jobs db)
                  (scan_jobs (conn_db (ScanWorker.update_scan_status
                                         (Pool.as_conn s db) scan_id "running" (Some 0))))).
    { apply (Hupd s db ws h); try assumption.
      - rewrite H. reflexivity.
      - rewrite H. left. auto. }
    repeat split; auto.
  - eexists _, []. cbn [Pool.sys_db]. rewrite app_nil_r.
    assert (F : Forall2 job_step (scan_jobs db)
                  (scan_jobs (conn_db (ScanWorker.update_scan_status
                                         (Pool.as_conn s db) scan_id "failed" None)))).
    { apply (Hupd s db ws h); try assumption.
      - rewrite H. reflexivity.
      - rewrite H. left. auto. }
    repeat split; auto.
  - exists (scan_jobs db), []. cbn. rewrite app_nil_r. repeat split; auto.
  - eexists _, []. cbn [Pool.sys_db]. rewrite app_nil_r.
    assert (F : Forall2 job_step (scan_jobs db)
                  (scan_jobs (conn_db (ScanWorker.update_scan_status
                                         (Pool.as_conn s db) scan_id "running"
                                         (Some (progress_percent (Z.of_nat i + 1) total)))))).
    { apply (Hupd s db ws h); try assumption.
      - rewrite H. reflexivity.
      - rewrite H. right. auto. }
    repeat split; auto.
  - eexists _, []. cbn [Pool.sys_db]. rewrite app_nil_r.
    assert (F : Forall2 job_step (scan_jobs db)
                  (scan_jobs (conn_db (ScanWorker.update_scan_status
                                         (Pool.as_conn s db) scan_id "completed" None)))).
    { apply (Hupd s db ws h); try assumption.
      - rewrite H. reflexivity.
      - rewrite H. right. auto. }
    repeat split; auto.
  - exists (scan_jobs db), [r]. cbn. repeat split; auto.
Qed.

Lemma pool_status_transitions_witness :
  exists sys',
    Pool.step Examples.pool0 sys'
    /\ exists kept added,
         scan_jobs (Pool.sys_db sys') = kept ++ added
         /\ Forall2 job_step (scan_jobs (Pool.sys_db Examples.pool0)) kept
         /\ Forall (fun r => job_status r = "queued") added
         /\ Forall2 (fun r r' =>
                       job_status r = "completed" \/ job_status r = "failed" -> r' = r)
                    (scan_jobs (Pool.sys_db Examples.pool0)) kept.
Proof.
  eexists. split.
  - eapply (Pool.step_claim 1%nat); reflexivity.
  - refine (pool_status_transitions Examples.pool0 Examples.pool0 _ _ _ _ _).
    + repeat split.
    + cbn. repeat constructor; cbn; intuition discriminate.
    + apply Pool.steps_refl.
    + eapply (Pool.step_claim 1%nat); reflexivity.
Defined.

(** ** Result rows under interleaving *)

Section ResultsKept.

Import ScanWorker Pool.

Lemma pending_active (w : worker_state) (j : string) (rest : list string) :
  pending w = Some (j, rest) -> active_on w = Some j /\ expected_status w = "running".
Proof. destruct w; cbn; intros H; inversion H; auto. Qed.

(** The rows after a status update: where each comes from. *)
Lemma update_scan_status_keeps (s : session) (db : database) (id status : string)
    (p : option Z) :
  forall r', In r' (scan_jobs (conn_db (update_scan_status (as_conn s db) id status p))) ->
    exists r, In r (scan_jobs db) /\ job_id r' = job_id r
      /\ job_checks r' = job_checks r
      /\ ((job_id r = id /\ job_status r' = status) \/ (job_id r <> id /\ r' = r)).
Proof.
  unfold update_scan_status.
  assert (Hgen : forall set,
            (forall r, job_id (set r) = job_id r /\ job_status (set r) = status
                       /\ job_checks (set r) = job_checks r) ->
            forall r', In r' (update_where_id id set (scan_jobs db)) ->
              exists r, In r (scan_jobs db) /\ job_id r' = job_id r
                /\ job_checks r' = job_checks r
                /\ ((job_id r = id /\ job_status r' = status)
                    \/ (job_id r <> id /\ r' = r))).
  { intros set Hset r' Hin. unfold update_where_id in Hin.
    apply in_map_iff in Hin. destruct Hin as (r & <- & Hin). exists r.
    split; [exact Hin|].
    destruct (String.eqb_spec (job_id r) id) as [E|N].
    - destruct (Hset r) as (H1 & H2 & H3). auto.
    - auto. }
  destruct (String.eqb_spec status "running") as [E1|N1];
    [|destruct (String.eqb_spec status "completed") as [E2|N2];
      [|destruct (String.eqb_spec status "failed") as [E3|N3]]];
    cbn [commit with_jobs as_conn conn_db conn_session scan_jobs];
    apply Hgen; intros r; subst; repeat split; reflexivity.
Qed.

Lemma job_results_update (s : session) (db : database) (id status : string)
    (p : option Z) (j : string) :
  job_results (conn_db (update_scan_status (as_conn s db) id status p)) j
  = job_results db j.
Proof. reflexivity. Qed.

Lemma job_results_save (s : session) (db : database) (id ct st : string) (d : json)
    (f : Z) (sv : string) (j : string) :
  job_results (conn_db (save_scan_result (as_conn s db) id ct st d f sv)) j
  = job_results db j
    ++ (if String.eqb id j then [mkScanResult id ct st d f sv] else []).
Proof.
  unfold job_results.
  cbn [save_scan_result commit with_results as_conn conn_db scan_results].
  rewrite filter_app. cbn [filter sr_scan_id]. reflexivity.
Qed.

Lemma initial_kept (sys : system) :
  initial sys -> scan_results (sys_db sys) = [] -> results_kept sys.
Proof.
  intros (Hw & _ & Hh) Hr. constructor.
  - intros row Hin. rewrite Hr in Hin. destruct Hin.
  - intros s d H. rewrite Hw in H. discriminate H.
  - intros s j rest r H. rewrite Hw in H. discriminate H.
  - intros s j r Hin. rewrite Hh in Hin. destruct Hin.
Qed.

(** A worker updates the status of its job and moves on: to the loop, with
    the checks that remain, or out of the job, which it leaves [completed]
    with all its rows or [failed] with none. *)
Lemma kept_update (db : database) ws h (s : session) (id status : string)
    (p : option Z) (w' : worker_state) :
  consistent (mkSys db ws h) -> owned (mkSys db ws h) -> results_kept (mkSys db ws h) ->
  active_on (ws s) = Some id ->
  match pending w' with
  | Some (j, rest) =>
      j = id
      /\ forall r, In r (scan_jobs db) -> job_id r = id ->
           map sr_check_type (job_results db id) ++ rest = job_checks r
  | None =>
      w' = Idle
      /\ ((status = "completed"
           /\ forall r, In r (scan_jobs db) -> job_id r = id ->
                map sr_check_type (job_results db id) = job_checks r)
          \/ (status = "failed" /\ job_results db id = []))
  end ->
  results_kept (mkSys (conn_db (update_scan_status (as_conn s db) id status p))
                      (set_worker ws s w') h).
Proof.
  intros C O K Hs Hw'.
  pose proof (update_scan_status_keeps s db id status p) as Hrows.
  assert (Hother : forall s0 j, s0 <> s -> active_on (ws s0) = Some j -> j <> id).
  { intros s0 j N Ha E. apply N. subst j.
    exact (one_worker_per_job (mkSys db ws h) s0 s id C O Ha Hs). }
  constructor; cbn [sys_db sys_workers sys_handed].
  - intros row Hin. exact (kept_handed _ K row Hin).
  - intros s0 d Hw. destruct (Nat.eq_dec s0 s) as [E|N].
    + subst s0. rewrite set_worker_same in Hw. subst w'. cbn in Hw'.
      destruct Hw' as [Hw' _]. discriminate Hw'.
    + rewrite set_worker_other in Hw by exact N.
      destruct (kept_claimed _ K s0 d Hw) as [H1 H2]. cbn [sys_db] in H1, H2.
      split; [exact H1|]. intros r' Hr' Hid.
      destruct (Hrows r' Hr') as (r & Hr & Hi & _ & [[Hre _]|[_ ->]]).
      * exfalso. apply (Hother s0 (data_id d) N); [rewrite Hw; reflexivity|].
        congruence.
      * apply H2; assumption.
  - intros s0 j rest r' Hp Hr' Hid. rewrite job_results_update.
    destruct (Hrows r' Hr') as (r & Hr & Hi & Hck & Hcase).
    destruct (Nat.eq_dec s0 s) as [E|N].
    + subst s0. rewrite set_worker_same in Hp. rewrite Hp in Hw'.
      destruct Hw' as [-> Hw']. rewrite Hck. apply Hw'; [exact Hr | congruence].
    + rewrite set_worker_other in Hp by exact N.
      destruct (pending_active _ _ _ Hp) as [Ha _].
      destruct Hcase as [[Hre _]|[_ ->]].
      * exfalso. apply (Hother s0 j N Ha). congruence.
      * exact (kept_pending _ K s0 j rest r Hp Hr Hid).
  - intros s0 j r' Hin Hna Hr' Hid. rewrite job_results_update.
    destruct (Hrows r' Hr') as (r & Hr & Hi & Hck & Hcase).
    destruct (String.eqb_spec j id) as [->|N].
    + assert (s0 = s).
      { eapply handed_one_holder;
          [exact (handed_once _ C) | exact Hin | exact (active_handed _ O s id Hs)]. }
      subst s0. rewrite set_worker_same in Hna.
      destruct (pending w') as [[j rest]|] eqn:Hp.
      * exfalso. apply Hna. destruct Hw' as [-> _].
        exact (proj1 (pending_active _ _ _ Hp)).
      * destruct Hw' as [_ Hw'].
        destruct Hcase as [[Hre Hst]|[Hne _]]; [|exfalso; apply Hne; congruence].
        destruct Hw' as [[-> Hall]|[-> Hnone]].
        -- left. split; [exact Hst|]. rewrite Hck. apply Hall; assumption.
        -- right. split; [exact Hst | exact Hnone].
    + destruct Hcase as [[Hre _]|[_ ->]]; [exfalso; apply N; congruence|].
      apply (kept_done _ K s0 j r Hin); try assumption.
      cbn [sys_workers]. destruct (Nat.eq_dec s0 s) as [E|N0].
      * subst s0. rewrite Hs. congruence.
      * rewrite set_worker_other in Hna by exact N0. exact Hna.
Qed.

(** A worker saves the row of the check at the head of its list. *)
Lemma kept_save (db : database) ws h (s : session) (id target : string) (total : Z)
    (i : nat) (c : string) (rest : list string) (st : string) (d : json) (f : Z)
    (sv : string) :
  consistent (mkSys db ws h) -> owned (mkSys db ws h) -> results_kept (mkSys db ws h) ->
  ws s = Checking id target total i (c :: rest) ->
  results_kept (mkSys (conn_db (save_scan_result (as_conn s db) id c st d f sv))
                      (set_worker ws s (Saved id target total i rest)) h).
Proof.
  intros C O K Hs.
  assert (Ha : active_on (ws s) = Some id) by (rewrite Hs; reflexivity).
  assert (Hother : forall s0 j, s0 <> s -> active_on (ws s0) = Some j -> j <> id).
  { intros s0 j N Ha0 E. apply N. subst j.
    exact (one_worker_per_job (mkSys db ws h) s0 s id C O Ha0 Ha). }
  assert (Hsame : forall j, j <> id ->
            job_results (conn_db (save_scan_result (as_conn s db) id c st d f sv)) j
            = job_results db j).
  { intros j N. rewrite job_results_save.
    destruct (String.eqb_spec id j) as [E|_]; [congruence | apply app_nil_r]. }
  constructor; cbn [sys_db sys_workers sys_handed].
  - intros row Hin.
    cbn [save_scan_result commit with_results as_conn conn_db scan_results] in Hin.
    apply in_app_or in Hin. destruct Hin as [Hin|[<-|[]]].
    + exact (kept_handed _ K row Hin).
    + cbn [sr_scan_id]. change id with (snd (s, id)). apply in_map.
      exact (active_handed _ O s id Ha).
  - intros s0 d0 Hw. destruct (Nat.eq_dec s0 s) as [E|N].
    + subst s0. rewrite set_worker_same in Hw. discriminate Hw.
    + rewrite set_worker_other in Hw by exact N.
      rewrite Hsame by (apply (Hother s0); [exact N | rewrite Hw; reflexivity]).
      exact (kept_claimed _ K s0 d0 Hw).
  - intros s0 j rest0 r Hp Hr Hid. destruct (Nat.eq_dec s0 s) as [E|N].
    + subst s0. rewrite set_worker_same in Hp. cbn in Hp. injection Hp as <- <-.
      rewrite job_results_save, String.eqb_refl, map_app. cbn [map sr_check_type].
      rewrite <- app_assoc. cbn [app].
      apply (kept_pending _ K s id (c :: rest) r); [|exact Hr | exact Hid].
      cbn [sys_workers]. rewrite Hs. reflexivity.
    + rewrite set_worker_other in Hp by exact N.
      rewrite Hsame by (apply (Hother s0); [exact N|];
                        exact (proj1 (pending_active _ _ _ Hp))).
      exact (kept_pending _ K s0 j rest0 r Hp Hr Hid).
  - intros s0 j r Hin Hna Hr Hid.
    destruct (String.eqb_spec j id) as [->|N].
    + exfalso.
      assert (s0 = s).
      { eapply handed_one_holder;
          [exact (handed_once _ C) | exact Hin | exact (active_handed _ O s id Ha)]. }
      subst s0. rewrite set_worker_same in Hna. apply Hna. reflexivity.
    + rewrite Hsame by exact N.
      apply (kept_done _ K s0 j r Hin); try assumption.
      cbn [sys_workers]. destruct (Nat.eq_dec s0 s) as [E|N0].
      * subst s0. rewrite Ha. congruence.
      * rewrite set_worker_other in Hna by exact N0. exact Hna.
Qed.

Lemma kept_claim (db : database) ws h (s : session) (data : scan_data)
    (c' : connection) :
  consistent (mkSys db ws h) -> owned (mkSys db ws h) -> results_kept (mkSys db ws h) ->
  ws s = Idle ->
  get_queued_scans (as_conn s db) = (Some data, c') ->
  results_kept (mkSys (conn_db c') (set_worker ws s (Claimed data))
                      (h ++ [(s, data_id data)])).
Proof.
  intros C O K Hidle Hget.
  destruct (claim_fresh db ws h s data c' C Hidle Hget) as (Hfresh & _).
  assert (Hdb : scan_jobs (conn_db c') = scan_jobs db
                /\ scan_results (conn_db c') = scan_results db).
  { unfold get_queued_scans in Hget.
    destruct (oldest _); inversion Hget; split; reflexivity. }
  destruct Hdb as [Hjobs Hres].
  assert (Hjr : forall j, job_results (conn_db c') j = job_results db j).
  { intros j. unfold job_results. now rewrite Hres. }
  destruct (get_queued_scans_some _ _ _ Hget) as (r0 & Ho & Hd & _).
  cbn [as_conn conn_db conn_session] in Ho.
  destruct (oldest_least _ _ Ho) as [Hin0 _].
  apply filter_In in Hin0. destruct Hin0 as [Hin0 _].
  constructor; cbn [sys_db sys_workers sys_handed].
  - intros row Hin. rewrite Hres in Hin. rewrite map_app. apply in_or_app. left.
    exact (kept_handed _ K row Hin).
  - intros s0 d Hw. rewrite Hjr, Hjobs. destruct (Nat.eq_dec s0 s) as [E|N].
    + subst s0. rewrite set_worker_same in Hw. inversion Hw; subst d. split.
      * unfold job_results.
        destruct (filter _ (scan_results db)) as [|row rows] eqn:Hf; [reflexivity|].
        exfalso. apply Hfresh.
        assert (Hrow : In row (filter (fun row => String.eqb (sr_scan_id row)
                                                   (data_id data)) (scan_results db)))
          by (rewrite Hf; left; reflexivity).
        apply filter_In in Hrow. destruct Hrow as [Hrow Hid].
        apply String.eqb_eq in Hid. rewrite <- Hid.
        exact (kept_handed _ K row Hrow).
      * intros r Hr Hid. rewrite Hd. f_equal.
        apply (unique_row (scan_jobs db)); [exact (ids_unique _ O) | | |]; auto.
        rewrite Hd in Hid. symmetry. exact Hid.
    + rewrite set_worker_other in Hw by exact N.
      exact (kept_claimed _ K s0 d Hw).
  - intros s0 j rest r Hp Hr Hid. rewrite Hjr. rewrite Hjobs in Hr.
    destruct (Nat.eq_dec s0 s) as [E|N].
    + subst s0. rewrite set_worker_same in Hp. discriminate Hp.
    + rewrite set_worker_other in Hp by exact N.
      exact (kept_pending _ K s0 j rest r Hp Hr Hid).
  - intros s0 j r Hin Hna Hr Hid. rewrite Hjr. rewrite Hjobs in Hr.
    apply in_app_or in Hin. destruct Hin as [Hin|[Hin|[]]].
    + apply (kept_done _ K s0 j r Hin); try assumption.
      cbn [sys_workers]. destruct (Nat.eq_dec s0 s) as [E|N0].
      * subst s0. rewrite Hidle. discriminate.
      * rewrite set_worker_other in Hna by exact N0. exact Hna.
    + injection Hin as <- <-. exfalso. apply Hna.
      rewrite set_worker_same. reflexivity.
Qed.

Lemma kept_enqueue (db : database) ws h (r : scan_job) :
  consistent (mkSys db ws h) -> owned (mkSys db ws h) -> results_kept (mkSys db ws h) ->
  ~ In (job_id r) (map job_id (scan_jobs db)) ->
  results_kept (mkSys (enqueue db r) ws h).
Proof.
  intros C O K Hfresh.
  assert (Hold : forall s j r0, In (s, j) h ->
            In r0 (scan_jobs db ++ [r]) -> job_id r0 = j -> In r0 (scan_jobs db)).
  { intros s j r0 Hin Hr0 Hid. apply in_app_or in Hr0.
    destruct Hr0 as [Hr0|[<-|[]]]; [exact Hr0|].
    exfalso. apply Hfresh. rewrite Hid. exact (handed_known _ C s j Hin). }
  constructor; cbn [sys_db sys_workers sys_handed enqueue scan_jobs scan_results].
  - exact (kept_handed _ K).
  - intros s d Hw. destruct (kept_claimed _ K s d Hw) as [H1 H2]. split; [exact H1|].
    intros r0 Hr0 Hid. apply H2; [|exact Hid].
    apply (Hold s (data_id d)); [|exact Hr0 | exact Hid].
    apply (active_handed _ O s). cbn [sys_workers]. rewrite Hw. reflexivity.
  - intros s j rest r0 Hp Hr0 Hid.
    apply (kept_pending _ K s j rest r0 Hp); [|exact Hid].
    apply (Hold s j); [|exact Hr0 | exact Hid].
    apply (active_handed _ O s). exact (proj1 (pending_active _ _ _ Hp)).
  - intros s j r0 Hin Hna Hr0 Hid.
    apply (kept_done _ K s j r0 Hin Hna); [|exact Hid].
    exact (Hold s j r0 Hin Hr0 Hid).
Qed.

Lemma step_kept (sys sys' : system) :
  consistent sys -> owned sys -> results_kept sys -> step sys sys' -> results_kept sys'.
Proof.
  intros C O K Hstep. destruct Hstep.
  - eapply kept_claim; eassumption.
  - unfold get_queued_scans in H0.
    destruct (oldest _); [discriminate H0|]. inversion H0; subst c'. exact K.
  - (* start *)
    destruct (kept_claimed _ K s _ H) as [Hnone Hcols]. cbn [sys_db data_id] in *.
    apply kept_update; try assumption.
    + rewrite H. reflexivity.
    + cbn [pending]. split; [reflexivity|]. intros r Hr Hid.
      rewrite Hnone. cbn [map app].
      specialize (Hcols r Hr Hid). unfold select_columns in Hcols. congruence.
  - (* unresolved *)
    destruct (kept_claimed _ K s _ H) as [Hnone _]. cbn [sys_db data_id] in *.
    apply kept_update; try assumption.
    + rewrite H. reflexivity.
    + cbn [pending]. split; [reflexivity|]. right. auto.
  - (* check *)
    cbv zeta. eapply kept_save; eassumption.
  - (* progress *)
    apply kept_update; try assumption.
    + rewrite H. reflexivity.
    + cbn [pending]. split; [reflexivity|]. intros r Hr Hid.
      apply (kept_pending _ K s scan_id rest r); [|exact Hr | exact Hid].
      cbn [sys_workers]. rewrite H. reflexivity.
  - (* complete *)
    apply kept_update; try assumption.
    + rewrite H. reflexivity.
    + cbn [pending]. split; [reflexivity|]. left. split; [reflexivity|].
      intros r Hr Hid.
      rewrite <- (app_nil_r (map _ _)).
      apply (kept_pending _ K s scan_id [] r); [|exact Hr | exact Hid].
      cbn [sys_workers]. rewrite H. reflexivity.
  - now apply kept_enqueue.
Qed.

Lemma steps_kept (sys sys' : system) :
  consistent sys -> owned sys -> results_kept sys -> steps sys sys' ->
  consistent sys' /\ owned sys' /\ results_kept sys'.
Proof.
  intros C O K Hsteps. induction Hsteps; [auto|].
  destruct (IHHsteps C O K) as (C' & O' & K'). split; [|split].
  - eapply step_consistent; eassumption.
  - eapply step_owned; eassumption.
  - eapply step_kept; eassumption.
Qed.

End ResultsKept.

(** X11.  Interleaving does not disturb a job's results.  Start a pool of
    workers on a table with a primary key and an empty [scan_results].
    In every state it can reach, a job that was handed out and stands
    [completed] has exactly one result row per element of its check list,
    in list order; one that stands [failed] has none; and one that stands
    [running] has the rows of the checks run so far, a prefix of its
    list. *)
Theorem pool_results_per_job (sys0 sys : Pool.system) (s : session) (j : string)
    (r : scan_job) :
  Pool.initial sys0 ->
  NoDup (map job_id (scan_jobs (Pool.sys_db sys0))) ->
  scan_results (Pool.sys_db sys0) = [] ->
  Pool.steps sys0 sys ->
  In (s, j) (Pool.sys_handed sys) ->
  In r (scan_jobs (Pool.sys_db sys)) ->
  job_id r = j ->
  let types := map sr_check_type (job_results (Pool.sys_db sys) j) in
  (job_status r = "completed" -> types = job_checks r)
  /\ (job_status r = "failed" -> types = [])
  /\ (job_status r = "running" -> exists rest, types ++ rest = job_checks r)
  /\ (job_status r = "queued" -> types = []).
Proof.
  intros Hinit Hnd Hres Hsteps Hin Hr Hid. cbv zeta.
  destruct (steps_kept sys0 sys (initial_consistent _ Hinit)
              (initial_owned _ Hinit Hnd) (initial_kept _ Hinit Hres) Hsteps)
    as (C & O & K).
  destruct (Pool.sys_workers sys s) as [|d|id t T i rest|id t T i rest] eqn:Hw.
  - (* the worker is idle: it is done with the job *)
    destruct (kept_done _ K s j r Hin) as [[Hst Hty]|[Hst Hno]]; try assumption.
    + rewrite Hw. discriminate.
    + rewrite Hst. repeat split; intros; try discriminate; auto.
    + rewrite Hst, Hno. repeat split; intros; try discriminate; auto.
  - destruct (String.eqb_spec (ScanWorker.data_id d) j) as [E|N].
    + assert (Hq : job_status r = "queued").
      { rewrite (active_status _ O s j r); [rewrite Hw; reflexivity| |exact Hr|exact Hid].
        rewrite Hw. cbn. congruence. }
      destruct (kept_claimed _ K s d Hw) as [Hno _]. rewrite E in Hno.
      rewrite Hq, Hno. repeat split; intros; try discriminate; auto.
    + destruct (kept_done _ K s j r Hin) as [[Hst Hty]|[Hst Hno]]; try assumption.
      * rewrite Hw. cbn. congruence.
      * rewrite Hst. repeat split; intros; try discriminate; auto.
      * rewrite Hst, Hno. repeat split; intros; try discriminate; auto.
  - destruct (String.eqb_spec id j) as [E|N].
    + assert (Hq : job_status r = "running").
      { rewrite (active_status _ O s j r); [rewrite Hw; reflexivity| |exact Hr|exact Hid].
        rewrite Hw. cbn. congruence. }
      pose proof (kept_pending _ K s j rest r) as Hp. rewrite Hw in Hp.
      cbn [pending] in Hp. rewrite E in Hp. specialize (Hp eq_refl Hr Hid).
      rewrite Hq. repeat split; intros; try discriminate. eauto.
    + destruct (kept_done _ K s j r Hin) as [[Hst Hty]|[Hst Hno]]; try assumption.
      * rewrite Hw. cbn. congruence.
      * rewrite Hst. repeat split; intros; try discriminate; auto.
      * rewrite Hst, Hno. repeat split; intros; try discriminate; auto.
  - destruct (String.eqb_spec id j) as [E|N].
    + assert (Hq : job_status r = "running").
      { rewrite (active_status _ O s j r); [rewrite Hw; reflexivity| |exact Hr|exact Hid].
        rewrite Hw. cbn. congruence. }
      pose proof (kept_pending _ K s j rest r) as Hp. rewrite Hw in Hp.
      cbn [pending] in Hp. rewrite E in Hp. specialize (Hp eq_refl Hr Hid).
      rewrite Hq. repeat split; intros; try discriminate. eauto.
    + destruct (kept_done _ K s j r Hin) as [[Hst Hty]|[Hst Hno]]; try assumption.
      * rewrite Hw. cbn. congruence.
      * rewrite Hst. repeat split; intros; try discriminate; auto.
      * rewrite Hst, Hno. repeat split; intros; try discriminate; auto.
Qed.

Lemma pool_results_per_job_witness :
  exists sys r,
    Pool.steps Examples.pool0 sys
    /\ In r (scan_jobs (Pool.sys_db sys))
    /\ job_id r = "job-1"
    /\ job_status r = "completed"
    /\ map sr_check_type (job_results (Pool.sys_db sys) "job-1") = ["ping"; "headers"].
Proof.
  eexists. eexists.
  match goal with |- Pool.steps ?a ?b /\ _ => assert (Hs : Pool.steps a b) end.
  { eapply steps_trans; [apply steps_one; eapply (Pool.step_claim 1%nat); reflexivity|].
    eapply steps_trans; [apply steps_one; eapply (Pool.step_start 1%nat); reflexivity|].
    eapply steps_trans;
      [apply steps_one;
       eapply (Pool.step_check 1%nat _ _ _ _ _ _ _ _ _ (Examples.calm 0%nat));
       reflexivity|].
    eapply steps_trans; [apply steps_one; eapply (Pool.step_progress 1%nat); reflexivity|].
    eapply steps_trans;
      [apply steps_one;
       eapply (Pool.step_check 1%nat _ _ _ _ _ _ _ _ _ (Examples.calm 1%nat));
       reflexivity|].
    eapply steps_trans; [apply steps_one; eapply (Pool.step_progress 1%nat); reflexivity|].
    apply steps_one. eapply (Pool.step_complete 1%nat). reflexivity. }
  match goal with |- _ /\ In ?r ?l /\ _ => assert (Hr : In r l) by (left; reflexivity) end.
  assert (Hinit : Pool.initial Examples.pool0) by (repeat split).
  assert (Hnd : NoDup (map job_id (scan_jobs (Pool.sys_db Examples.pool0)))).
  { cbn. repeat constructor; cbn; intuition discriminate. }
  split; [exact Hs|]. split; [exact Hr|]. split; [reflexivity|].
  split; [reflexivity|].
  exact (proj1 (pool_results_per_job Examples.pool0 _ 1%nat "job-1" _ Hinit Hnd eq_refl
                  Hs (or_introl eq_refl) Hr eq_refl) eq_refl).
Defined.

(** ** The main loop *)

Section MainLoop.

Import ScanWorker.

Lemma filter_idem {A : Type} (f : A -> bool) (l : list A) :
  filter f (filter f l) = filter f l.
Proof.
  induction l as [|x l IH]; [reflexivity|]. cbn [filter].
  destruct (f x) eqn:E; cbn [filter]; [rewrite E|]; now rewrite IH.
Qed.

Lemma release_locks_idem (s : session) (l : list (string * session)) :
  release_locks s (release_locks s l) = release_locks s l.
Proof. apply filter_idem. Qed.

Lemma update_scan_status_locks (c : connection) (id status : string) (p : option Z) :
  conn_session (update_scan_status c id status p) = conn_session c
  /\ row_locks (conn_db (update_scan_status c id status p))
     = release_locks (conn_session c) (row_locks (conn_db c)).
Proof. split; reflexivity. Qed.

Lemma save_scan_result_locks (c : connection) (id ct st : string) (d : json) (f : Z)
    (sv : string) :
  conn_session (save_scan_result c id ct st d f sv) = conn_session c
  /\ row_locks (conn_db (save_scan_result c id ct st d f sv))
     = release_locks (conn_session c) (row_locks (conn_db c)).
Proof. split; reflexivity. Qed.

Lemma run_checks_locks (world : nat -> adapters) (id target : string) (total : Z)
    (checks : list string) : forall c i,
  conn_session (run_checks world c id target total i checks) = conn_session c
  /\ release_locks (conn_session c)
       (row_locks (conn_db (run_checks world c id target total i checks)))
     = release_locks (conn_session c) (row_locks (conn_db c)).
Proof.
  induction checks as [|n rest IH]; intros c i; cbn [run_checks]; [auto|].
  match goal with |- context [run_checks world ?c' _ _ _ _ rest] =>
    destruct (IH c' (S i)) as [Hs Hl]; rewrite Hs; split; [reflexivity|];
    change (conn_session c') with (conn_session c) in Hl; rewrite Hl end.
  cbn [update_scan_status save_scan_result commit with_jobs with_results conn_db
       conn_session row_locks].
  now rewrite !release_locks_idem.
Qed.

(** Every path of [process_scan] ends in a commit: the session holds no
    lock when it returns. *)
Lemma process_scan_locks (world : nat -> adapters) (c : connection) (data : scan_data) :
  row_locks (conn_db (process_scan world c data))
  = release_locks (conn_session c) (row_locks (conn_db c)).
Proof.
  destruct data as [[[[id tid] url] checks] org]. cbn [process_scan].
  destruct (resolve_target _ _ _) as [target|]; [|reflexivity].
  rewrite (proj2 (update_scan_status_locks _ _ _ _)).
  match goal with |- context [run_checks world ?c' _ _ _ _ checks] =>
    destruct (run_checks_locks world id target (Z.of_nat (List.length checks))
                checks c' 0%nat) as [Hs Hl]; rewrite Hs;
    change (conn_session c') with (conn_session c) in *; rewrite Hl end.
  cbn [update_scan_status commit with_jobs conn_db conn_session row_locks].
  now rewrite release_locks_idem.
Qed.

Lemma update_where_id_all (id : string) (set : scan_job -> scan_job)
    (P : scan_job -> Prop) (rows : list scan_job) :
  (forall r, job_id (set r) = job_id r) ->
  (forall r, P (set r)) ->
  Forall (fun a' => job_id a' = id -> P a') (update_where_id id set rows).
Proof.
  intros Hid HP. induction rows as [|r rows IH]; cbn; constructor; [|exact IH].
  destruct (String.eqb_spec (job_id r) id); [auto|]. intros E. contradiction.
Qed.

Lemma update_where_id_progress (id : string) (set : scan_job -> scan_job)
    (rows : list scan_job) :
  (forall r, job_progress (set r) = job_progress r) ->
  Forall2 (fun a a' => job_progress a' = job_progress a) rows
          (update_where_id id set rows).
Proof.
  intros H. induction rows as [|r rows IH]; cbn; constructor; [|exact IH].
  destruct (String.eqb (job_id r) id); auto.
Qed.

Lemma Forall2_and_right {A B : Type} (R : A -> B -> Prop) (P : B -> Prop)
    (l : list A) : forall l',
  Forall2 R l l' -> Forall P l' -> Forall2 (fun a b => R a b /\ P b) l l'.
Proof.
  induction l as [|a l IH]; intros l' H2 H1; inversion H2; subst; [constructor|].
  inversion H1; subst. constructor; auto.
Qed.

Lemma Forall2_conj {A B : Type} (R S : A -> B -> Prop) (l : list A) : forall l',
  Forall2 R l l' -> Forall2 S l l' -> Forall2 (fun a b => R a b /\ S a b) l l'.
Proof.
  induction l as [|a l IH]; intros l' H1 H2; inversion H1; subst; [constructor|].
  inversion H2; subst. constructor; auto.
Qed.

Lemma Forall2_weaken {A B : Type} (R S : A -> B -> Prop) (l : list A) (l' : list B) :
  (forall a b, R a b -> S a b) -> Forall2 R l l' -> Forall2 S l l'.
Proof. intros H F. induction F; constructor; auto. Qed.

(** The rows of [scan_jobs] after [process_scan] on the row [r]. *)
Lemma process_scan_settles (world : nat -> adapters) (c : connection) (r : scan_job) :
  Forall2 (settled_as (conn_db c) r) (scan_jobs (conn_db c))
          (scan_jobs (conn_db (process_scan world c (select_columns r)))).
Proof.
  pose proof (process_scan_frame_by world c (job_id r) (job_target_id r) (job_url r)
                (job_checks r) (job_organization_id r)) as (Hf & _).
  unfold select_columns. unfold settled_as.
  revert Hf. cbn [process_scan].
  destruct (resolve_target (conn_db c) (job_target_id r) (job_url r)) as [target|];
    intros Hf.
  - match goal with |- Forall2 _ _ (scan_jobs (conn_db (update_scan_status ?c2 _ _ _))) =>
      set (conn2 := c2) in * end.
    assert (Hlast : Forall (fun a' => job_id a' = job_id r ->
                                      job_status a' = "completed" /\ job_progress a' = 100)
                      (scan_jobs (conn_db (update_scan_status conn2 (job_id r)
                                             "completed" None)))).
    { cbn [update_scan_status String.eqb Ascii.eqb Bool.eqb commit with_jobs conn_db
           scan_jobs].
      apply update_where_id_all; intros; split; reflexivity. }
    eapply Forall2_weaken; [|exact (Forall2_and_right _ _ _ _ Hf Hlast)].
    intros a a' [(Hid & _ & _ & _ & _ & _ & Hne) Hst]. cbv beta in *.
    destruct (String.eqb_spec (job_id a) (job_id r)) as [E|N]; [|auto].
    split; [exact Hid|]. apply Hst. congruence.
  - assert (Hlast : Forall (fun a' => job_id a' = job_id r -> job_status a' = "failed")
                      (scan_jobs (conn_db (update_scan_status c (job_id r)
                                             "failed" None)))).
    { cbn [update_scan_status String.eqb Ascii.eqb Bool.eqb commit with_jobs conn_db
           scan_jobs].
      apply update_where_id_all; intros; reflexivity. }
    assert (Hp : Forall2 (fun a a' => job_progress a' = job_progress a)
                   (scan_jobs (conn_db c))
                   (scan_jobs (conn_db (update_scan_status c (job_id r)
                                          "failed" None)))).
    { cbn [update_scan_status String.eqb Ascii.eqb Bool.eqb commit with_jobs conn_db
           scan_jobs].
      apply update_where_id_progress. reflexivity. }
    eapply Forall2_weaken;
      [|exact (Forall2_conj _ _ _ _ (Forall2_and_right _ _ _ _ Hf Hlast) Hp)].
    intros a a' [[(Hid & _ & _ & _ & _ & _ & Hne) Hst] Hpr]. cbv beta in *.
    destruct (String.eqb_spec (job_id a) (job_id r)) as [E|N]; [|auto].
    split; [exact Hid|]. split; [apply Hst; congruence | exact Hpr].
Qed.

(** With no claim of another session in flight, the query sees every
    queued row. *)
Lemma claimable_no_locks (db : database) (s : session) :
  row_locks db = [] ->
  filter (claimable db s) (scan_jobs db) = queued_jobs db.
Proof.
  intros Hl. unfold queued_jobs. apply filter_ext. intros r.
  unfold claimable, locked_by_other. rewrite Hl. cbn. apply andb_true_r.
Qed.

Lemma release_own_lock (s : session) (id : string) :
  release_locks s [(id, s)] = [].
Proof. unfold release_locks. cbn. now rewrite Nat.eqb_refl. Qed.

Lemma settled_ids (db : database) (r : scan_job) (rows rows' : list scan_job) :
  Forall2 (settled_as db r) rows rows' -> map job_id rows' = map job_id rows.
Proof.
  intros F. induction F as [|a a' rows rows' H _ IH]; [reflexivity|].
  cbn [map]. rewrite IH. f_equal. unfold settled_as in H.
  destruct (String.eqb (job_id a) (job_id r)); [exact (proj1 H) | now subst].
Qed.

Lemma settled_not_queued (db : database) (r a a' : scan_job) :
  settled_as db r a a' -> job_id a = job_id r -> job_status a' <> "queued".
Proof.
  unfold settled_as. intros H E. rewrite E, String.eqb_refl in H.
  destruct H as [_ H]. destruct (resolve_target _ _ _); destruct H as [H _];
    rewrite H; discriminate.
Qed.

(** One row of a table with a primary key leaves the queue. *)
Lemma settled_queue_length (db : database) (r : scan_job) (rows : list scan_job) :
  forall rows',
    Forall2 (settled_as db r) rows rows' ->
    NoDup (map job_id rows) ->
    In r rows -> job_status r = "queued" ->
    S (List.length (filter (fun a => String.eqb (job_status a) "queued") rows'))
    = List.length (filter (fun a => String.eqb (job_status a) "queued") rows).
Proof.
  induction rows as [|a rows IH]; intros rows' F Hnd Hin Hq; [destruct Hin|].
  inversion F as [|? a' ? rows'' Ha Frest]; subst.
  cbn [map] in Hnd. inversion Hnd as [|? ? Hni Hnd']; subst.
  cbn [filter].
  destruct Hin as [E|Hin].
  - subst a. rewrite Hq, String.eqb_refl.
    pose proof (settled_not_queued db r r a' Ha eq_refl) as Hnq.
    apply String.eqb_neq in Hnq. rewrite Hnq. cbn [List.length]. f_equal.
    f_equal. clear IH F Hnd Hnd'.
    induction Frest as [|b b' rows rows'' Hb _ IHr]; [reflexivity|].
    unfold settled_as in Hb.
    destruct (String.eqb_spec (job_id b) (job_id r)) as [E|N].
    + exfalso. apply Hni. left. exact E.
    + subst b'. cbn [filter].
      rewrite IHr by (intros H; apply Hni; right; exact H). reflexivity.
  - assert (N : job_id a <> job_id r).
    { intros E. apply Hni. rewrite E. now apply in_map. }
    unfold settled_as in Ha. apply String.eqb_neq in N. rewrite N in Ha. subst a'.
    destruct (String.eqb (job_status a) "queued"); cbn [List.length];
      rewrite <- (IH rows'' Frest Hnd' Hin Hq); reflexivity.
Qed.

End MainLoop.

(** A turn of [main] with no other claim in flight: it finds no queued job,
    or settles the oldest. *)
Lemma main_iteration_cases (world : nat -> adapters) (s : session)
    (db : database) :
  row_locks db = [] ->
  match ScanWorker.oldest (queued_jobs db) with
  | None => main_iteration world s db = db
  | Some r =>
      let db' := main_iteration world s db in
      In r (queued_jobs db)
      /\ (forall r', In r' (queued_jobs db) -> job_created_at r <= job_created_at r')
      /\ Forall2 (settled_as db r) (scan_jobs db) (scan_jobs db')
      /\ targets db' = targets db
      /\ row_locks db' = []
  end.
Proof.
  intros Hl. unfold main_iteration, ScanWorker.get_queued_scans.
  cbn [Pool.as_conn conn_db conn_session].
  rewrite (claimable_no_locks db s Hl).
  destruct (ScanWorker.oldest (queued_jobs db)) as [r|] eqn:Ho.
  - cbv zeta. destruct (oldest_least _ _ Ho) as [Hin Hle].
    split; [exact Hin|]. split; [exact Hle|].
    match goal with |- context [ScanWorker.process_scan world ?c _] =>
      set (conn1 := c) end.
    pose proof (process_scan_settles world conn1 r) as Hs.
    pose proof (process_scan_frame_by world conn1 (job_id r) (job_target_id r)
                  (job_url r) (job_checks r) (job_organization_id r))
      as (_ & Ht & _).
    pose proof (process_scan_locks world conn1 (ScanWorker.select_columns r)) as Hk.
    unfold close. cbn [scan_jobs targets row_locks].
    split; [exact Hs|]. split; [exact Ht|].
    rewrite Hk. unfold conn1. cbn [conn_session conn_db row_locks].
    rewrite Hl, release_own_lock.
    assert (E : conn_session
                  (ScanWorker.process_scan world conn1 (ScanWorker.select_columns r)) = s).
    { unfold ScanWorker.select_columns. cbn [ScanWorker.process_scan].
      destruct (ScanWorker.resolve_target _ _ _); [|reflexivity].
      cbn [ScanWorker.update_scan_status commit with_jobs conn_session].
      match goal with |- context [ScanWorker.run_checks world ?c' ?id ?t ?T ?i ?cs] =>
        exact (proj1 (run_checks_locks world id t T cs c' i)) end. }
    reflexivity.
  - unfold close. cbn [Pool.as_conn conn_db conn_session].
    destruct db as [jobs results tgts locks now]. cbn in Hl |- *. subst locks.
    reflexivity.
Qed.

(** X12.  One turn of [main] with no other claim in flight.  When no job is
    queued the database is left as it is.  Otherwise the turn takes the
    oldest queued job and settles it: its row ends [completed] with
    progress 100 when the target resolves, [failed] with its progress
    unchanged when it does not; every other row of [scan_jobs] and the
    targets are untouched, and no row lock is left behind. *)
Theorem main_iteration_settles_oldest (world : nat -> adapters) (s : session)
    (db : database) :
  row_locks db = [] ->
  match ScanWorker.oldest (queued_jobs db) with
  | None => main_iteration world s db = db
  | Some r =>
      let db' := main_iteration world s db in
      In r (queued_jobs db)
      /\ (forall r', In r' (queued_jobs db) -> job_created_at r <= job_created_at r')
      /\ Forall2 (settled_as db r) (scan_jobs db) (scan_jobs db')
      /\ targets db' = targets db
      /\ row_locks db' = []
  end.
Proof. exact (main_iteration_cases world s db). Qed.

Lemma main_iteration_settles_oldest_witness :
  row_locks Examples.db0 = []
  /\ match ScanWorker.oldest (queued_jobs Examples.db0) with
     | None => main_iteration Examples.calm 1%nat Examples.db0 = Examples.db0
     | Some r =>
         let db' := main_iteration Examples.calm 1%nat Examples.db0 in
         In r (queued_jobs Examples.db0)
         /\ (forall r', In r' (queued_jobs Examples.db0) ->
               job_created_at r <= job_created_at r')
         /\ Forall2 (settled_as Examples.db0 r) (scan_jobs Examples.db0) (scan_jobs db')
         /\ targets db' = targets Examples.db0
         /\ row_locks db' = []
     end.
Proof.
  split; [reflexivity|].
  exact (main_iteration_settles_oldest Examples.calm 1%nat Examples.db0 eq_refl).
Defined.

Lemma main_loop_queue (world : nat -> nat -> adapters) (s : session) (n : nat) :
  forall k db,
    row_locks db = [] ->
    NoDup (map job_id (scan_jobs db)) ->
    List.length (queued_jobs (main_loop world s k n db))
    = (List.length (queued_jobs db) - n)%nat
    /\ row_locks (main_loop world s k n db) = []
    /\ targets (main_loop world s k n db) = targets db
    /\ map job_id (scan_jobs (main_loop world s k n db)) = map job_id (scan_jobs db).
Proof.
  induction n as [|n IH]; intros k db Hl Hnd; cbn [main_loop].
  - rewrite Nat.sub_0_r. auto.
  - pose proof (main_iteration_cases (world k) s db Hl) as Hit.
    destruct (ScanWorker.oldest (queued_jobs db)) as [r|] eqn:Ho.
    + cbv zeta in Hit. destruct Hit as (Hin & _ & Hs & Ht & Hl').
      pose proof (settled_ids _ _ _ _ Hs) as Hids.
      assert (Hnd' : NoDup (map job_id (scan_jobs (main_iteration (world k) s db))))
        by (rewrite Hids; exact Hnd).
      destruct (IH (S k) _ Hl' Hnd') as (I1 & I2 & I3 & I4).
      unfold queued_jobs in Hin. apply filter_In in Hin. destruct Hin as [Hin Hq].
      apply String.eqb_eq in Hq.
      pose proof (settled_queue_length _ _ _ _ Hs Hnd Hin Hq) as Hlen.
      fold (queued_jobs (main_iteration (world k) s db)) in Hlen.
      fold (queued_jobs db) in Hlen.
      repeat split; [lia | exact I2 | congruence | congruence].
    + rewrite Hit. destruct (IH (S k) db Hl Hnd) as (I1 & I2 & I3 & I4).
      apply oldest_none in Ho. rewrite Ho in *. cbn [List.length] in *.
      repeat split; [lia | exact I2 | exact I3 | exact I4].
Qed.

(** X13.  A worker alone works the queue off, one job per turn of [main]: on
    a table with a primary key and no claim in flight, [n] turns leave
    [n] fewer jobs [queued] (none, once [n] reaches their number), add and
    remove no job, and leave no row lock behind. *)
Theorem main_loop_drains_queue (world : nat -> nat -> adapters) (s : session)
    (n : nat) (db : database) :
  row_locks db = [] ->
  NoDup (map job_id (scan_jobs db)) ->
  let db' := main_loop world s 0 n db in
  List.length (queued_jobs db') = (List.length (queued_jobs db) - n)%nat
  /\ ((List.length (queued_jobs db) <= n)%nat -> queued_jobs db' = [])
  /\ map job_id (scan_jobs db') = map job_id (scan_jobs db)
  /\ row_locks db' = [].
Proof.
  intros Hl Hnd. cbv zeta.
  destruct (main_loop_queue world s n 0%nat db Hl Hnd) as (H1 & H2 & _ & H4).
  repeat split; auto.
  intros Hle. apply length_zero_iff_nil. lia.
Qed.

Lemma main_loop_drains_queue_witness :
  row_locks Examples.db0 = []
  /\ NoDup (map job_id (scan_jobs Examples.db0))
  /\ queued_jobs (main_loop (fun _ => Examples.calm) 1%nat 0 3 Examples.db0) = [].
Proof.
  assert (Hnd : NoDup (map job_id (scan_jobs Examples.db0))).
  { cbn. repeat constructor; cbn; intuition discriminate. }
  split; [reflexivity|]. split; [exact Hnd|].
  apply (main_loop_drains_queue (fun _ => Examples.calm) 1%nat 3 Examples.db0
           eq_refl Hnd).
  cbn. lia.
Defined.

Lemma close_committed (c : connection) :
  release_locks (conn_session c) (row_locks (conn_db c)) = row_locks (conn_db c) ->
  close c = conn_db c.
Proof. intros H. unfold close. rewrite H. destruct (conn_db c); reflexivity. Qed.

Lemma release_locks_none (s : session) (l : list (string * session)) :
  (forall j, ~ In (j, s) l) -> release_locks s l = l.
Proof.
  intros H. unfold release_locks. induction l as [|[j s'] l IH]; [reflexivity|].
  cbn [filter snd]. destruct (Nat.eqb_spec s' s) as [E|N].
  - exfalso. subst s'. apply (H j). left. reflexivity.
  - cbn [negb]. f_equal. apply IH. intros j' Hin. apply (H j'). right. exact Hin.
Qed.

(** X14.  The pool runs [main]: from any reachable state in which worker [s]
    is idle, the pool can take the steps of one whole turn of [main] by
    [s], and ends in the database that turn computes, with [s] idle again
    and the other workers where they were. *)
Theorem pool_runs_main_iteration (world : nat -> adapters) (s : session)
    (db : database) (ws : session -> Pool.worker_state)
    (h : list (session * string)) :
  Pool.consistent (Pool.mkSys db ws h) ->
  ws s = Pool.Idle ->
  exists ws' h',
    Pool.steps (Pool.mkSys db ws h) (Pool.mkSys (main_iteration world s db) ws' h')
    /\ ws' s = Pool.Idle
    /\ (forall s', s' <> s -> ws' s' = ws s').
Proof.
  intros C Hidle. unfold main_iteration.
  destruct (ScanWorker.get_queued_scans (Pool.as_conn s db)) as [[data|] c'] eqn:Hget.
  - assert (Hc' : c' = Pool.as_conn s (conn_db c')).
    { unfold ScanWorker.get_queued_scans in Hget.
      destruct (ScanWorker.oldest _); inversion Hget; reflexivity. }
    pose (ws1 := Pool.set_worker ws s (Pool.Claimed data)).
    destruct (solo_process_scan world s data (conn_db c') ws1
                (h ++ [(s, ScanWorker.data_id data)]))
      as (ws' & Hsteps & Hi & Ho).
    { apply set_worker_same. }
    exists ws', (h ++ [(s, ScanWorker.data_id data)]).
    rewrite close_committed.
    + split; [|split].
      * eapply steps_trans; [apply steps_one; eapply Pool.step_claim; eassumption|].
        rewrite Hc'. exact Hsteps.
      * exact Hi.
      * intros s' Hs'. rewrite (Ho s' Hs'). unfold ws1.
        now rewrite set_worker_other.
    + rewrite process_scan_locks.
      assert (E : conn_session (ScanWorker.process_scan world c' data) = conn_session c').
      { destruct data as [[[[id tid] url] checks] org]. cbn [ScanWorker.process_scan].
        destruct (ScanWorker.resolve_target _ _ _); [|reflexivity].
        cbn [ScanWorker.update_scan_status commit with_jobs conn_session].
        match goal with |- context [ScanWorker.run_checks world ?c1 ?i ?t ?T ?k ?cs] =>
          exact (proj1 (run_checks_locks world i t T cs c1 k)) end. }
      rewrite E. apply release_locks_idem.
  - assert (Hc' : c' = Pool.as_conn s db).
    { unfold ScanWorker.get_queued_scans in Hget.
      destruct (ScanWorker.oldest _); inversion Hget; reflexivity. }
    exists ws, h. rewrite close_committed.
    + split; [|split; auto].
      apply steps_one. subst c'.
      exact (Pool.step_no_work s db ws h (Pool.as_conn s db) Hidle Hget).
    + subst c'. cbn [Pool.as_conn conn_session conn_db].
      apply release_locks_none. intros j Hin.
      destruct (Pool.locks_claimed _ C j s Hin) as (d & Hd & _).
      cbn [Pool.sys_workers] in Hd. congruence.
Qed.

Lemma pool_runs_main_iteration_witness :
  exists ws' h',
    Pool.steps Examples.pool0
      (Pool.mkSys (main_iteration Examples.calm 1%nat Examples.db0) ws' h')
    /\ ws' 1%nat = Pool.Idle
    /\ job_view "job-1" (main_iteration Examples.calm 1%nat Examples.db0)
       = Some ("completed", 100).
Proof.
  destruct (pool_runs_main_iteration Examples.calm 1%nat Examples.db0
              (fun _ => Pool.Idle) []
              (initial_consistent Examples.pool0
                 (conj (fun _ => eq_refl) (conj eq_refl eq_refl)))
              eq_refl) as (ws' & h' & Hsteps & Hi & _).
  exists ws', h'. split; [exact Hsteps|]. split; [exact Hi|]. reflexivity.
Defined.

(** ** Port scan and DNS payloads *)

Section PortScan.

Import Checks.

Lemma port_entry_raises (p : element) (e : exn) :
  port_entry p = Raise e ->
  (exists m, e = ValueError m) \/ (exists m, e = TypeError m).
Proof.
  unfold port_entry, bind. destruct (attr p "portid") as [s|].
  - unfold PyStr.py_int.
    destruct (match PyStr.strip s with
              | String "-" r => (true, r)
              | String "+" r => (false, r)
              | _ => (false, PyStr.strip s)
              end) as [neg body].
    destruct (PyStr.digits_from false 0 body); [discriminate|].
    intros H. inversion H. left. eauto.
  - intros H. inversion H. right. eauto.
Qed.

(** The loop over the ports: every entry, or the first exception. *)
Lemma collect_ports_all (l : list element) : forall acc,
  if forallb portid_ok (filter is_open l) then
    exists entries,
      collect_ports l acc = Ok (acc ++ entries)
      /\ map port_entry (filter is_open l) = map Ok entries
  else
    exists e, collect_ports l acc = Raise e
      /\ ((exists m, e = ValueError m) \/ (exists m, e = TypeError m)).
Proof.
  induction l as [|p l IH]; intros acc; cbn [filter collect_ports].
  - cbn. exists []. now rewrite app_nil_r.
  - destruct (is_open p); [|apply IH].
    cbn [forallb]. unfold portid_ok at 1.
    destruct (port_entry p) as [entry|e] eqn:Hp; cbn [bind andb].
    + specialize (IH (acc ++ [entry])).
      destruct (forallb portid_ok (filter is_open l)).
      * destruct IH as (entries & Hc & Hm). exists (entry :: entries).
        rewrite Hc, <- app_assoc. cbn [map]. rewrite Hp, Hm. auto.
      * exact IH.
    + exists e. split; [reflexivity|]. exact (port_entry_raises p e Hp).
Qed.

End PortScan.

Section Dns.

Import Checks.

Variable w : env.
Variable target : string.

Lemma record_count_app (a b : list (string * json)) :
  record_count (a ++ b) = record_count a + record_count b.
Proof.
  induction a as [|[k v] a IH]; [reflexivity|]. cbn [app record_count].
  destruct v; rewrite IH; lia.
Qed.

Lemma subsequence_nil {A : Type} (l : list A) : subsequence [] l.
Proof. induction l; constructor; auto. Qed.

(** One query adds at most its own record type, with the values counted. *)
Lemma dns_query_adds (st : list (string * json) * Z) (record_type : string) :
  exists added,
    dns_query w target st record_type = Ok (fst st ++ added, snd st + record_count added)
    /\ (added = []
        \/ exists values, values <> [] /\ added = [(record_type, JList (map JStr values))]).
Proof.
  unfold dns_query, bind, try_except.
  destruct (subprocess_run w _ 5) as [proc|e].
  - destruct ((returncode proc =? 0) && negb (PyStr.is_empty (PyStr.strip (stdout proc)))).
    + destruct (record_lines (stdout proc)) as [|v vs] eqn:Hv.
      * exists []. rewrite app_nil_r, Z.add_0_r. destruct st. auto.
      * exists [(record_type, JList (map JStr (v :: vs)))].
        split; [|right; exists (v :: vs); split; [discriminate | reflexivity]].
        cbn [record_count]. rewrite length_map, Z.add_0_r. reflexivity.
    + exists []. rewrite app_nil_r, Z.add_0_r. destruct st. auto.
  - exists []. rewrite app_nil_r, Z.add_0_r. destruct st. auto.
Qed.

Lemma dns_queries_add (types : list string) : forall st,
  exists added,
    dns_queries w target st types = Ok (fst st ++ added, snd st + record_count added)
    /\ subsequence (map fst added) types
    /\ Forall (fun kv => exists values, values <> [] /\ snd kv = JList (map JStr values))
              added.
Proof.
  induction types as [|ty rest IH]; intros st; cbn [dns_queries].
  - exists []. rewrite app_nil_r, Z.add_0_r. destruct st. repeat split; constructor.
  - destruct (dns_query_adds st ty) as (a1 & E1 & H1). rewrite E1. cbn [bind].
    destruct (IH (fst st ++ a1, snd st + record_count a1)) as (a2 & E2 & S2 & F2).
    cbn [fst snd] in E2. exists (a1 ++ a2).
    rewrite E2, record_count_app, <- app_assoc, Z.add_assoc.
    split; [reflexivity|].
    destruct H1 as [->|(values & Hne & ->)]; cbn [app map fst].
    + split; [constructor; exact S2 | exact F2].
    + split; [constructor; exact S2|]. constructor; [|exact F2].
      exists values. auto.
Qed.

End Dns.

(** X15.  The port scan reports the open ports of nmap's XML, all or none.
    When nmap exits with 0 and its output parses, the result counts every
    [port] element whose state is [open], in document order: [findings],
    [total_open] and the length of [open_ports] are that number.  But one
    open port whose [portid] is not an integer discards them all: the
    result is [failed] with findings 0. *)
Theorem port_scan_counts_open_ports (w : Checks.env) (target : string) (cfg : config)
    (proc : Checks.completed_process) (root : Checks.element) :
  Checks.subprocess_run w ["nmap"; "-p-"; "--open"; "-T4"; "-oX"; "-"; target] 900
  = Ok proc ->
  Checks.returncode proc = 0 ->
  Checks.et_fromstring w (Checks.stdout proc) = Ok root ->
  let open_ports := filter Checks.is_open (Checks.findall_port root) in
  let n := Z.of_nat (List.length open_ports) in
  if forallb portid_ok open_ports then
    exists entries,
      Checks.port_scan_check w target cfg
      = Ok (Checks.result "success"
              [("open_ports", JList entries);
               ("total_open", JInt n);
               ("scan_completed", JBool true)]
              n (Checks.portscan_severity n))
      /\ map Checks.port_entry open_ports = map Ok entries
  else
    exists msg,
      Checks.port_scan_check w target cfg
      = Ok (Checks.result "failed" [("error", JStr msg)] 0 "info").
Proof.
  intros Hrun Hcode Hxml. cbv zeta.
  unfold Checks.port_scan_check. rewrite Hrun. cbn [bind]. rewrite Hcode.
  cbn [Z.eqb negb]. rewrite Hxml. cbn [bind].
  pose proof (collect_ports_all (Checks.findall_port root) []) as Hc.
  destruct (forallb portid_ok (filter Checks.is_open (Checks.findall_port root))).
  - destruct Hc as (entries & Hc & Hm). rewrite Hc. cbn [app bind try_except].
    exists entries. split; [|exact Hm].
    assert (E : List.length entries
                = List.length (filter Checks.is_open (Checks.findall_port root))).
    { rewrite <- (length_map Ok entries), <- Hm, length_map. reflexivity. }
    rewrite E. reflexivity.
  - destruct Hc as (e & Hc & [[m ->]|[m ->]]); rewrite Hc; cbn; eauto.
Qed.

Lemma port_scan_counts_open_ports_witness :
  exists entries,
    Checks.port_scan_check env_nmap "example.com" []
    = Ok (Checks.result "success"
            [("open_ports", JList entries);
             ("total_open", JInt 2);
             ("scan_completed", JBool true)]
            2 "low")
    /\ List.length entries = 2%nat.
Proof.
  destruct (port_scan_counts_open_ports env_nmap "example.com" []
              (Checks.mkProc 0 "<nmaprun/>" "") nmap_report eq_refl eq_refl eq_refl)
    as (entries & Hr & Hm).
  exists entries. split; [exact Hr|].
  rewrite <- (length_map Ok entries), <- Hm. reflexivity.
Defined.

(** X16.  The dns adapter always returns [success], and its count is the
    payload's: [findings] and [total_records] are the number of record
    values listed in [records], plus one when the zone transfer went
    through.  [records] holds only record types that returned a value, each
    once and in the order of [DNS_RECORD_TYPES], and the severity is [high]
    exactly when the zone transfer went through, however many records
    there are. *)
Theorem dns_check_counts_records (w : Checks.env) (target : string) (cfg : config) :
  exists records zone_transfer_vulnerable n,
    Checks.dns_check w target cfg
    = Ok (Checks.result "success"
            [("records", JDict records);
             ("zone_transfer_vulnerable", JBool zone_transfer_vulnerable);
             ("total_records", JInt n)]
            n (if zone_transfer_vulnerable then "high" else "info"))
    /\ n = record_count records + (if zone_transfer_vulnerable then 1 else 0)
    /\ subsequence (map fst records) Checks.DNS_RECORD_TYPES
    /\ Forall (fun kv => exists values,
                 values <> [] /\ snd kv = JList (map JStr values)) records.
Proof.
  unfold Checks.dns_check.
  destruct (dns_queries_add w (Checks.bare_host target) Checks.DNS_RECORD_TYPES ([], 0))
    as (records & E & Hsub & Hall).
  cbn [fst snd app] in E. rewrite E. cbn [bind].
  destruct (zone_transfer_ok w (Checks.bare_host target)) as [Z|Z]; rewrite Z;
    cbn [bind try_except fst snd].
  - exists records, true, (0 + record_count records + 1). repeat split; auto. 
  - exists records, false, (0 + record_count records + 0). repeat split; auto.
Qed.

(** ** Missing security headers *)

Section Headers.

Import Checks.

Lemma dict_mem_set (k' k v : string) (d : list (string * string)) :
  dict_mem k' (dict_set k v d) = String.eqb k k' || dict_mem k' d.
Proof.
  unfold dict_mem. induction d as [|[a b] d IH]; cbn [dict_set existsb fst].
  - now rewrite orb_false_r.
  - destruct (String.eqb_spec a k) as [E|N]; cbn [existsb fst].
    + subst a. destruct (String.eqb k k'); reflexivity.
    + rewrite IH. destruct (String.eqb a k'), (String.eqb k k'); reflexivity.
Qed.

(** The keys of the dict the loop over the lines builds. *)
Lemma parse_headers_mem (header : string) (lines : list string) :
  forall hdrs,
    dict_mem header
      (fold_left
         (fun hdrs line =>
            match PyStr.split_once ":" line with
            | Some (key, value) => dict_set (PyStr.strip key) (PyStr.strip value) hdrs
            | None => hdrs
            end) lines hdrs)
    = dict_mem header hdrs
      || existsb (fun line => match line_key line with
                              | Some key => String.eqb key header
                              | None => false
                              end) lines.
Proof.
  induction lines as [|line lines IH]; intros hdrs; cbn [fold_left existsb].
  - now rewrite orb_false_r.
  - rewrite IH. unfold line_key.
    destruct (PyStr.split_once ":" line) as [[key value]|]; cbn [option_map fst].
    + rewrite dict_mem_set.
      destruct (String.eqb (PyStr.strip key) header), (dict_mem header hdrs); reflexivity.
    + reflexivity.
Qed.

Lemma missing_security_headers_spec (out : string) :
  missing_security_headers (parse_headers out)
  = filter (fun header => negb (names_header header out)) SECURITY_HEADERS.
Proof.
  unfold missing_security_headers. apply filter_ext. intros header.
  unfold parse_headers, names_header. rewrite parse_headers_mem. reflexivity.
Qed.

End Headers.

(** X17.  What the headers adapter counts.  When curl exits with 0, a security
    header is reported missing exactly when no line of the output carries
    its name, compared case-sensitively, before the first colon: the status
    line and the values do not matter, and a name in another case does not
    count.  [findings] is the number of missing headers, at most 7, and the
    severity follows from it. *)
Theorem headers_check_missing (w : Checks.env) (target : string) (cfg : config)
    (proc : Checks.completed_process) :
  Checks.subprocess_run w
    ["curl"; "-I"; "-s"; "-L"; "--max-time"; "10"; Checks.with_scheme target] 15
  = Ok proc ->
  Checks.returncode proc = 0 ->
  let missing :=
    filter (fun header => negb (names_header header (Checks.stdout proc)))
           Checks.SECURITY_HEADERS in
  let n := Z.of_nat (List.length missing) in
  exists present server,
    Checks.headers_check w target cfg
    = Ok (Checks.result "success"
            [("headers_present", JDict present);
             ("missing_headers", JList (map JStr missing));
             ("server", JStr server)]
            n (Checks.headers_severity n))
    /\ 0 <= n <= 7.
Proof.
  intros Hrun Hcode. cbv zeta. unfold Checks.headers_check.
  rewrite Hrun. cbn [bind]. rewrite Hcode. cbn [Z.eqb negb try_except].
  rewrite missing_security_headers_spec.
  eexists. eexists. split; [reflexivity|].
  split; [lia|].
  pose proof (filter_length_le
                (fun header => negb (names_header header (Checks.stdout proc)))
                Checks.SECURITY_HEADERS) as H.
  cbn [Checks.SECURITY_HEADERS List.length] in H. lia.
Qed.

Lemma headers_check_missing_witness :
  exists present server,
    Checks.headers_check env_http2 "example.com" []
    = Ok (Checks.result "success"
            [("headers_present", JDict present);
             ("missing_headers",
              JList (map JStr ["Strict-Transport-Security";
                               "Content-Security-Policy";
                               "X-Content-Type-Options";
                               "X-XSS-Protection";
                               "Referrer-Policy";
                               "Permissions-Policy"]));
             ("server", JStr server)]
            6 "high")
    /\ 0 <= 6 <= 7.
Proof.
  exact (headers_check_missing env_http2 "example.com" []
           (Checks.mkProc 0
              ("HTTP/2 200" ++ String "010"
               ("strict-transport-security: max-age=31536000" ++ String "010"
                ("X-Frame-Options: DENY" ++ String "010" EmptyString)))%string
              EmptyString)
           eq_refl eq_refl).
Defined.

(** ** Timestamps of a run *)

Section Times.

Variable scan_id : string.

Lemma times_after_jobs (conn : connection) (set : scan_job -> scan_job) :
  (forall r, job_id (set r) = job_id r) ->
  job_times scan_id
    (conn_db (commit (with_jobs conn (update_where_id scan_id set (scan_jobs (conn_db conn))))))
  = option_map (fun r => (job_started_at (set r), job_completed_at (set r)))
               (find_job (conn_db conn) scan_id).
Proof.
  intros Hid. unfold job_times, find_job. cbn.
  rewrite find_update_where_id by assumption.
  destruct (find _ _); reflexivity.
Qed.

Lemma times_running (conn : connection) (p : option Z) (t : option Z * option Z) :
  job_times scan_id (conn_db conn) = Some t ->
  job_times scan_id (conn_db (ScanWorker.update_scan_status conn scan_id "running" p))
  = Some (Some (clock (conn_db conn)), snd t).
Proof.
  intros Ht. unfold ScanWorker.update_scan_status. cbn [String.eqb Ascii.eqb Bool.eqb].
  rewrite times_after_jobs by reflexivity.
  unfold job_times in Ht. destruct (find_job _ _); [|discriminate].
  inversion Ht. reflexivity.
Qed.

Lemma times_completed (conn : connection) (t : option Z * option Z) :
  job_times scan_id (conn_db conn) = Some t ->
  job_times scan_id (conn_db (ScanWorker.update_scan_status conn scan_id "completed" None))
  = Some (fst t, Some (clock (conn_db conn))).
Proof.
  intros Ht. unfold ScanWorker.update_scan_status. cbn [String.eqb Ascii.eqb Bool.eqb].
  rewrite times_after_jobs by reflexivity.
  unfold job_times in Ht. destruct (find_job _ _); [|discriminate].
  inversion Ht. reflexivity.
Qed.

Lemma run_checks_times (world : nat -> adapters) (target : string) (total : Z)
    (checks : list string) : forall conn i t,
  job_times scan_id (conn_db conn) = Some t ->
  let conn' := ScanWorker.run_checks world conn scan_id target total i checks in
  let n := Z.of_nat (List.length checks) in
  job_times scan_id (conn_db conn')
  = Some (match checks with
          | [] => fst t
          | _ :: _ => Some (clock (conn_db conn) + 2 * n - 1)
          end, snd t)
  /\ clock (conn_db conn') = clock (conn_db conn) + 2 * n.
Proof.
  induction checks as [|c rest IH]; intros conn i t Ht; cbv zeta.
  - cbn [ScanWorker.run_checks List.length]. destruct t. split; [exact Ht | cbn; lia].
  - cbn [ScanWorker.run_checks].
    match goal with |- context [ScanWorker.run_checks world ?c2 _ _ _ _ rest] =>
      set (conn2 := c2) end.
    assert (H2 : job_times scan_id (conn_db conn2)
                 = Some (Some (clock (conn_db conn) + 1), snd t)).
    { unfold conn2. erewrite times_running; [reflexivity|]. exact Ht. }
    assert (Hc2 : clock (conn_db conn2) = clock (conn_db conn) + 2) by (cbn; lia).
    destruct (IH conn2 (S i) _ H2) as [I1 I2]. cbv zeta in I1, I2.
    rewrite I1, I2, Hc2. cbn [fst snd].
    change (List.length (c :: rest)) with (S (List.length rest)).
    rewrite Nat2Z.inj_succ.
    split; [|lia].
    destruct rest as [|c' rest']; cbn [List.length fst]; do 3 f_equal; lia.
Qed.

Lemma task_times_status (conn : connection) (t : option Z * option Z) :
  job_times scan_id (conn_db conn) = Some t ->
  job_times scan_id (conn_db (CeleryTask.update_scan_status conn scan_id "running" None))
  = Some (Some (clock (conn_db conn)), snd t).
Proof.
  intros Ht. unfold CeleryTask.update_scan_status. cbn [String.eqb Ascii.eqb Bool.eqb].
  rewrite times_after_jobs by reflexivity.
  unfold job_times in Ht. destruct (find_job _ _); [|discriminate].
  inversion Ht. reflexivity.
Qed.

Lemma task_times_completed (conn : connection) (at_ : Z) (t : option Z * option Z) :
  job_times scan_id (conn_db conn) = Some t ->
  job_times scan_id
    (conn_db (CeleryTask.update_scan_status conn scan_id "completed" (Some at_)))
  = Some (fst t, Some at_).
Proof.
  intros Ht. unfold CeleryTask.update_scan_status.
  rewrite times_after_jobs by reflexivity.
  unfold job_times in Ht. destruct (find_job _ _); [|discriminate].
  inversion Ht. reflexivity.
Qed.

Lemma task_times_progress (conn : connection) (p : Z) :
  job_times scan_id (conn_db (CeleryTask.update_scan_progress conn scan_id p))
  = job_times scan_id (conn_db conn).
Proof.
  unfold CeleryTask.update_scan_progress.
  rewrite times_after_jobs by reflexivity.
  unfold job_times. destruct (find_job _ _); reflexivity.
Qed.

Lemma task_run_checks_times (world : nat -> adapters) (target : string) (cfg : config)
    (total : Z) (checks : list string) : forall conn k done,
  let out := CeleryTask.run_checks world conn scan_id target cfg total k done checks in
  job_times scan_id (conn_db (fst out)) = job_times scan_id (conn_db conn)
  /\ clock (conn_db (fst out))
     = clock (conn_db conn) + 2 * Z.of_nat (List.length (filter registered checks)).
Proof.
  induction checks as [|c rest IH]; intros conn k done; cbv zeta.
  - cbn. split; [reflexivity | lia].
  - cbn [CeleryTask.run_checks filter]. unfold registered at 1.
    destruct (lookup_check c) as [cid|].
    + match goal with |- context [CeleryTask.run_checks world ?c2 _ _ _ _ _ _ rest] =>
        set (conn2 := c2) end.
      destruct (IH conn2 (S k) (done + 1)) as [I1 I2]. cbv zeta in I1, I2.
      rewrite I1, I2.
      assert (Hc : clock (conn_db conn2) = clock (conn_db conn) + 2).
      { unfold conn2. destruct (world k cid target cfg); cbn; lia. }
      assert (Ht : job_times scan_id (conn_db conn2) = job_times scan_id (conn_db conn)).
      { unfold conn2. rewrite task_times_progress.
        destruct (world k cid target cfg); reflexivity. }
      rewrite Hc, Ht.
      change (List.length (c :: filter registered rest))
        with (S (List.length (filter registered rest))).
      rewrite Nat2Z.inj_succ. split; [reflexivity | lia].
    + apply IH.
Qed.

End Times.

(** X18.  What the polling worker leaves in [started_at].  Every progress
    update of [process_scan] sets [started_at] again, so when a run over
    [T] checks ends, commit after commit from time [now], [started_at] is
    the time of the last progress update, [now + 2 T], and [completed_at]
    the time of the commit after it: the timestamps of a finished job are
    always one commit apart, however long the run was. *)
Theorem process_scan_started_at (world : nat -> adapters) (conn : connection)
    (scan_id : string) (target_id url : option string) (checks : list string)
    (org_id : option string) (target : string) (t : option Z * option Z) :
  job_times scan_id (conn_db conn) = Some t ->
  ScanWorker.resolve_target (conn_db conn) target_id url = Some target ->
  let now := clock (conn_db conn) in
  let T := Z.of_nat (List.length checks) in
  let conn' :=
    ScanWorker.process_scan world conn (scan_id, target_id, url, checks, org_id) in
  job_times scan_id (conn_db conn') = Some (Some (now + 2 * T), Some (now + 2 * T + 1))
  /\ clock (conn_db conn') = now + 2 * T + 2.
Proof.
  intros Ht Hres. cbv zeta. cbn [ScanWorker.process_scan]. rewrite Hres.
  set (c1 := ScanWorker.update_scan_status conn scan_id "running" (Some 0)).
  assert (H1 : job_times scan_id (conn_db c1) = Some (Some (clock (conn_db conn)), snd t))
    by (apply times_running; exact Ht).
  assert (Hc1 : clock (conn_db c1) = clock (conn_db conn) + 1) by reflexivity.
  destruct (run_checks_times scan_id world target (Z.of_nat (List.length checks))
              checks c1 0%nat _ H1) as [H2 Hc2]. cbv zeta in H2, Hc2.
  set (c2 := ScanWorker.run_checks world c1 scan_id target _ 0 checks) in *.
  rewrite (times_completed scan_id c2 _ H2).
  change (clock (conn_db (ScanWorker.update_scan_status c2 scan_id "completed" None)))
    with (clock (conn_db c2) + 1).
  rewrite Hc2, Hc1. cbn [fst snd]. split; [|lia].
  destruct checks as [|c rest]; cbn [List.length fst]; do 3 f_equal; lia.
Qed.

Lemma process_scan_started_at_witness :
  let conn' :=
    ScanWorker.process_scan Examples.calm Examples.conn0
      ("job-1", None, Some "example.com", ["ping"; "headers"], None) in
  job_times "job-1" (conn_db Examples.conn0) = Some (None, None)
  /\ job_times "job-1" (conn_db conn') = Some (Some 1004, Some 1005).
Proof.
  cbv zeta. split; [reflexivity|].
  exact (proj1 (process_scan_started_at Examples.calm Examples.conn0 "job-1" None
                  (Some "example.com") ["ping"; "headers"] None "example.com"
                  (None, None) eq_refl eq_refl)).
Defined.

(** X19.  In [execute_scan] the timestamps span the run: [started_at] is the
    time of its first statement and stays, and [completed_at] is the time
    at which the loop ended, two commits per registered check later. *)
Theorem execute_scan_timestamps (world : nat -> adapters) (conn : connection)
    (scan_id target : string) (checks : list string) (cfg : config)
    (t : option Z * option Z) :
  job_times scan_id (conn_db conn) = Some t ->
  let now := clock (conn_db conn) in
  let R := Z.of_nat (List.length (filter registered checks)) in
  let conn' := fst (CeleryTask.execute_scan world conn scan_id target checks cfg) in
  job_times scan_id (conn_db conn') = Some (Some now, Some (now + 2 * R + 2))
  /\ clock (conn_db conn') = now + 2 * R + 4.
Proof.
  intros Ht. cbv zeta. unfold CeleryTask.execute_scan.
  set (c1 := CeleryTask.update_scan_status conn scan_id "running" None).
  set (c2 := CeleryTask.update_scan_progress c1 scan_id 0).
  assert (H2 : job_times scan_id (conn_db c2) = Some (Some (clock (conn_db conn)), snd t)).
  { unfold c2. rewrite task_times_progress. apply task_times_status. exact Ht. }
  assert (Hc2 : clock (conn_db c2) = clock (conn_db conn) + 2) by (cbn; lia).
  destruct (task_run_checks_times scan_id world target cfg
              (Z.of_nat (List.length checks)) checks c2 0%nat 0) as [H3 Hc3].
  cbv zeta in H3, Hc3.
  destruct (CeleryTask.run_checks world c2 scan_id target cfg _ 0 0 checks)
    as [c3 done]. cbn [fst snd] in *.
  rewrite task_times_progress.
  rewrite H2 in H3.
  rewrite (task_times_completed scan_id c3 _ _ H3).
  cbn [fst]. rewrite Hc3, Hc2. split; [do 3 f_equal; lia|].
  cbn [CeleryTask.update_scan_progress CeleryTask.update_scan_status commit with_jobs
       conn_db clock].
  rewrite Hc3, Hc2. lia.
Qed.

Lemma execute_scan_timestamps_witness :
  let conn' :=
    fst (CeleryTask.execute_scan Examples.calm Examples.conn0 "job-1" "example.com"
           ["ping"; "nope"; "headers"] []) in
  job_times "job-1" (conn_db conn') = Some (Some 1000, Some 1006).
Proof.
  cbv zeta.
  exact (proj1 (execute_scan_timestamps Examples.calm Examples.conn0 "job-1"
                  "example.com" ["ping"; "nope"; "headers"] [] (None, None) eq_refl)).
Defined.
